(** * A best-first solver for the 8-puzzle: [1_a_sharp/main.py]

    The development embeds the Python program shallowly.  Python integers
    are [Z], lists are [list], the two-dimensional [matrix] of a state is a
    list of rows, exceptions are values of an error monad, and the objects
    of class [EFPState] live in an explicit heap because the program links
    them with references ([end_state], [prev_state]) and mutates them in
    place. *)

From stdpp Require Import base list list_numbers gmap strings pretty.
From Stdlib Require Import Sorted.
From Stdlib Require Uint63.

Open Scope Z_scope.

(** ** Exceptions and the error monad *)

(** The keyword arguments [l], [r], [u], [d] of [EFPState.move]. *)
Inductive direction := MoveLeft | MoveRight | MoveUp | MoveDown.

(** The texts carried by the exceptions the program can raise. *)
Inductive message :=
  | CantMove (d : direction)            (* "Can't move left." and so on *)
  | CouldNotFindIndex (value : Z)       (* f"Could not find index of number {value}" *)
  | NoDirectionGiven                    (* "No direction given." *)
  | DifferentParity                     (* "Different inversion pairs parity, no solution." *)
  | ListIndexOutOfRange                 (* a subscript outside a list *)
  | PopFromEmptyList.                   (* list.pop on an empty list *)

Inductive exn :=
  | InvalidMoveDirection (msg : message)
  | RuntimeError (msg : message)
  | IndexError (msg : message)
  | DanglingReference.                  (* not a Python exception: a reference
                                           that denotes no object of the heap *)

Inductive result (A : Type) :=
  | Ok (a : A)
  | Raise (e : exn).
Arguments Ok {A} a.
Arguments Raise {A} e.

#[global] Instance result_ret : MRet result := λ A a, Ok a.
#[global] Instance result_bind : MBind result := λ A B f r,
  match r with
  | Ok a => f a
  | Raise e => Raise e
  end.

#[global] Instance direction_eq_dec : EqDecision direction.
Proof. solve_decision. Defined.
#[global] Instance message_eq_dec : EqDecision message.
Proof. solve_decision. Defined.
#[global] Instance exn_eq_dec : EqDecision exn.
Proof. solve_decision. Defined.

(** A [for] loop whose body may raise: the loop variable runs through [xs]
    and the body updates the loop-carried value. *)
Fixpoint for_loop {A S : Type} (xs : list A) (body : S → A → result S) (s : S)
    : result S :=
  match xs with
  | [] => Ok s
  | x :: xs' => s' ← body s x; for_loop xs' body s'
  end.

(** ** Python lists *)

(** [range(a, b)]. *)
Definition range (a b : Z) : list Z := seqZ a (b - a).

(** The position a subscript [k] denotes in a list of length [n]: negative
    subscripts count from the end. *)
Definition py_index (n : nat) (k : Z) : option nat :=
  if bool_decide (0 ≤ k < Z.of_nat n) then Some (Z.to_nat k)
  else if bool_decide (- Z.of_nat n ≤ k < 0) then Some (Z.to_nat (k + Z.of_nat n))
  else None.

(** [l[k]]. *)
Definition list_getitem {A : Type} (l : list A) (k : Z) : result A :=
  match py_index (length l) k ≫= (l !!.) with
  | Some a => Ok a
  | None => Raise (IndexError ListIndexOutOfRange)
  end.

(** [l[k] = a]. *)
Definition list_setitem {A : Type} (l : list A) (k : Z) (a : A) : result (list A) :=
  match py_index (length l) k with
  | Some i => Ok (<[i:=a]> l)
  | None => Raise (IndexError ListIndexOutOfRange)
  end.

(** ** Inversions *)

(** [count_inversions(arr)]: both subscripts stay below [len(arr)], so they
    cannot raise and are read with the total lookup. *)
Definition count_inversions (arr : list Z) : Z :=
  let n := length arr in
  foldl (λ inversions i,
           foldl (λ inversions j,
                    if bool_decide (arr !!! i > arr !!! j)
                    then inversions + 1 else inversions)
                 inversions (seq (i + 1) (n - (i + 1))))
        0 (seq 0 n).

(** ** The arrangement of a state

    The attribute [matrix] of an [EFPState] is a list of three rows.  The
    methods below read and write nothing else of [self], so they are given
    as functions of the arrangement. *)

Abbreviation arrangement := (list (list Z)).

(** The [matrix] that [EFPState.__init__] builds from [sequence]. *)
Definition matrix_of_sequence (sequence : list Z) : arrangement :=
  [ take 3 sequence; take 3 (drop 3 sequence); take 3 (drop 6 sequence) ].

(** [EFPState.to_sequence]. *)
Definition to_sequence (m : arrangement) : list Z := concat m.

(** [self.matrix[key[0]][key[1]]], as in [__getitem__]. *)
Definition matrix_getitem (m : arrangement) (key : Z * Z) : result Z :=
  row ← list_getitem m key.1; list_getitem row key.2.

(** [self.matrix[key[0]][key[1]] = value], as in [__setitem__]: the row is
    fetched and updated in place. *)
Definition matrix_setitem (m : arrangement) (key : Z * Z) (value : Z) : result arrangement :=
  row ← list_getitem m key.1;
  row' ← list_setitem row key.2 value;
  list_setitem m key.1 row'.

(** The cells that two nested [for] loops over [range(3)] visit, in order. *)
Definition cells3 : list (Z * Z) :=
  i ← range 0 3; j ← range 0 3; [(i, j)].

(** [EFPState.get_index]: the first cell, in row-major order, that holds
    [value]. *)
Fixpoint get_index_from (m : arrangement) (value : Z) (cells : list (Z * Z))
    : result (Z * Z) :=
  match cells with
  | [] => Raise (RuntimeError (CouldNotFindIndex value))
  | c :: cells' =>
      x ← matrix_getitem m c;
      if bool_decide (x = value) then Ok c else get_index_from m value cells'
  end.

Definition get_index (m : arrangement) (value : Z) : result (Z * Z) :=
  get_index_from m value cells3.

(** [EFPState.distance]: the body of the inner loop, then the loops. *)
Definition distance_body (self other : arrangement) (distance : Z) (c : Z * Z)
    : result Z :=
  value ← matrix_getitem self c;
  if bool_decide (value = 0) then Ok distance
  else
    coor ← get_index other value;
    let distance := distance + Z.abs (coor.2 - c.2) in
    let distance := distance + Z.abs (coor.1 - c.1) in
    Ok distance.

Definition distance (self other : arrangement) : result Z :=
  for_loop cells3 (distance_body self other) 0.

(** ** Hashing

    [EFPState.__hash__] defers to the hash of the tuple of the nine cells,
    which the Python runtime supplies.  The development is parametric in
    that function; [cpython_tuple_hash] below is the one of CPython. *)
Class TupleHash := tuple_hash : list Z → Z.

(** CPython (3.8 and later, 64-bit) hashes a tuple of integers with the
    following variant of xxHash.  An [int] hashes to its absolute value
    reduced modulo 2^61 - 1, with the sign of the integer, except that the
    result -1, which the runtime keeps for errors, becomes -2: an [int]
    below 2^61 - 1 in absolute value hashes to itself, but for -1. *)
Module CPython.
Definition XXPRIME_1 : Z := 11400714785074694791.
Definition XXPRIME_2 : Z := 14029467366897019727.
Definition XXPRIME_5 : Z := 2870177450012600261.
Definition PyHASH_MODULUS : Z := 2 ^ 61 - 1.
Definition uhash (x : Z) : Z := x `mod` 2 ^ 64.
Definition int_hash (x : Z) : Z :=
  let h := Z.sgn x * (Z.abs x `mod` PyHASH_MODULUS) in
  if bool_decide (h = -1) then -2 else h.
Definition rotate (x : Z) : Z :=
  uhash (Z.lor (Z.shiftl x 31) (Z.shiftr x 33)).
Definition lane_step (acc x : Z) : Z :=
  let acc := uhash (acc + uhash (int_hash x) * XXPRIME_2) in
  let acc := rotate acc in
  uhash (acc * XXPRIME_1).
Definition tuplehash (t : list Z) : Z :=
  let acc := foldl lane_step XXPRIME_5 t in
  let acc := uhash (acc + Z.lxor (Z.of_nat (length t)) (Z.lxor XXPRIME_5 3527539)) in
  if bool_decide (acc = 2 ^ 64 - 1) then 1546275796
  else if bool_decide (acc < 2 ^ 63) then acc else acc - 2 ^ 64.
End CPython.

Definition cpython_tuple_hash : TupleHash := CPython.tuplehash.

(** ** Objects and the heap *)

(** A reference to an [EFPState] object. *)
Abbreviation loc := nat.

(** The attributes of an [EFPState] object. *)
Record EFPState := mkEFPState {
  matrix : arrangement;
  distance_to_end : Z;
  end_state : option loc;
  prev_state : option loc;
}.

Definition with_matrix (m : arrangement) (o : EFPState) : EFPState :=
  mkEFPState m (distance_to_end o) (end_state o) (prev_state o).
Definition with_distance_to_end (d : Z) (o : EFPState) : EFPState :=
  mkEFPState (matrix o) d (end_state o) (prev_state o).
Definition with_end_state (e : option loc) (o : EFPState) : EFPState :=
  mkEFPState (matrix o) (distance_to_end o) e (prev_state o).
Definition with_prev_state (p : option loc) (o : EFPState) : EFPState :=
  mkEFPState (matrix o) (distance_to_end o) (end_state o) p.

(** The heap holds the objects in the order of their creation; a new object
    takes the next free position. *)
Abbreviation heap := (list EFPState).

(** Computations that read and write the heap and may raise.  The heap is
    returned in both cases: what was written before an exception stays. *)
Definition M (A : Type) : Type := heap → result A * heap.

#[global] Instance M_ret : MRet M := λ A a h, (Ok a, h).
#[global] Instance M_bind : MBind M := λ A B f m h,
  match m h with
  | (Ok a, h') => f a h'
  | (Raise e, h') => (Raise e, h')
  end.

Definition raise {A : Type} (e : exn) : M A := λ h, (Raise e, h).
Definition lift {A : Type} (r : result A) : M A := λ h, (r, h).

Definition deref (self : loc) : M EFPState := λ h,
  match h !! self with
  | Some o => (Ok o, h)
  | None => (Raise DanglingReference, h)
  end.

(** An attribute assignment [self.x = v], given as the update [f] of the
    object. *)
Definition assign (self : loc) (f : EFPState → EFPState) : M unit := λ h,
  match h !! self with
  | Some o => (Ok (), <[self := f o]> h)
  | None => (Raise DanglingReference, h)
  end.

Definition alloc (o : EFPState) : M loc := λ h, (Ok (length h), h ++ [o]).

(** A [for] loop over [xs] whose body acts on the heap. *)
Fixpoint for_each {A : Type} (xs : list A) (body : A → M unit) : M unit :=
  match xs with
  | [] => mret ()
  | x :: xs' => body x;; for_each xs' body
  end.

(** ** Sorting

    [list.sort(key=...)] is stable: an element goes in front of the first
    one whose key is not smaller. *)
Fixpoint insert_by_key {A : Type} (x : Z * A) (l : list (Z * A)) : list (Z * A) :=
  match l with
  | [] => [x]
  | y :: l' => if bool_decide (x.1 ≤ y.1) then x :: l else y :: insert_by_key x l'
  end.

Definition sort_by_key {A : Type} (l : list (Z * A)) : list (Z * A) :=
  foldr insert_by_key [] l.

(** ** The methods of [EFPState] *)

Section methods.
Context {hash_impl : TupleHash}.

(** [__hash__] and [__eq__]: equality compares the two hashes. *)
Definition EFPState_hash (self : EFPState) : Z :=
  tuple_hash (to_sequence (matrix self)).

Definition EFPState_eq (self value : EFPState) : bool :=
  bool_decide (EFPState_hash value = EFPState_hash self).

Definition update_distance_to_end (self : loc) : M unit :=
  o ← deref self;
  match end_state o with
  | Some e =>
      oe ← deref e;
      d ← lift (distance (matrix o) (matrix oe));
      assign self (with_distance_to_end d)
  | None => assign self (with_distance_to_end (-1))
  end.

(** [EFPState(sequence, end_state, update_distance)]. *)
Definition EFPState_init (sequence : list Z) (end_state : option loc)
    (update_distance : bool) : M loc :=
  self ← alloc (mkEFPState (matrix_of_sequence sequence) (-1) end_state None);
  (if update_distance then update_distance_to_end self else mret ());;
  mret self.

Definition getitem (self : loc) (key : Z * Z) : M Z :=
  o ← deref self; lift (matrix_getitem (matrix o) key).

Definition setitem (self : loc) (key : Z * Z) (value : Z) : M unit :=
  o ← deref self;
  m ← lift (matrix_setitem (matrix o) key value);
  assign self (with_matrix m).

Definition swap (self : loc) (coor1 coor2 : Z * Z) : M unit :=
  tmp ← getitem self coor1;
  v ← getitem self coor2;
  setitem self coor1 v;;
  setitem self coor2 tmp;;
  update_distance_to_end self.

Definition move (self : loc) (l r u d : bool) : M loc :=
  o ← deref self;
  zero_index ← lift (get_index (matrix o) 0);
  (if l then
     if bool_decide (zero_index.2 = 0)
     then raise (InvalidMoveDirection (CantMove MoveLeft))
     else swap self zero_index (zero_index.1, zero_index.2 - 1)
   else if r then
     if bool_decide (zero_index.2 = 2)
     then raise (InvalidMoveDirection (CantMove MoveRight))
     else swap self zero_index (zero_index.1, zero_index.2 + 1)
   else if u then
     if bool_decide (zero_index.1 = 0)
     then raise (InvalidMoveDirection (CantMove MoveUp))
     else swap self zero_index (zero_index.1 - 1, zero_index.2)
   else if d then
     if bool_decide (zero_index.1 = 2)
     then raise (InvalidMoveDirection (CantMove MoveDown))
     else swap self zero_index (zero_index.1 + 1, zero_index.2)
   else raise (RuntimeError NoDirectionGiven));;
  mret self.

(** [__copy__]. *)
Definition copy (self : loc) : M loc :=
  o ← deref self;
  newst ← EFPState_init (to_sequence (matrix o)) (end_state o) false;
  assign newst (with_distance_to_end (distance_to_end o));;
  mret newst.

(** [try: extended_states.append(body) except InvalidMoveDirection: pass] *)
Definition try_append (extended_states : list loc) (body : M loc)
    : M (list loc) := λ h,
  match body h with
  | (Ok st, h') => (Ok (extended_states ++ [st]), h')
  | (Raise (InvalidMoveDirection _), h') => (Ok extended_states, h')
  | (Raise e, h') => (Raise e, h')
  end.

Definition extend (self : loc) : M (list loc) :=
  let extended_states := [] in
  extended_states ←
    try_append extended_states (c ← copy self; move c true false false false);
  extended_states ←
    try_append extended_states (c ← copy self; move c false true false false);
  extended_states ←
    try_append extended_states (c ← copy self; move c false false true false);
  extended_states ←
    try_append extended_states (c ← copy self; move c false false false true);
  for_each extended_states (λ st, assign st (with_prev_state (Some self)));;
  mret extended_states.

(** ** The search *)

(** [process_list.sort(key=lambda x: x.distance_to_end)]. *)
Fixpoint keyed (process_list : list loc) : M (list (Z * loc)) :=
  match process_list with
  | [] => mret []
  | x :: xs => o ← deref x; ks ← keyed xs; mret ((distance_to_end o, x) :: ks)
  end.

Definition sort_process_list (process_list : list loc) : M (list loc) :=
  ks ← keyed process_list; mret ((sort_by_key ks).*2).

(** The three ways out of one turn of the [while] loop. *)
Inductive turn :=
  | Stale (visited : gmap Z bool) (process_list : list loc)
      (* [continue]: the state popped was visited before *)
  | Expanded (current_state : loc) (visited : gmap Z bool)
      (process_list : list loc)
      (* the successors of [current_state] joined the list *)
  | Found (current_state : loc).
      (* [return current_state] *)

(** A dictionary keyed by [EFPState] objects finds an entry through the
    hash of the key and [__eq__], which compares hashes again: it is a
    map from hashes. *)
Definition loop_body (end_ : loc) (visited : gmap Z bool)
    (process_list : list loc) : M turn :=
  process_list ← sort_process_list process_list;
  match process_list with
  | [] => raise (IndexError PopFromEmptyList)
  | current_state :: process_list =>
      cur ← deref current_state;
      if default false (visited !! EFPState_hash cur)
      then mret (Stale visited process_list)
      else
        let visited := <[EFPState_hash cur := true]> visited in
        e ← deref end_;
        if EFPState_eq cur e then mret (Found current_state)
        else
          successors ← extend current_state;
          mret (Expanded current_state visited (process_list ++ successors))
  end.

(** [while process_list is not None]: a list is never [None], so the guard
    holds at every turn and the loop is left only by [return] or by an
    exception.  [fuel] bounds the number of turns; [None] means that the
    bound was reached. *)
Fixpoint while_loop (fuel : nat) (end_ : loc) (visited : gmap Z bool)
    (process_list : list loc) (h : heap) : option (result loc * heap) :=
  match fuel with
  | O => None
  | S fuel' =>
      match loop_body end_ visited process_list h with
      | (Raise e, h') => Some (Raise e, h')
      | (Ok (Found current_state), h') => Some (Ok current_state, h')
      | (Ok (Stale visited' process_list'), h')
      | (Ok (Expanded _ visited' process_list'), h') =>
          while_loop fuel' end_ visited' process_list' h'
      end
  end.

(** The statements of [a_sharp_search] before the loop. *)
Definition prologue (start end_ : loc) : M unit :=
  s ← deref start;
  e ← deref end_;
  d ← lift (distance (matrix s) (matrix e));
  assign start (with_distance_to_end d);;
  assign start (with_end_state (Some end_));;
  s ← deref start;
  e ← deref end_;
  let inversion_diff :=
    count_inversions (to_sequence (matrix s))
    - count_inversions (to_sequence (matrix e)) in
  if bool_decide (inversion_diff `mod` 2 ≠ 0)
  then raise (RuntimeError DifferentParity)
  else mret ().

Definition a_sharp_search (fuel : nat) (start end_ : loc) (h : heap)
    : option (result loc * heap) :=
  match prologue start end_ h with
  | (Raise e, h') => Some (Raise e, h')
  | (Ok (), h') => while_loop fuel end_ ∅ [start] h'
  end.

(** The loop of [main] that follows [prev_state] from the result. *)
Fixpoint predecessors (fuel : nat) (h : heap) (res : option loc)
    : option (list loc) :=
  match res, fuel with
  | None, _ => Some []
  | Some r, O => None
  | Some r, S fuel' =>
      o ← h !! r; path ← predecessors fuel' h (prev_state o); Some (r :: path)
  end.

End methods.

(** ** Notions of the specification *)

(** A board: three rows of three cells that hold 0 to 8 once each. *)
Definition is_board (m : arrangement) : Prop :=
  length <$> m = [3; 3; 3]%nat ∧ concat m ≡ₚ seqZ 0 9.

(** The inversions of the specification: pairs of positions [i < j] whose
    values are both nonzero and out of order. *)
Definition inversion_pairs (arr : list Z) : list (nat * nat) :=
  i ← seq 0 (length arr); j ← seq (i + 1) (length arr - (i + 1));
  if bool_decide (arr !!! i ≠ 0 ∧ arr !!! j ≠ 0 ∧ arr !!! i > arr !!! j)
  then [(i, j)] else [].

Definition inversions_spec (arr : list Z) : Z :=
  Z.of_nat (length (inversion_pairs arr)).

(** Two positions of the reading order that are neighbours on the 3x3
    grid: side by side in a row, or one above the other. *)
Definition adjacent (p q : nat) : Prop :=
  (p < 9 ∧ q < 9)%nat ∧
  (((p `div` 3 = q `div` 3)%nat ∧ (p = q + 1 ∨ q = p + 1)%nat)
   ∨ (p = q + 3 ∨ q = p + 3)%nat).

(** [m'] is [m] after one slide: the blank and a neighbouring tile have
    changed places and nothing else has. *)
Definition one_slide (m m' : arrangement) : Prop :=
  length <$> m' = length <$> m ∧
  ∃ (p q : nat) (tile : Z),
    adjacent p q ∧
    concat m !! p = Some 0 ∧ concat m !! q = Some tile ∧ tile ≠ 0 ∧
    concat m' = <[p := tile]> (<[q := 0]> (concat m)).

(** The position of the blank in the reading order. *)
Definition blank_position (m : arrangement) : option nat :=
  fst <$> list_find (λ v, v = 0) (concat m).

(** The number of neighbours of a position: 2 in a corner, 3 on an edge,
    4 in the centre. *)
Definition neighbours (p : nat) : nat :=
  if bool_decide (p ∈ [0; 2; 6; 8]%nat) then 2
  else if bool_decide (p = 4%nat) then 4 else 3.

(** ** Slides as functions of the arrangement

    What [swap] and [move] do to the [matrix] of the object they are called
    on. *)

(** The three assignments of [swap]. *)
Definition swap_cells (m : arrangement) (coor1 coor2 : Z * Z) : result arrangement :=
  tmp ← matrix_getitem m coor1;
  v ← matrix_getitem m coor2;
  m ← matrix_setitem m coor1 v;
  matrix_setitem m coor2 tmp.

(** The keyword arguments with which [extend] asks for a direction. *)
Definition flags (d : direction) : bool * bool * bool * bool :=
  match d with
  | MoveLeft => (true, false, false, false)
  | MoveRight => (false, true, false, false)
  | MoveUp => (false, false, true, false)
  | MoveDown => (false, false, false, true)
  end.

(** The test that makes [move] raise, and the cell the blank goes to. *)
Definition blocked (zero_index : Z * Z) (d : direction) : bool :=
  match d with
  | MoveLeft => bool_decide (zero_index.2 = 0)
  | MoveRight => bool_decide (zero_index.2 = 2)
  | MoveUp => bool_decide (zero_index.1 = 0)
  | MoveDown => bool_decide (zero_index.1 = 2)
  end.

Definition target (zero_index : Z * Z) (d : direction) : Z * Z :=
  match d with
  | MoveLeft => (zero_index.1, zero_index.2 - 1)
  | MoveRight => (zero_index.1, zero_index.2 + 1)
  | MoveUp => (zero_index.1 - 1, zero_index.2)
  | MoveDown => (zero_index.1 + 1, zero_index.2)
  end.

Definition slide (m : arrangement) (d : direction) : result arrangement :=
  zero_index ← get_index m 0;
  if blocked zero_index d then Raise (InvalidMoveDirection (CantMove d))
  else swap_cells m zero_index (target zero_index d).

(** The arrangements of the states that [extend] returns, in its order. *)
Definition successors_of (m : arrangement) : list arrangement :=
  omap (λ d, match slide m d with Ok m' => Some m' | Raise _ => None end)
       [MoveLeft; MoveRight; MoveUp; MoveDown].

(** The cell at a position of the reading order, and the position of a
    value in a sequence of cells. *)
Definition cell (k : nat) : Z * Z := (Z.of_nat (k `div` 3), Z.of_nat (k `mod` 3)).
Arguments cell : simpl never.

Definition position (v : Z) (s : list Z) : nat :=
  match list_find (λ x, x = v) s with
  | Some (k, _) => k
  | None => 0
  end.

(** The Manhattan distance between two positions. *)
Definition manhattan (k k' : nat) : Z :=
  Z.abs ((cell k').2 - (cell k).2) + Z.abs ((cell k').1 - (cell k).1).

Definition sumZ (l : list Z) : Z := foldr Z.add 0 l.

(** The heuristic of the specification: the sum, over the tiles 1 to 8, of
    the Manhattan distance between the places of the tile in the two
    boards. *)
Definition distance_spec (a b : arrangement) : Z :=
  sumZ ((λ v, manhattan (position v (concat a)) (position v (concat b)))
          <$> seqZ 1 8).

(** The position the blank goes to. *)
Definition destination (p : nat) (d : direction) : nat :=
  match d with
  | MoveLeft => p - 1
  | MoveRight => p + 1
  | MoveUp => p - 3
  | MoveDown => p + 3
  end.

(** Whether the edge of the board stops the slide. *)
Definition at_edge (p : nat) (d : direction) : bool :=
  match d with
  | MoveLeft => bool_decide (p `mod` 3 = 0)%nat
  | MoveRight => bool_decide (p `mod` 3 = 2)%nat
  | MoveUp => bool_decide (p `div` 3 = 0)%nat
  | MoveDown => bool_decide (p `div` 3 = 2)%nat
  end.

(** ** What [extend] adds to the heap

    The objects that [extend] creates, described from the object [o] it is
    called on.  [plain o] is the copy that [__copy__] makes; a copy whose
    [move] raised stays in the heap as it is, referenced by nothing. *)
Definition plain (o : EFPState) : EFPState :=
  mkEFPState (matrix o) (distance_to_end o) (end_state o) None.

(** The arrangement after a slide that is not blocked. *)
Definition slid (m : arrangement) (d : direction) : arrangement :=
  match slide m d with
  | Ok m' => m'
  | Raise _ => m
  end.

(** The value that [update_distance_to_end] stores for arrangement [m] in
    an object whose [end_state] is that of [o]. *)
Definition estimate_of (h : heap) (o : EFPState) (m : arrangement) : Z :=
  match end_state o with
  | Some e =>
      match h !! e with
      | Some oe => distance_spec m (matrix oe)
      | None => 0
      end
  | None => -1
  end.

Definition child (h : heap) (o : EFPState) (d : direction) : EFPState :=
  mkEFPState (slid (matrix o) d) (estimate_of h o (slid (matrix o) d))
             (end_state o) None.

Definition new_objects (h : heap) (self : loc) (o : EFPState) (p : nat)
    : list EFPState :=
  (λ d, if at_edge p d then plain o
        else with_prev_state (Some self) (child h o d))
    <$> [MoveLeft; MoveRight; MoveUp; MoveDown].

Definition new_locs (h : heap) (p : nat) : list loc :=
  omap (λ kd : nat * direction,
          if at_edge p kd.2 then None else Some (length h + kd.1)%nat)
       [(0, MoveLeft); (1, MoveRight); (2, MoveUp); (3, MoveDown)]%nat.

(** The [end_state] of [o], if any, is a board of the heap. *)
Definition end_ok (h : heap) (o : EFPState) : Prop :=
  match end_state o with
  | Some e => ∃ oe, h !! e = Some oe ∧ is_board (matrix oe)
  | None => True
  end.

(** ** The search on values

    The loop of [a_sharp_search] again, on nodes that are values instead of
    objects of the heap: a node holds the arrangement of a state, its
    [distance_to_end], and the arrangements met when [prev_state] is
    followed from it.  The search on the heap is shown below to do what
    this one does; the properties of the search are proved on this one. *)
Record node := mkNode {
  board : arrangement;
  estimate : Z;
  trail : list arrangement;
}.

Section reference.
Context {hash_impl : TupleHash}.

Definition board_hash (m : arrangement) : Z := tuple_hash (to_sequence m).

Definition ref_successors (goal : arrangement) (n : node) : list node :=
  (λ m', mkNode m' (distance_spec m' goal) (board n :: trail n))
    <$> successors_of (board n).

Inductive ref_turn :=
  | RefStale (visited : gmap Z bool) (frontier : list node)
  | RefExpanded (n : node) (visited : gmap Z bool) (frontier : list node)
  | RefFound (n : node)
  | RefExhausted.

Definition ref_sort (frontier : list node) : list node :=
  (sort_by_key ((λ n, (estimate n, n)) <$> frontier)).*2.

Definition ref_body (goal : arrangement) (visited : gmap Z bool)
    (frontier : list node) : ref_turn :=
  match ref_sort frontier with
  | [] => RefExhausted
  | n :: frontier =>
      if default false (visited !! board_hash (board n))
      then RefStale visited frontier
      else
        let visited := <[board_hash (board n) := true]> visited in
        if bool_decide (board_hash goal = board_hash (board n))
        then RefFound n
        else RefExpanded n visited (frontier ++ ref_successors goal n)
  end.

(** [None]: the bound on the turns was reached.  [Some None]: the
    frontier was empty.  [Some (Some n)]: [n] was returned. *)
Fixpoint ref_loop (fuel : nat) (goal : arrangement) (visited : gmap Z bool)
    (frontier : list node) : option (option node) :=
  match fuel with
  | O => None
  | S fuel' =>
      match ref_body goal visited frontier with
      | RefExhausted => Some None
      | RefFound n => Some (Some n)
      | RefStale visited' frontier'
      | RefExpanded _ visited' frontier' =>
          ref_loop fuel' goal visited' frontier'
      end
  end.

Definition ref_search (fuel : nat) (start goal : arrangement)
    : option (option node) :=
  ref_loop fuel goal ∅ [mkNode start (distance_spec start goal) []].
End reference.

(** How an object of the heap stands for a node.  [chain h start l path]:
    following [prev_state] from [l] leads to [start], through states whose
    arrangements are [path]. *)
Inductive chain (h : heap) (start : loc) : loc → list arrangement → Prop :=
  | chain_start o :
      h !! start = Some o → chain h start start [matrix o]
  | chain_step l o p path :
      h !! l = Some o → prev_state o = Some p → chain h start p path →
      chain h start l (matrix o :: path).

Definition repr (h : heap) (start end_ : loc) (l : loc) (n : node) : Prop :=
  ∃ o, h !! l = Some o
       ∧ matrix o = board n
       ∧ distance_to_end o = estimate n
       ∧ end_state o = Some end_
       ∧ chain h start l (board n :: trail n).

(** The frontier of the search on the heap stands for a frontier of
    boards, and the goal is a board. *)
Definition frontier_repr (h : heap) (start end_ : loc) (goal : arrangement)
    (process_list : list loc) (frontier : list node) : Prop :=
  (∃ oe, h !! end_ = Some oe ∧ matrix oe = goal)
  ∧ is_board goal
  ∧ Forall2 (repr h start end_) process_list frontier
  ∧ Forall (λ n, is_board (board n)) frontier.

(** The parity test of [a_sharp_search]. *)
Definition parity_differs (start goal : arrangement) : bool :=
  bool_decide
    ((count_inversions (to_sequence start) - count_inversions (to_sequence goal))
       `mod` 2 ≠ 0).

(** The object that [start] is after the first two statements of
    [a_sharp_search]. *)
Definition started (s : EFPState) (end_ : loc) (goal : arrangement) : EFPState :=
  mkEFPState (matrix s) (distance_spec (matrix s) goal) (Some end_) (prev_state s).

(** A path of boards from a node back to [start]: the first board is the
    node's, each next one is the board one slide earlier, the last one is
    [start]. *)
Inductive trail_ok (start : arrangement) : list arrangement → Prop :=
  | trail_start : trail_ok start [start]
  | trail_step m m' path :
      one_slide m' m → trail_ok start (m' :: path) →
      trail_ok start (m :: m' :: path).

(** All boards, and the hashes they can have. *)
Definition all_boards : list arrangement :=
  matrix_of_sequence <$> permutations (seqZ 0 9).

Definition board_hashes `{TupleHash} : gset Z :=
  list_to_set (board_hash <$> all_boards).

(** What holds of the visited set and the frontier throughout a search
    from [start]. *)
Definition ref_inv `{TupleHash} (start : arrangement) (visited : gmap Z bool)
    (frontier : list node) : Prop :=
  map_Forall (λ _ b, b = true) visited
  ∧ dom visited ⊆ board_hashes
  ∧ Forall (λ n, is_board (board n) ∧ trail_ok start (board n :: trail n))
           frontier.

(** The arrangements of the states whose successors the loop generates, in
    the order in which it does: the state is read when it is popped. *)
Fixpoint expansions `{TupleHash} (fuel : nat) (end_ : loc) (visited : gmap Z bool)
    (process_list : list loc) (h : heap) : list arrangement :=
  match fuel with
  | O => []
  | S fuel' =>
      match loop_body end_ visited process_list h with
      | (Ok (Expanded current_state visited' process_list'), h') =>
          match h !! current_state with
          | Some o => [matrix o]
          | None => []
          end ++ expansions fuel' end_ visited' process_list' h'
      | (Ok (Stale visited' process_list'), h') =>
          expansions fuel' end_ visited' process_list' h'
      | _ => []
      end
  end.

Definition a_sharp_expansions `{TupleHash} (fuel : nat) (start end_ : loc)
    (h : heap) : list arrangement :=
  match prologue start end_ h with
  | (Ok (), h') => expansions fuel end_ ∅ [start] h'
  | (Raise _, _) => []
  end.

(** The arrangements of the states met when [prev_state] is followed from
    [res], as [main] prints them. *)
Definition path_boards (fuel : nat) (h : heap) (res : loc)
    : option (list arrangement) :=
  path ← predecessors fuel h (Some res);
  mapM (λ l, matrix <$> h !! l) path.

(** The object that [EFPState(sequence)] creates. *)
Definition new_state (sequence : list Z) : EFPState :=
  mkEFPState (matrix_of_sequence sequence) (-1) None None.

(** ** Boards used as examples

    The goal and the start of [main], and three starts near the goal. *)
Definition main_end : list Z := [1; 2; 3; 4; 5; 0; 7; 8; 6].
Definition main_start : list Z := [8; 3; 5; 4; 1; 0; 2; 6; 7].
(** One slide from [main_end]: the blank moves right. *)
Definition one_slide_away : list Z := [1; 2; 3; 4; 0; 5; 7; 8; 6].
(** Two slides from [main_end]: the blank moves right, then up. *)
Definition two_slides_away : list Z := [1; 2; 3; 4; 5; 6; 7; 0; 8].
(** [one_slide_away] with the tiles 1 and 2 exchanged: no sequence of slides
    leads from it to [main_end]. *)
Definition tiles_exchanged : list Z := [2; 1; 3; 4; 0; 5; 7; 8; 6].

(** The heap after [end_st = EFPState(goal)] and [start_st = EFPState(start)]:
    the goal is object 0 and the start is object 1. *)
Definition two_states (goal start : list Z) : heap :=
  [new_state goal; new_state start].

(** ** The tuple hash of CPython on words of four limbs

    The arithmetic modulo 2^64 of the hash, on machine integers: a word is
    four limbs of 16 bits, so that no product or sum below leaves the range
    of the 63-bit integers.  It serves to compare the hashes of all
    boards. *)
Module Limbs.
Import Uint63.


(** A 64-bit word as four limbs of 16 bits, the least significant first. *)
Record word := W { w0 : int; w1 : int; w2 : int; w3 : int }.

Definition val (x : word) : Z :=
  to_Z (w0 x) + to_Z (w1 x) * 2 ^ 16 + to_Z (w2 x) * 2 ^ 32 + to_Z (w3 x) * 2 ^ 48.

Definition wf (x : word) : Prop :=
  to_Z (w0 x) < 2 ^ 16 ∧ to_Z (w1 x) < 2 ^ 16 ∧ to_Z (w2 x) < 2 ^ 16 ∧ to_Z (w3 x) < 2 ^ 16.

(** Carries are passed upwards and the one out of the last limb is
    dropped. *)
Definition norm (r0 r1 r2 r3 : int) : word :=
  let t1 := (r1 + r0 / 65536)%uint63 in
  let t2 := (r2 + t1 / 65536)%uint63 in
  let t3 := (r3 + t2 / 65536)%uint63 in
  W (r0 mod 65536)%uint63 (t1 mod 65536)%uint63
    (t2 mod 65536)%uint63 (t3 mod 65536)%uint63.

Definition mul (x p : word) : word :=
  norm (w0 x * w0 p)%uint63
       (w0 x * w1 p + w1 x * w0 p)%uint63
       (w0 x * w2 p + w1 x * w1 p + w2 x * w0 p)%uint63
       (w0 x * w3 p + w1 x * w2 p + w2 x * w1 p + w3 x * w0 p)%uint63.

Definition add_scaled (a : word) (k : int) (p : word) : word :=
  norm (w0 a + k * w0 p)%uint63 (w1 a + k * w1 p)%uint63
       (w2 a + k * w2 p)%uint63 (w3 a + k * w3 p)%uint63.

(** A rotation to the left by 31 bits: by 32 bits, which moves the limbs by
    two places, then by one bit to the right. *)
Definition rotl31 (x : word) : word :=
  let y0 := w2 x in
  let y1 := w3 x in
  let y2 := w0 x in
  let y3 := w1 x in
  W (y0 / 2 + (y1 mod 2) * 32768)%uint63 (y1 / 2 + (y2 mod 2) * 32768)%uint63
    (y2 / 2 + (y3 mod 2) * 32768)%uint63 (y3 / 2 + (y0 mod 2) * 32768)%uint63.

(** The constants of the hash, and the hash itself. *)
Definition prime_1 : word := W 51847 34283 31153 40503.
Definition prime_2 : word := W 60239 10196 44605 49842.
Definition prime_5 : word := W 26565 5718 60207 10196.
(** [9 ^ (XXPRIME_5 ^ 3527539)], added at the end for a tuple of length 9. *)
Definition final_9 : word := W 46271 5731 60207 10196.

Definition lane_step (acc : word) (x : Z) : word :=
  mul (rotl31 (add_scaled acc (of_Z x) prime_2)) prime_1.

(** The low 63 bits of the hash of a tuple of length 9 whose lanes led to
    [acc]. *)
Definition key (acc : word) : int :=
  let u := add_scaled acc 1 final_9 in
  if ((w0 u =? 65535) && (w1 u =? 65535) && (w2 u =? 65535) && (w3 u =? 65535))%uint63
  then 1546275796%uint63
  else (w0 u + w1 u * 65536 + w2 u * 4294967296
        + (w3 u mod 32768) * 281474976710656)%uint63.

(** The hash of a tuple of length 9, from the value of the accumulator after
    its lanes. *)
Definition finish_9 (acc : Z) : Z :=
  let acc :=
    CPython.uhash (acc + Z.lxor 9 (Z.lxor CPython.XXPRIME_5 3527539)) in
  if bool_decide (acc = 2 ^ 64 - 1) then 1546275796
  else if bool_decide (acc < 2 ^ 63) then acc else acc - 2 ^ 64.

(** *** All orderings of a list *)

(** The ways to take one element out of a list. *)
Fixpoint selections {A : Type} (l : list A) : list (A * list A) :=
  match l with
  | [] => []
  | x :: l' => (x, l') :: ((λ p, (p.1, x :: p.2)) <$> selections l')
  end.

Fixpoint orderings {A : Type} (n : nat) (l : list A) : list (list A) :=
  match n with
  | O => [[]]
  | S n' => p ← selections l; (p.1 ::.) <$> orderings n' p.2
  end.

(** *** The keys of all orderings, and a sort to compare them *)

Fixpoint keys (n : nat) (acc : word) (rem : list Z) (seen : list int)
    : list int :=
  match n with
  | O => key acc :: seen
  | S n' =>
      foldl (λ seen p, keys n' (lane_step acc p.1) p.2 seen) seen
            (selections rem)
  end.

Fixpoint merge_acc (l1 : list int) : list int → list int → list int :=
  fix aux (l2 acc : list int) {struct l2} :=
    match l1, l2 with
    | [], _ => rev_append acc l2
    | _, [] => rev_append acc l1
    | a :: l1', b :: l2' =>
        if (a <=? b)%uint63 then merge_acc l1' l2 (a :: acc)
        else aux l2' (b :: acc)
    end.

Fixpoint merge_pairs (ls acc : list (list int)) : list (list int) :=
  match ls with
  | a :: b :: ls' => merge_pairs ls' (merge_acc a b [] :: acc)
  | [a] => a :: acc
  | [] => acc
  end.

Fixpoint merge_all (rounds : nat) (ls : list (list int)) : list int :=
  match rounds with
  | O => concat ls
  | S rounds' =>
      match ls with
      | [] => []
      | [a] => a
      | _ => merge_all rounds' (merge_pairs ls [])
      end
  end.

Definition msort (l : list int) : list int :=
  merge_all 64 (foldl (λ acc x, [x] :: acc) [] l).

Fixpoint increasing (l : list int) : bool :=
  match l with
  | x :: (y :: _) as l' => if (x <? y)%uint63 then increasing l' else false
  | _ => true
  end.
End Limbs.

(** ** Subscripts of the matrix

    The cell that a key denotes in a matrix whose rows have the lengths
    [sh], with the negative subscripts of Python, and the content of a
    cell. *)
Definition shape (m : arrangement) : list nat := length <$> m.

Definition resolve (sh : list nat) (key : Z * Z) : option (nat * nat) :=
  r ← py_index (length sh) key.1;
  n ← sh !! r;
  c ← py_index n key.2;
  Some (r, c).

Definition at2 (m : arrangement) (rc : nat * nat) : option Z :=
  row ← m !! rc.1; row !! rc.2.

(** The direction that undoes a slide. *)
Definition opposite (d : direction) : direction :=
  match d with
  | MoveLeft => MoveRight
  | MoveRight => MoveLeft
  | MoveUp => MoveDown
  | MoveDown => MoveUp
  end.

(** ** Inversions, element by element *)

(** The number of elements of [l] that [x] exceeds. *)
Definition gt_count (x : Z) (l : list Z) : Z :=
  sumZ ((λ y, if bool_decide (x > y) then 1 else 0) <$> l).

(** The pairs out of order in [l]: those of the first element with the later
    ones, and those among the later ones. *)
Fixpoint inversions_of (l : list Z) : Z :=
  match l with
  | [] => 0
  | x :: l' => gt_count x l' + inversions_of l'
  end.

(** A sequence of slides, carried out from left to right. *)
Definition slides (m : arrangement) (ds : list direction) : result arrangement :=
  foldl (λ r d, m ← r; slide m d) (Ok m) ds.

(** ** Printing *)

(** [str(n)] for an integer: its decimal digits, after a minus sign when it
    is negative. *)
Definition str (n : Z) : string := pretty n.

(** The string made of a line feed. *)
Definition newline : string := String (Ascii.ascii_of_nat 10) "".

(** [s[:-1]]: the string without its last character; the empty string
    stays empty. *)
Fixpoint but_last (s : string) : string :=
  match s with
  | "" => ""
  | String c "" => ""
  | String c s' => String c (but_last s')
  end.

(** [EFPState.visualize]. *)
Definition visualize (m : arrangement) : string :=
  let repr_str :=
    foldl (λ repr_str row,
             foldl (λ repr_str n,
                      let repr_str :=
                        if bool_decide (n = 0) then repr_str +:+ " "
                        else repr_str +:+ str n in
                      repr_str +:+ " ")
                   repr_str row
             +:+ newline)
          "" m in
  but_last repr_str.

(** The loop of [main] that prints the state returned and those before it:
    the lines printed, or [None] when [fuel] turns do not reach the state
    without predecessor. *)
Fixpoint report (fuel : nat) (h : heap) (res : option loc) : option (list string) :=
  match res, fuel with
  | None, _ => Some []
  | Some r, O => None
  | Some r, S fuel' =>
      o ← h !! r;
      out ← report fuel' h (prev_state o);
      Some (visualize (matrix o) :: "-----" :: out)
  end.

(** What a cell and a row look like in the picture. *)
Definition show_cell (n : Z) : string :=
  if bool_decide (n = 0) then " " else str n.

Definition show_row (row : list Z) : string :=
  String.concat "" ((λ n, show_cell n +:+ " ") <$> row).

(** The heap of [main] before the search: the goal is object 0, the start
    is object 1 and already knows its goal and its distance to it. *)
Definition main_states : heap :=
  [ new_state main_end;
    mkEFPState (matrix_of_sequence main_start) 14 (Some 0%nat) None ].

(** The goal of [main] with tile 9 in the place of tile 6. *)
Definition tile_replaced : list Z := [1; 2; 3; 4; 5; 0; 7; 8; 9].
(** The cell -1 replaced by -2, the others kept. *)
Definition minus_one_as_minus_two (x : Z) : Z :=
  if bool_decide (x = -1) then -2 else x.

(** A sequence with -1, and the same with -2 instead. *)
Definition with_minus_one : list Z := [-1; 1; 2; 3; 4; 5; 6; 7; 0].
Definition with_minus_two : list Z := [-2; 1; 2; 3; 4; 5; 6; 7; 0].

(** ** Paths of slides that the search can still follow *)

(** A path of slides from [m] to [goal] through boards whose hash is not
    marked in [visited]. *)
Inductive open_path `{TupleHash} (visited : gmap Z bool) (goal : arrangement)
    : arrangement → Prop :=
  | open_here :
      visited !! board_hash goal = None → open_path visited goal goal
  | open_step m d m' :
      visited !! board_hash m = None → slide m d = Ok m' →
      open_path visited goal m' → open_path visited goal m.

(** Some node of the frontier starts such a path. *)
Definition reach_inv `{TupleHash} (goal : arrangement) (visited : gmap Z bool)
    (frontier : list node) : Prop :=
  ∃ n, n ∈ frontier ∧ open_path visited goal (board n).

(** The boards behind a node of the frontier were all expanded, each one
    once. *)
Definition trail_inv `{TupleHash} (visited : gmap Z bool) (frontier : list node)
    : Prop :=
  Forall (λ n, NoDup (board_hash <$> trail n)
               ∧ ∀ m, m ∈ trail n → is_Some (visited !! board_hash m))
         frontier.

(** ** The order among states of equal distance

    [list.sort] keeps the states of equal [distance_to_end] in the order of
    the list, and the code has no other way to order them.  To compare with
    a search that orders them otherwise, the search on boards is written
    once more with the sort as a parameter: with [ref_sort] it is
    [ref_search]; [sort_ties_reversed] puts a state behind the states of
    equal distance that follow it in the list. *)
Fixpoint insert_by_key_last {A : Type} (x : Z * A) (l : list (Z * A)) : list (Z * A) :=
  match l with
  | [] => [x]
  | y :: l' =>
      if bool_decide (x.1 < y.1) then x :: l else y :: insert_by_key_last x l'
  end.

Definition sort_ties_reversed (frontier : list node) : list node :=
  (foldr insert_by_key_last [] ((λ n, (estimate n, n)) <$> frontier)).*2.

Section ties.
Context {hash_impl : TupleHash} (sort : list node → list node).

Definition ties_body (goal : arrangement) (visited : gmap Z bool)
    (frontier : list node) : ref_turn :=
  match sort frontier with
  | [] => RefExhausted
  | n :: frontier =>
      if default false (visited !! board_hash (board n))
      then RefStale visited frontier
      else
        let visited := <[board_hash (board n) := true]> visited in
        if bool_decide (board_hash goal = board_hash (board n))
        then RefFound n
        else RefExpanded n visited (frontier ++ ref_successors goal n)
  end.

Fixpoint ties_loop (fuel : nat) (goal : arrangement) (visited : gmap Z bool)
    (frontier : list node) : option (option node) :=
  match fuel with
  | O => None
  | S fuel' =>
      match ties_body goal visited frontier with
      | RefExhausted => Some None
      | RefFound n => Some (Some n)
      | RefStale visited' frontier'
      | RefExpanded _ visited' frontier' =>
          ties_loop fuel' goal visited' frontier'
      end
  end.

Definition ties_search (fuel : nat) (start goal : arrangement)
    : option (option node) :=
  ties_loop fuel goal ∅ [mkNode start (distance_spec start goal) []].
End ties.

(** A start eight slides from [main_end]. *)
Definition ties_start : list Z := [1; 5; 2; 0; 7; 3; 8; 4; 6].


(** * Properties *)

(** ** Counting loops *)

Section counting.
Context {A B : Type} (p : A → B → bool).

(** The pairs that a nested loop selects. *)
Definition selected (xs : list A) (ys : A → list B) : list (A * B) :=
  a ← xs; b ← ys a; if p a b then [(a, b)] else [].

Lemma count_inner (a : A) (ys : list B) (acc : Z) :
  foldl (λ n b, if p a b then n + 1 else n) acc ys
  = acc + Z.of_nat (length (b ← ys; if p a b then [(a, b)] else [])).
Proof.
  revert acc. induction ys as [|b ys IH]; intros acc; [simpl; lia|].
  rewrite bind_cons, length_app. simpl foldl. rewrite IH.
  destruct (p a b); simpl length; lia.
Qed.

Lemma count_nested (xs : list A) (ys : A → list B) (acc : Z) :
  foldl (λ n a, foldl (λ n b, if p a b then n + 1 else n) n (ys a)) acc xs
  = acc + Z.of_nat (length (selected xs ys)).
Proof.
  unfold selected. revert acc.
  induction xs as [|a xs IH]; intros acc; [simpl; lia|].
  rewrite bind_cons, length_app. simpl foldl. rewrite IH, count_inner. lia.
Qed.
End counting.

(** The pairs that [count_inversions] counts, and those among them that
    involve the blank. *)
Definition counted_pairs (arr : list Z) : list (nat * nat) :=
  selected (λ i j, bool_decide (arr !!! i > arr !!! j))
    (seq 0 (length arr)) (λ i, seq (i + 1) (length arr - (i + 1))).

Definition blank_pairs (arr : list Z) : list (nat * nat) :=
  filter (λ ij, arr !!! ij.1 = 0 ∨ arr !!! ij.2 = 0) (counted_pairs arr).

Lemma count_inversions_pairs (arr : list Z) :
  count_inversions arr = Z.of_nat (length (counted_pairs arr)).
Proof.
  unfold count_inversions, counted_pairs.
  rewrite (count_nested (λ i j : nat, bool_decide (arr !!! i > arr !!! j))). lia.
Qed.

Lemma inversion_pairs_filter (arr : list Z) :
  inversion_pairs arr
  = filter (λ ij, ¬ (arr !!! ij.1 = 0 ∨ arr !!! ij.2 = 0)) (counted_pairs arr).
Proof.
  unfold inversion_pairs, counted_pairs, selected.
  induction (seq 0 (length arr)) as [|i rest IH]; [done|].
  rewrite !bind_cons, filter_app, <- IH. f_equal.
  induction (seq (i + 1) (length arr - (i + 1))) as [|j js IHj]; [done|].
  rewrite !bind_cons, filter_app, <- IHj. f_equal.
  repeat case_bool_decide.
  - rewrite filter_cons_True by (simpl; tauto). done.
  - exfalso; tauto.
  - rewrite filter_cons_False by (simpl; tauto). done.
  - done.
Qed.

(** What [count_inversions] computes: the inversions of the specification
    and, on top of them, every pair in which one value is the blank. *)
Lemma count_inversions_blank (arr : list Z) :
  count_inversions arr
  = inversions_spec arr + Z.of_nat (length (blank_pairs arr)).
Proof.
  rewrite count_inversions_pairs. unfold inversions_spec, blank_pairs.
  rewrite inversion_pairs_filter.
  generalize (counted_pairs arr). intros l.
  induction l as [|ij l IH]; [done|].
  destruct (decide (arr !!! ij.1 = 0 ∨ arr !!! ij.2 = 0)).
  - rewrite (filter_cons_True (λ ij, arr !!! ij.1 = 0 ∨ _)) by done.
    rewrite filter_cons_False by tauto. simpl length in *. lia.
  - rewrite (filter_cons_False (λ ij, arr !!! ij.1 = 0 ∨ _)) by done.
    rewrite filter_cons_True by tauto. simpl length in *. lia.
Qed.

(** ** Boards cell by cell *)

Definition grid (a b c d e f g h i : Z) : arrangement :=
  [[a; b; c]; [d; e; f]; [g; h; i]].

Lemma cells3_eq :
  cells3 = [(0,0); (0,1); (0,2); (1,0); (1,1); (1,2); (2,0); (2,1); (2,2)].
Proof. reflexivity. Qed.

Lemma shape_grid (m : arrangement) :
  length <$> m = [3; 3; 3]%nat →
  ∃ a b c d e f g h i, m = grid a b c d e f g h i.
Proof.
  intros Hs.
  destruct m as [|[|a [|b [|c [|]]]] [|[|d [|e [|f [|]]]] [|[|g [|h [|i [|]]]] [|]]]];
    try discriminate.
  by exists a, b, c, d, e, f, g, h, i.
Qed.

Lemma is_board_grid (m : arrangement) :
  is_board m →
  ∃ a b c d e f g h i,
    m = grid a b c d e f g h i ∧ [a; b; c; d; e; f; g; h; i] ≡ₚ seqZ 0 9.
Proof.
  intros [Hs Hp]. destruct (shape_grid m Hs) as (a&b&c&d&e&f&g&h&i&->).
  by exists a, b, c, d, e, f, g, h, i.
Qed.

Lemma grid_is_board a b c d e f g h i :
  [a; b; c; d; e; f; g; h; i] ≡ₚ seqZ 0 9 → is_board (grid a b c d e f g h i).
Proof. by split. Qed.

Lemma matrix_of_to_sequence (m : arrangement) :
  length <$> m = [3; 3; 3]%nat → matrix_of_sequence (to_sequence m) = m.
Proof. intros Hs. by destruct (shape_grid m Hs) as (a&b&c&d&e&f&g&h&i&->). Qed.

Lemma get_index_grid a b c d e f g h i v :
  get_index (grid a b c d e f g h i) v =
  if bool_decide (a = v) then Ok (0, 0) else
  if bool_decide (b = v) then Ok (0, 1) else
  if bool_decide (c = v) then Ok (0, 2) else
  if bool_decide (d = v) then Ok (1, 0) else
  if bool_decide (e = v) then Ok (1, 1) else
  if bool_decide (f = v) then Ok (1, 2) else
  if bool_decide (g = v) then Ok (2, 0) else
  if bool_decide (h = v) then Ok (2, 1) else
  if bool_decide (i = v) then Ok (2, 2) else
  Raise (RuntimeError (CouldNotFindIndex v)).
Proof. reflexivity. Qed.

(** The nine places of the blank.  In each, the earlier cells are not
    blank, which is all [get_index] looks at. *)
Inductive blank_at : nat → arrangement → Prop :=
  | blank_0 b c d e f g h i : blank_at 0 (grid 0 b c d e f g h i)
  | blank_1 a c d e f g h i : a ≠ 0 → blank_at 1 (grid a 0 c d e f g h i)
  | blank_2 a b d e f g h i : a ≠ 0 → b ≠ 0 → blank_at 2 (grid a b 0 d e f g h i)
  | blank_3 a b c e f g h i :
      a ≠ 0 → b ≠ 0 → c ≠ 0 → blank_at 3 (grid a b c 0 e f g h i)
  | blank_4 a b c d f g h i :
      a ≠ 0 → b ≠ 0 → c ≠ 0 → d ≠ 0 → blank_at 4 (grid a b c d 0 f g h i)
  | blank_5 a b c d e g h i :
      a ≠ 0 → b ≠ 0 → c ≠ 0 → d ≠ 0 → e ≠ 0 → blank_at 5 (grid a b c d e 0 g h i)
  | blank_6 a b c d e f h i :
      a ≠ 0 → b ≠ 0 → c ≠ 0 → d ≠ 0 → e ≠ 0 → f ≠ 0 →
      blank_at 6 (grid a b c d e f 0 h i)
  | blank_7 a b c d e f g i :
      a ≠ 0 → b ≠ 0 → c ≠ 0 → d ≠ 0 → e ≠ 0 → f ≠ 0 → g ≠ 0 →
      blank_at 7 (grid a b c d e f g 0 i)
  | blank_8 a b c d e f g h :
      a ≠ 0 → b ≠ 0 → c ≠ 0 → d ≠ 0 → e ≠ 0 → f ≠ 0 → g ≠ 0 → h ≠ 0 →
      blank_at 8 (grid a b c d e f g h 0).

Lemma board_blank_at (m : arrangement) :
  is_board m → ∃ p, blank_at p m.
Proof.
  intros (a&b&c&d&e&f&g&h&i&->&Hp)%is_board_grid.
  assert (0 ∈ [a; b; c; d; e; f; g; h; i]) as Hin.
  { rewrite Hp. compute_done. }
  destruct (decide (a = 0)) as [->|]; [eexists; by constructor|].
  destruct (decide (b = 0)) as [->|]; [eexists; by constructor|].
  destruct (decide (c = 0)) as [->|]; [eexists; by constructor|].
  destruct (decide (d = 0)) as [->|]; [eexists; by constructor|].
  destruct (decide (e = 0)) as [->|]; [eexists; by constructor|].
  destruct (decide (f = 0)) as [->|]; [eexists; by constructor|].
  destruct (decide (g = 0)) as [->|]; [eexists; by constructor|].
  destruct (decide (h = 0)) as [->|]; [eexists; by constructor|].
  destruct (decide (i = 0)) as [->|]; [eexists; by constructor|].
  repeat (apply elem_of_cons in Hin as [?|Hin]; [congruence|]).
  by apply elem_of_nil in Hin.
Qed.

Ltac decide_cells :=
  repeat match goal with
  | H : ?x ≠ ?v |- context [bool_decide (?x = ?v)] =>
      rewrite (bool_decide_eq_false_2 (x = v) H)
  end.

Lemma blank_at_get_index (p : nat) (m : arrangement) :
  blank_at p m → get_index m 0 = Ok (cell p).
Proof. destruct 1; rewrite get_index_grid; decide_cells; reflexivity. Qed.

Lemma blank_at_position (p : nat) (m : arrangement) :
  blank_at p m → blank_position m = Some p.
Proof.
  unfold blank_position.
  destruct 1; simpl; repeat (rewrite decide_False by done; simpl);
    rewrite ?decide_True by done; reflexivity.
Qed.

(** ** One slide of a board *)

Lemma adjacent_ne (p q : nat) : adjacent p q → p ≠ q.
Proof. unfold adjacent. lia. Qed.

Lemma one_slide_intro (m m' : arrangement) (p q : nat) (tile : Z) :
  is_board m →
  length <$> m' = length <$> m →
  adjacent p q →
  concat m !! p = Some 0 →
  concat m !! q = Some tile →
  concat m' = <[p := tile]> (<[q := 0]> (concat m)) →
  is_board m' ∧ one_slide m m'.
Proof.
  intros [Hs Hp] Hs' Hadj H0 Ht Hm'. split.
  - split; [congruence|]. rewrite Hm', <- Hp.
    by apply Permutation_insert_swap.
  - split; [done|]. exists p, q, tile.
    split; [done|]. split; [done|]. split; [done|]. split; [|done].
    intros ->. apply (adjacent_ne p q Hadj).
    eapply NoDup_lookup; [|done..]. rewrite Hp. apply NoDup_seqZ.
Qed.

Lemma slide_board (m : arrangement) (p : nat) (d : direction) :
  is_board m → blank_at p m →
  if at_edge p d then slide m d = Raise (InvalidMoveDirection (CantMove d))
  else ∃ m', slide m d = Ok m' ∧ is_board m' ∧ one_slide m m'.
Proof.
  intros Hb Hp. unfold slide. rewrite (blank_at_get_index p m Hp).
  assert (∃ p0 q, p0 = p ∧ q = destination p d) as (p0 & q & Hp0 & Hq) by eauto.
  destruct Hp, d; simpl at_edge; cbv iota; try reflexivity.
  all: eexists; (split; [reflexivity|]).
  all: eapply (one_slide_intro _ _ p0 q); subst p0 q;
    [ exact Hb | reflexivity | unfold adjacent; simpl; lia
    | reflexivity | reflexivity | reflexivity ].
Qed.

Lemma slide_board_ok (m m' : arrangement) (d : direction) :
  is_board m → slide m d = Ok m' → is_board m' ∧ one_slide m m'.
Proof.
  intros Hb Hm'. destruct (board_blank_at m Hb) as [p Hp].
  pose proof (slide_board m p d Hb Hp) as H.
  destruct (at_edge p d); [congruence|].
  destruct H as (m'' & Hs & ?). rewrite Hs in Hm'. by injection Hm' as ->.
Qed.

Lemma successors_of_board (m m' : arrangement) :
  is_board m → m' ∈ successors_of m → is_board m' ∧ one_slide m m'.
Proof.
  intros Hb (d & _ & Hd)%list_elem_of_omap.
  destruct (slide m d) as [m''|] eqn:Hs; [|done].
  simplify_eq. by eapply slide_board_ok.
Qed.

Lemma successors_of_length (m : arrangement) (p : nat) :
  is_board m → blank_at p m → length (successors_of m) = neighbours p.
Proof.
  intros Hb Hp. unfold successors_of.
  pose proof (slide_board m p MoveLeft Hb Hp) as Hl.
  pose proof (slide_board m p MoveRight Hb Hp) as Hr.
  pose proof (slide_board m p MoveUp Hb Hp) as Hu.
  pose proof (slide_board m p MoveDown Hb Hp) as Hd.
  simpl omap.
  destruct Hp; simpl in Hl, Hr, Hu, Hd;
    repeat match goal with
    | H : ∃ _, _ ∧ _ |- _ => destruct H as (? & -> & _)
    | H : slide _ _ = Raise _ |- _ => rewrite H
    end; reflexivity.
Qed.

(** ** The heuristic *)

Lemma cells3_cell : cells3 = cell <$> seq 0 9.
Proof. reflexivity. Qed.

Lemma matrix_getitem_cell (m : arrangement) (k : nat) (v : Z) :
  length <$> m = [3; 3; 3]%nat →
  concat m !! k = Some v → matrix_getitem m (cell k) = Ok v.
Proof.
  intros (a&b&c&d&e&f&g&h&i&->)%shape_grid Hk.
  do 9 (destruct k as [|k]; [by simplify_eq/=|]). done.
Qed.

Lemma get_index_position (m : arrangement) (v : Z) :
  length <$> m = [3; 3; 3]%nat → v ∈ concat m →
  get_index m v = Ok (cell (position v (concat m))).
Proof.
  intros (a&b&c&d&e&f&g&h&i&->)%shape_grid Hin.
  rewrite get_index_grid. unfold position. simpl.
  repeat (case_bool_decide;
          [ rewrite decide_True by done; reflexivity
          | rewrite decide_False by done; simpl ]).
  repeat (apply elem_of_cons in Hin as [?|Hin]; [congruence|]).
  by apply elem_of_nil in Hin.
Qed.

(** What one cell adds to the distance. *)
Definition cost (t : list Z) (k : nat) (v : Z) : Z :=
  if bool_decide (v = 0) then 0 else manhattan k (position v t).

Lemma distance_body_cost (self other : arrangement) (acc : Z) (k : nat) (v : Z) :
  length <$> self = [3; 3; 3]%nat → length <$> other = [3; 3; 3]%nat →
  concat self !! k = Some v → (v ≠ 0 → v ∈ concat other) →
  distance_body self other acc (cell k) = Ok (acc + cost (concat other) k v).
Proof.
  intros Hs Ho Hk Hin. unfold distance_body, cost.
  rewrite (matrix_getitem_cell self k v Hs Hk).
  cbv beta iota delta [mbind result_bind].
  case_bool_decide; [f_equal; lia|].
  rewrite (get_index_position other v Ho (Hin ltac:(done))).
  unfold manhattan. f_equal. lia.
Qed.

Lemma for_loop_cost (self other : arrangement) (ks : list nat) (acc : Z) :
  length <$> self = [3; 3; 3]%nat → length <$> other = [3; 3; 3]%nat →
  (∀ k, k ∈ ks → ∃ v, concat self !! k = Some v ∧ (v ≠ 0 → v ∈ concat other)) →
  for_loop (cell <$> ks) (distance_body self other) acc
  = Ok (acc + sumZ ((λ k, cost (concat other) k (concat self !!! k)) <$> ks)).
Proof.
  intros Hs Ho. revert acc.
  induction ks as [|k ks IH]; intros acc Hks.
  { simpl. unfold sumZ. simpl. f_equal. lia. }
  destruct (Hks k) as (v & Hk & Hin); [by left|].
  rewrite !fmap_cons. simpl for_loop.
  rewrite (distance_body_cost self other acc k v) by done.
  cbv beta iota delta [mbind result_bind].
  rewrite IH by (intros; apply Hks; by right).
  rewrite (list_lookup_total_correct _ _ _ Hk).
  unfold sumZ. simpl foldr. f_equal. lia.
Qed.

Lemma sumZ_Permutation (l l' : list Z) : l ≡ₚ l' → sumZ l = sumZ l'.
Proof. unfold sumZ. induction 1; simpl; lia. Qed.

Lemma sumZ_zero (l : list Z) : Forall (λ x, x = 0) l → sumZ l = 0.
Proof. unfold sumZ. induction 1; simpl; lia. Qed.

Lemma position_lookup (s : list Z) (k : nat) (v : Z) :
  NoDup s → s !! k = Some v → position v s = k.
Proof.
  intros Hnd Hk. unfold position.
  destruct (list_find (λ x, x = v) s) as [[k' v']|] eqn:Hf.
  - apply list_find_Some in Hf as (Hk' & -> & _). by eapply NoDup_lookup.
  - apply list_find_None in Hf. rewrite Forall_forall in Hf.
    destruct (Hf v); [by eapply list_elem_of_lookup_2|done].
Qed.

Lemma manhattan_sym (k k' : nat) : manhattan k k' = manhattan k' k.
Proof. unfold manhattan. lia. Qed.

Lemma manhattan_refl (k : nat) : manhattan k k = 0.
Proof. unfold manhattan. lia. Qed.

(** On boards the loops of [distance] compute the sum of the
    specification. *)
Lemma distance_board (a b : arrangement) :
  is_board a → is_board b → distance a b = Ok (distance_spec a b).
Proof.
  intros [Hsa Hpa] [Hsb Hpb]. unfold distance. rewrite cells3_cell.
  assert (length (concat a) = 9%nat) as Hlen by (by rewrite Hpa).
  assert (NoDup (concat a)) as Hnd by (rewrite Hpa; apply NoDup_seqZ).
  rewrite for_loop_cost; [|done|done|].
  2:{ intros k Hk%elem_of_seq.
      destruct (lookup_lt_is_Some_2 (concat a) k) as [v Hv]; [lia|].
      exists v. split; [done|]. intros _. rewrite Hpb, <- Hpa.
      by eapply list_elem_of_lookup_2. }
  f_equal. rewrite Z.add_0_l. unfold distance_spec.
  transitivity
    (sumZ ((λ v, if bool_decide (v = 0) then 0
                 else manhattan (position v (concat a)) (position v (concat b)))
             <$> concat a)).
  - f_equal. apply list_eq. intros k. rewrite !list_lookup_fmap.
    destruct (decide (k < 9)%nat) as [Hk|Hk].
    + rewrite lookup_seq_lt by done. simpl.
      destruct (lookup_lt_is_Some_2 (concat a) k) as [v Hv]; [lia|].
      rewrite Hv, (list_lookup_total_correct _ _ _ Hv). simpl. unfold cost.
      by rewrite (position_lookup _ _ _ Hnd Hv).
    + rewrite lookup_seq_ge by lia. by rewrite lookup_ge_None_2 by lia.
  - rewrite (sumZ_Permutation _ _ (fmap_Permutation _ _ _ Hpa)).
    reflexivity.
Qed.

Lemma distance_spec_sym (a b : arrangement) : distance_spec a b = distance_spec b a.
Proof.
  unfold distance_spec. f_equal. apply list_fmap_ext. intros _ v _.
  apply manhattan_sym.
Qed.

Lemma distance_spec_refl (a : arrangement) : distance_spec a a = 0.
Proof.
  unfold distance_spec. apply sumZ_zero, Forall_fmap, Forall_forall.
  intros v _. apply manhattan_refl.
Qed.

(** C9: on boards that hold 0 to 8 once each, [distance] is the sum over the
    tiles 1 to 8 of the Manhattan distance between the two places of the
    tile; the distance of a board to itself is 0 and the distance is
    symmetric. *)
Theorem distance_zero_and_symmetric (a b : arrangement) :
  is_board a → is_board b →
  distance a b = Ok (distance_spec a b)
  ∧ distance a a = Ok 0
  ∧ distance a b = distance b a.
Proof.
  intros Ha Hb. split; [|split].
  - by apply distance_board.
  - by rewrite distance_board, distance_spec_refl.
  - by rewrite !distance_board, distance_spec_sym.
Qed.

(** ** Running the methods on the heap

    The objects that a call creates come after those of the heap [h] it
    started from: the heap is [h ++ news] throughout. *)

Lemma deref_old (h news : heap) (l : loc) (o : EFPState) :
  h !! l = Some o → deref l (h ++ news) = (Ok o, h ++ news).
Proof. intros Hl. unfold deref. by rewrite (lookup_app_l_Some _ _ _ _ Hl). Qed.

Lemma deref_new (h news : heap) (k : nat) (o : EFPState) :
  news !! k = Some o →
  deref (length h + k)%nat (h ++ news) = (Ok o, h ++ news).
Proof. intros Hk. unfold deref. by rewrite lookup_app_r, Nat.add_sub', Hk by lia. Qed.

Lemma assign_new (h news : heap) (k : nat) (o : EFPState) (f : EFPState → EFPState) :
  news !! k = Some o →
  assign (length h + k)%nat f (h ++ news) = (Ok (), h ++ <[k := f o]> news).
Proof.
  intros Hk. unfold assign.
  rewrite lookup_app_r, Nat.add_sub', Hk by lia.
  by rewrite insert_app_r.
Qed.

Lemma alloc_new (h news : heap) (o : EFPState) :
  alloc o (h ++ news) = (Ok (length h + length news)%nat, h ++ (news ++ [o])).
Proof. unfold alloc. by rewrite length_app, <- (assoc_L (++)). Qed.

Lemma bind_ok {A B : Type} (m : M A) (f : A → M B) (h h' : heap) (a : A) :
  m h = (Ok a, h') → (m ≫= f) h = f a h'.
Proof. intros Hm. unfold mbind, M_bind. by rewrite Hm. Qed.

Lemma deref_last (h news : heap) (o : EFPState) :
  deref (length h + length news)%nat (h ++ (news ++ [o])) = (Ok o, h ++ (news ++ [o])).
Proof. apply deref_new, list_lookup_middle. done. Qed.

Lemma assign_last (h news : heap) (o : EFPState) (f : EFPState → EFPState) :
  assign (length h + length news)%nat f (h ++ (news ++ [o]))
  = (Ok (), h ++ (news ++ [f o])).
Proof.
  rewrite (assign_new h (news ++ [o]) (length news) o) by (by apply list_lookup_middle).
  by rewrite insert_app_r_alt, Nat.sub_diag by lia.
Qed.

Ltac mrun :=
  unfold mbind, M_bind, mret, M_ret, lift;
  repeat first
    [ erewrite deref_old by eassumption
    | rewrite deref_last
    | rewrite assign_last
    | erewrite deref_new by reflexivity
    | erewrite assign_new by reflexivity
    | rewrite alloc_new ];
  cbn beta iota.

Lemma copy_new (h news : heap) (self : loc) (o : EFPState) :
  h !! self = Some o → length <$> matrix o = [3; 3; 3]%nat →
  copy self (h ++ news)
  = (Ok (length h + length news)%nat, h ++ (news ++ [plain o])).
Proof.
  intros Hself Hs. unfold copy, EFPState_init. mrun.
  by rewrite matrix_of_to_sequence.
Qed.

Lemma update_distance_last (h news : heap) (o : EFPState) :
  end_ok h o →
  is_board (matrix o) →
  update_distance_to_end (length h + length news)%nat (h ++ (news ++ [o]))
  = (Ok (), h ++ (news ++ [with_distance_to_end (estimate_of h o (matrix o)) o])).
Proof.
  intros Hend Hb. unfold update_distance_to_end, end_ok, estimate_of in *. mrun.
  destruct (end_state o) as [e|]; [|by mrun].
  destruct Hend as (oe & He & Hbe). mrun. rewrite He.
  rewrite (distance_board _ _ Hb Hbe). by mrun.
Qed.

Lemma swap_last (h news : heap) (o : EFPState) (coor1 coor2 : Z * Z) (m' : arrangement) :
  swap_cells (matrix o) coor1 coor2 = Ok m' →
  swap (length h + length news)%nat coor1 coor2 (h ++ (news ++ [o]))
  = update_distance_to_end (length h + length news)%nat
      (h ++ (news ++ [with_matrix m' o])).
Proof.
  unfold swap_cells, swap, getitem, setitem. intros Hsw. mrun.
  destruct (matrix_getitem (matrix o) coor1) as [tmp|]; [|done].
  destruct (matrix_getitem (matrix o) coor2) as [v|]; [|done].
  simpl in Hsw.
  destruct (matrix_setitem (matrix o) coor1 v) as [m1|] eqn:Hm1; [|done].
  simpl in Hsw. mrun. simpl. rewrite Hsw. mrun. 
  destruct o; reflexivity.
Qed.

Lemma blocked_cell (p : nat) (d : direction) :
  (p < 9)%nat → blocked (cell p) d = at_edge p d.
Proof.
  intros Hp. do 9 (destruct p as [|p]; [by destruct d|]). lia.
Qed.

Lemma blank_at_lt (p : nat) (m : arrangement) : blank_at p m → (p < 9)%nat.
Proof. destruct 1; lia. Qed.

Lemma move_last (h news : heap) (o : EFPState) (p : nat) (d : direction) :
  is_board (matrix o) → blank_at p (matrix o) → end_ok h o →
  move (length h + length news)%nat (flags d).1.1.1 (flags d).1.1.2
       (flags d).1.2 (flags d).2 (h ++ (news ++ [o]))
  = if at_edge p d
    then (Raise (InvalidMoveDirection (CantMove d)), h ++ (news ++ [o]))
    else (Ok (length h + length news)%nat,
          h ++ (news ++ [mkEFPState (slid (matrix o) d)
                           (estimate_of h o (slid (matrix o) d))
                           (end_state o) (prev_state o)])).
Proof.
  intros Hb Hp Hend. unfold move. mrun.
  rewrite (blank_at_get_index p _ Hp). cbn beta iota.
  pose proof (slide_board _ p d Hb Hp) as Hsl.
  pose proof (blocked_cell p d (blank_at_lt _ _ Hp)) as Hbl.
  unfold slid. unfold slide in Hsl |- *.
  rewrite (blank_at_get_index p _ Hp) in Hsl |- *.
  cbv beta iota delta [mbind result_bind] in Hsl |- *.
  rewrite Hbl in Hsl |- *.
  destruct (at_edge p d) eqn:Hedge.
  - destruct d; simpl in Hbl |- *; rewrite Hbl; reflexivity.
  - destruct Hsl as (m' & Hm' & Hb' & _). rewrite Hm'.
    assert (swap (length h + length news)%nat (cell p) (target (cell p) d)
              (h ++ (news ++ [o]))
            = (Ok (), h ++ (news ++ [mkEFPState m' (estimate_of h o m')
                           (end_state o) (prev_state o)]))) as Hswap.
    { rewrite (swap_last _ _ _ _ _ _ Hm').
      rewrite update_distance_last; [done| |done].
      unfold end_ok in *. by destruct o. }
    destruct d; simpl in Hbl, Hswap |- *; rewrite Hbl, Hswap; reflexivity.
Qed.

Lemma try_append_board (h news : heap) (self : loc) (o : EFPState) (p : nat)
    (d : direction) (acc : list loc) :
  h !! self = Some o → is_board (matrix o) → blank_at p (matrix o) →
  end_ok h o →
  try_append acc
    (c ← copy self;
     move c (flags d).1.1.1 (flags d).1.1.2 (flags d).1.2 (flags d).2)
    (h ++ news)
  = if at_edge p d then (Ok acc, h ++ (news ++ [plain o]))
    else (Ok (acc ++ [(length h + length news)%nat]),
          h ++ (news ++ [child h o d])).
Proof.
  intros Hself Hb Hp Hend. unfold try_append.
  rewrite (bind_ok _ _ _ _ _ (copy_new h news self o Hself (proj1 Hb))).
  rewrite (move_last h news (plain o) p d) by done.
  by destruct (at_edge p d).
Qed.

Ltac eval_edge :=
  repeat match goal with
  | |- context [at_edge ?p ?d] =>
      let b := eval vm_compute in (at_edge p d) in
      change (at_edge p d) with b
  end;
  cbv iota.

Lemma extend_board (h : heap) (self : loc) (o : EFPState) (p : nat) :
  h !! self = Some o → is_board (matrix o) → blank_at p (matrix o) →
  end_ok h o →
  extend self h = (Ok (new_locs h p), h ++ new_objects h self o p).
Proof.
  intros Hself Hb Hp Hend. pose proof (blank_at_lt _ _ Hp) as Hlt.
  unfold extend. rewrite <- (app_nil_r h) at 1.
  assert (∀ d news acc,
    try_append acc
      (c ← copy self;
       move c (flags d).1.1.1 (flags d).1.1.2 (flags d).1.2 (flags d).2)
      (h ++ news)
    = if at_edge p d then (Ok acc, h ++ (news ++ [plain o]))
      else (Ok (acc ++ [(length h + length news)%nat]),
            h ++ (news ++ [child h o d]))) as Htry.
  { intros. by apply try_append_board. }
  clear Hp.
  do 9 (destruct p as [|p];
    [ erewrite bind_ok
        by (etrans; [exact (Htry MoveLeft _ _) | eval_edge; reflexivity]);
      erewrite bind_ok
        by (etrans; [exact (Htry MoveRight _ _) | eval_edge; reflexivity]);
      erewrite bind_ok
        by (etrans; [exact (Htry MoveUp _ _) | eval_edge; reflexivity]);
      erewrite bind_ok
        by (etrans; [exact (Htry MoveDown _ _) | eval_edge; reflexivity]);
      simpl for_each; simpl app; simpl length; mrun; reflexivity
    |]).
  lia.
Qed.

(** The successors listed by [successors_of] are the slides that the edge
    does not stop. *)
Lemma successors_of_edges (m : arrangement) (p : nat) :
  is_board m → blank_at p m →
  successors_of m
  = omap (λ d, if at_edge p d then None else Some (slid m d))
         [MoveLeft; MoveRight; MoveUp; MoveDown].
Proof.
  intros Hb Hp. unfold successors_of. apply list_omap_ext.
  apply Forall_Forall2_diag, Forall_forall. intros d _.
  pose proof (slide_board m p d Hb Hp) as H. unfold slid.
  destruct (at_edge p d).
  - by rewrite H.
  - destruct H as (m' & -> & _). done.
Qed.

(** The states that [extend] returns hold the successors, in order, with
    their estimate, the goal of their parent, and their parent as
    predecessor. *)
Lemma new_objects_successors (h : heap) (self : loc) (o : EFPState) (p : nat) :
  is_board (matrix o) → blank_at p (matrix o) →
  Forall2 (λ l m',
             (h ++ new_objects h self o p) !! l
             = Some (mkEFPState m' (estimate_of h o m') (end_state o) (Some self)))
          (new_locs h p) (successors_of (matrix o)).
Proof.
  intros Hb Hp. rewrite (successors_of_edges _ p Hb Hp).
  unfold new_locs, new_objects. cbn -[at_edge].
  assert (∀ k x (news : heap), news !! k = Some x →
            (h ++ news) !! (length h + k)%nat = Some x) as Hnew.
  { intros k x news Hk. by rewrite lookup_app_r, Nat.add_sub' by lia. }
  destruct (at_edge p MoveLeft), (at_edge p MoveRight),
    (at_edge p MoveUp), (at_edge p MoveDown); cbn;
    repeat (constructor; [by apply Hnew|]); constructor.
Qed.

(** An [InvalidMoveDirection] never leaves [extend], whatever the object
    and the heap are. *)
Definition quiet {A : Type} (m : M A) : Prop :=
  ∀ h msg, (m h).1 ≠ Raise (InvalidMoveDirection msg).

Lemma quiet_bind {A B : Type} (m : M A) (f : A → M B) :
  quiet m → (∀ a, quiet (f a)) → quiet (m ≫= f).
Proof.
  intros Hm Hf h msg. unfold mbind, M_bind. specialize (Hm h msg).
  destruct (m h) as [[a|e] h']; [apply Hf|].
  simpl in *. intros [= ->]. by apply Hm.
Qed.

Lemma quiet_ret {A : Type} (a : A) : quiet (mret a : M A).
Proof. done. Qed.

Lemma quiet_assign (self : loc) (f : EFPState → EFPState) : quiet (assign self f).
Proof. intros h msg. unfold assign. by destruct (h !! self). Qed.

Lemma quiet_try_append (acc : list loc) (body : M loc) : quiet (try_append acc body).
Proof.
  intros h msg. unfold try_append. by destruct (body h) as [[st|[]] h'].
Qed.

Lemma quiet_for_each {A : Type} (xs : list A) (body : A → M unit) :
  (∀ x, quiet (body x)) → quiet (for_each xs body).
Proof.
  intros Hb. induction xs as [|x xs IH]; simpl; [apply quiet_ret|].
  apply quiet_bind; [apply Hb | by intros _].
Qed.

Lemma extend_quiet (self : loc) : quiet (extend self).
Proof.
  unfold extend.
  repeat (apply quiet_bind; [apply quiet_try_append | intros ?]).
  apply quiet_bind; [|intros; apply quiet_ret].
  apply quiet_for_each. intros. apply quiet_assign.
Qed.

(** C7: called on a board that holds 0 to 8 once each, [extend] returns 2, 3
    or 4 states according to the place of the blank (corner, edge, centre);
    each of them is a new object whose arrangement is the board after one
    slide of the blank, and whose predecessor is the object extended.  The
    slides that the edge of the board stops raise [InvalidMoveDirection],
    which [extend] discards: the call does not raise. *)
Theorem extend_legal_successors (h : heap) (self : loc) (o : EFPState) :
  h !! self = Some o → is_board (matrix o) → end_ok h o →
  ∃ (p : nat) (locs : list loc) (news : heap),
    extend self h = (Ok locs, h ++ news)
    ∧ blank_position (matrix o) = Some p
    ∧ length locs = neighbours p
    ∧ ∀ l, l ∈ locs →
        (length h ≤ l)%nat ∧
        ∃ o', (h ++ news) !! l = Some o'
              ∧ is_board (matrix o')
              ∧ one_slide (matrix o) (matrix o')
              ∧ prev_state o' = Some self.
Proof.
  intros Hself Hb Hend. destruct (board_blank_at _ Hb) as [p Hp].
  exists p, (new_locs h p), (new_objects h self o p).
  pose proof (new_objects_successors h self o p Hb Hp) as Hsucc.
  split; [by apply extend_board|]. split; [by apply blank_at_position|].
  split.
  { rewrite (Forall2_length _ _ _ Hsucc). by apply successors_of_length. }
  intros l Hl. split.
  { unfold new_locs in Hl. apply list_elem_of_omap in Hl as ([k d] & _ & Hkd).
    simpl in Hkd. destruct (at_edge p d); simplify_eq. lia. }
  apply list_elem_of_lookup in Hl as [i Hi].
  destruct (Forall2_lookup_l _ _ _ _ _ Hsucc Hi) as (m' & Hm' & Hlook).
  eexists. split; [exact Hlook|]. simpl.
  destruct (successors_of_board (matrix o) m' Hb) as [? ?];
    [by eapply list_elem_of_lookup_2|done].
Qed.

(** ** The search on the heap does what the search on values does *)

Lemma chain_app (h news : heap) (start l : loc) (path : list arrangement) :
  chain h start l path → chain (h ++ news) start l path.
Proof.
  induction 1 as [o Ho|l o p path Ho Hp _ IH].
  - constructor. by apply lookup_app_l_Some.
  - econstructor; [by apply lookup_app_l_Some|done..].
Qed.

Lemma repr_app (h news : heap) (start end_ l : loc) (n : node) :
  repr h start end_ l n → repr (h ++ news) start end_ l n.
Proof.
  intros (o & Ho & ? & ? & ? & Hc). exists o.
  split; [by apply lookup_app_l_Some|]. eauto using chain_app.
Qed.

Lemma frontier_repr_app (h news : heap) (start end_ : loc) (goal : arrangement)
    (pl : list loc) (fr : list node) :
  frontier_repr h start end_ goal pl fr →
  frontier_repr (h ++ news) start end_ goal pl fr.
Proof.
  intros ((oe & He & Hg) & Hb & Hpl & Hfr). split; [|split; [done|split; [|done]]].
  - exists oe. split; [by apply lookup_app_l_Some|done].
  - eapply Forall2_impl; [exact Hpl|]. intros. by apply repr_app.
Qed.

(** Sorting related lists with equal keys gives related lists. *)
Section sort_related.
Context {A B : Type} (R : A → B → Prop).

Definition keyed_rel (x : Z * A) (y : Z * B) : Prop := x.1 = y.1 ∧ R x.2 y.2.

Lemma insert_by_key_related x y l l' :
  keyed_rel x y → Forall2 keyed_rel l l' →
  Forall2 keyed_rel (insert_by_key x l) (insert_by_key y l').
Proof.
  intros Hxy Hl. induction Hl as [|a b l l' Hab Hl IH]; simpl.
  - constructor; [done|constructor].
  - pose proof Hxy as [Hk ?]. pose proof Hab as [Hk' ?]. rewrite Hk, Hk'.
    case_bool_decide; [|by constructor].
    constructor; [done|]. by constructor.
Qed.

Lemma sort_by_key_related l l' :
  Forall2 keyed_rel l l' → Forall2 keyed_rel (sort_by_key l) (sort_by_key l').
Proof.
  unfold sort_by_key. induction 1; simpl; [constructor|].
  by apply insert_by_key_related.
Qed.
End sort_related.

Lemma insert_by_key_Permutation {A : Type} (x : Z * A) (l : list (Z * A)) :
  insert_by_key x l ≡ₚ x :: l.
Proof.
  induction l as [|y l IH]; simpl; [done|].
  case_bool_decide; [done|]. by rewrite IH, Permutation_swap.
Qed.

Lemma sort_by_key_Permutation {A : Type} (l : list (Z * A)) : sort_by_key l ≡ₚ l.
Proof.
  unfold sort_by_key. induction l as [|x l IH]; simpl; [done|].
  by rewrite insert_by_key_Permutation, IH.
Qed.

Lemma ref_sort_Permutation (fr : list node) : ref_sort fr ≡ₚ fr.
Proof.
  unfold ref_sort. rewrite sort_by_key_Permutation, <- list_fmap_compose.
  by rewrite list_fmap_id.
Qed.

Lemma deref_Some (h : heap) (l : loc) (o : EFPState) :
  h !! l = Some o → deref l h = (Ok o, h).
Proof. intros Hl. unfold deref. by rewrite Hl. Qed.

Section simulation.
Context {hash_impl : TupleHash}.
Context (start end_ : loc) (goal : arrangement).

Lemma keyed_repr (h : heap) (pl : list loc) (fr : list node) :
  Forall2 (repr h start end_) pl fr →
  ∃ ks, keyed pl h = (Ok ks, h)
        ∧ Forall2 (keyed_rel (repr h start end_)) ks ((λ n, (estimate n, n)) <$> fr).
Proof.
  induction 1 as [|l n pl fr Hln Hpl (ks & Hks & Hrel)]; simpl.
  - by exists [].
  - pose proof Hln as (o & Ho & ? & ? & ?).
    exists ((distance_to_end o, l) :: ks). split.
    + unfold mbind, M_bind, deref. by rewrite Ho, Hks.
    + constructor; [by split|done].
Qed.

Lemma sort_process_list_repr (h : heap) (pl : list loc) (fr : list node) :
  Forall2 (repr h start end_) pl fr →
  ∃ pl', sort_process_list pl h = (Ok pl', h)
         ∧ Forall2 (repr h start end_) pl' (ref_sort fr).
Proof.
  intros (ks & Hks & Hrel)%keyed_repr.
  exists (sort_by_key ks).*2. split.
  - unfold sort_process_list, mbind, M_bind. by rewrite Hks.
  - unfold ref_sort. apply sort_by_key_related in Hrel.
    apply Forall2_fmap. eapply Forall2_impl; [exact Hrel|]. by intros ?? [??].
Qed.

Lemma loop_body_sim (h : heap) (visited : gmap Z bool) (pl : list loc)
    (fr : list node) :
  frontier_repr h start end_ goal pl fr →
  match ref_body goal visited fr with
  | RefExhausted =>
      loop_body end_ visited pl h = (Raise (IndexError PopFromEmptyList), h)
  | RefStale v fr' =>
      ∃ pl', loop_body end_ visited pl h = (Ok (Stale v pl'), h)
             ∧ frontier_repr h start end_ goal pl' fr'
  | RefFound n =>
      ∃ l, loop_body end_ visited pl h = (Ok (Found l), h)
           ∧ repr h start end_ l n ∧ is_board (board n)
  | RefExpanded n v fr' =>
      ∃ l pl' news,
        loop_body end_ visited pl h = (Ok (Expanded l v pl'), h ++ news)
        ∧ repr h start end_ l n
        ∧ frontier_repr (h ++ news) start end_ goal pl' fr'
  end.
Proof.
  intros ((oe & He & Hg) & Hgb & Hpl & Hfr).
  destruct (sort_process_list_repr h pl fr Hpl) as (pl' & Hsort & Hrel).
  assert (Forall (λ n, is_board (board n)) (ref_sort fr)) as Hfr'.
  { by rewrite ref_sort_Permutation. }
  unfold loop_body, ref_body. rewrite (bind_ok _ _ _ _ _ Hsort).
  destruct Hrel as [|l n pl'' fr'' Hln Hrel]; [done|].
  pose proof Hln as (o & Ho & Hm & Hd & Hes & Hc).
  apply Forall_cons in Hfr' as [Hnb Hfr'].
  assert (EFPState_hash o = board_hash (board n)) as Hhash.
  { unfold EFPState_hash, board_hash. by rewrite Hm. }
  rewrite (bind_ok _ _ _ _ _ (deref_Some h l o Ho)), Hhash.
  destruct (default false (visited !! board_hash (board n))).
  { exists pl''. split; [done|]. split; [exists oe; by split|]. split; [done|]. by split. }
  rewrite (bind_ok _ _ _ _ _ (deref_Some h end_ oe He)).
  assert (EFPState_eq o oe
          = bool_decide (board_hash goal = board_hash (board n))) as ->.
  { unfold EFPState_eq. by rewrite Hhash, <- Hg. }
  case_bool_decide.
  { exists l. split; [done|]. by split. }
  destruct (board_blank_at (matrix o)) as [p Hp]; [by rewrite Hm|].
  assert (end_ok h o) as Hend.
  { unfold end_ok. rewrite Hes. exists oe. by rewrite Hg. }
  rewrite (bind_ok _ _ _ _ _
             (extend_board h l o p Ho ltac:(by rewrite Hm) Hp Hend)).
  exists l, (pl'' ++ new_locs h p), (new_objects h l o p).
  split; [done|]. split; [done|].
  pose proof (new_objects_successors h l o p ltac:(by rewrite Hm) Hp) as Hnew.
  split; [|split; [done|split]].
  - exists oe. split; [by apply lookup_app_l_Some|done].
  - apply Forall2_app.
    + eapply Forall2_impl; [exact Hrel|]. intros. by apply repr_app.
    + unfold ref_successors. apply Forall2_fmap_r. rewrite <- Hm.
      eapply Forall2_impl; [exact Hnew|]. intros l' m' Hl'. simpl in Hl'.
      eexists. split; [exact Hl'|]. simpl.
      split; [done|]. split.
      { unfold estimate_of. by rewrite Hes, He, Hg. }
      split; [done|].
      apply (chain_step _ _ _ _ l _ Hl'); [done|].
      rewrite Hm. by apply chain_app.
  - apply Forall_app. split; [done|].
    unfold ref_successors. rewrite Forall_fmap. apply Forall_forall.
    intros m' Hm'. simpl. by apply (successors_of_board (board n)).
Qed.

Lemma while_loop_sim (fuel : nat) (h : heap) (visited : gmap Z bool)
    (pl : list loc) (fr : list node) :
  frontier_repr h start end_ goal pl fr →
  match ref_loop fuel goal visited fr with
  | None => while_loop fuel end_ visited pl h = None
  | Some None =>
      ∃ news, while_loop fuel end_ visited pl h
              = Some (Raise (IndexError PopFromEmptyList), h ++ news)
  | Some (Some n) =>
      ∃ l news, while_loop fuel end_ visited pl h = Some (Ok l, h ++ news)
                ∧ repr (h ++ news) start end_ l n ∧ is_board (board n)
  end.
Proof.
  revert h visited pl fr.
  induction fuel as [|fuel IH]; intros h visited pl fr Hinv; [done|].
  simpl. pose proof (loop_body_sim h visited pl fr Hinv) as Hturn.
  destruct (ref_body goal visited fr) as [v fr'|n v fr'|n|].
  - destruct Hturn as (pl' & -> & Hinv'). by apply IH.
  - destruct Hturn as (l & pl' & news & -> & _ & Hinv').
    specialize (IH (h ++ news) v pl' fr' Hinv').
    destruct (ref_loop fuel goal v fr') as [[n'|]|]; [| |done].
    + destruct IH as (l' & news' & -> & Hr & Hb).
      exists l', (news ++ news'). by rewrite (assoc_L (++)).
    + destruct IH as (news' & ->).
      exists (news ++ news'). by rewrite (assoc_L (++)).
  - destruct Hturn as (l & -> & Hr & Hb).
    exists l, []. by rewrite app_nil_r.
  - rewrite Hturn. exists []. by rewrite app_nil_r.
Qed.
End simulation.

Lemma assign_Some (h : heap) (l : loc) (o : EFPState) (f : EFPState → EFPState) :
  h !! l = Some o → assign l f h = (Ok (), <[l := f o]> h).
Proof. intros Hl. unfold assign. by rewrite Hl. Qed.

Lemma prologue_board (h : heap) (start end_ : loc) (s oe : EFPState) :
  h !! start = Some s → h !! end_ = Some oe →
  is_board (matrix s) → is_board (matrix oe) →
  prologue start end_ h
  = (if parity_differs (matrix s) (matrix oe)
     then Raise (RuntimeError DifferentParity) else Ok (),
     <[start := started s end_ (matrix oe)]> h).
Proof.
  intros Hs He Hbs Hbe. unfold prologue.
  rewrite (bind_ok _ _ _ _ _ (deref_Some h start s Hs)).
  rewrite (bind_ok _ _ _ _ _ (deref_Some h end_ oe He)).
  rewrite (distance_board _ _ Hbs Hbe).
  unfold lift. rewrite (bind_ok _ _ h h (distance_spec (matrix s) (matrix oe)))
    by done.
  rewrite (bind_ok _ _ _ _ _ (assign_Some h start s _ Hs)).
  pose proof (lookup_lt_Some _ _ _ Hs) as Hlt.
  erewrite bind_ok; [|apply assign_Some, list_lookup_insert_eq; done].
  rewrite list_insert_insert_eq.
  erewrite bind_ok; [|apply deref_Some, list_lookup_insert_eq; done].
  assert (∃ oe', <[start := started s end_ (matrix oe)]> h !! end_ = Some oe'
                 ∧ matrix oe' = matrix oe) as (oe' & He' & Hm').
  { destruct (decide (start = end_)) as [<-|Hne].
    - eexists. split; [by apply list_lookup_insert_eq|]. simpl. congruence.
    - exists oe. by rewrite list_lookup_insert_ne. }
  unfold started at 1, with_end_state, with_distance_to_end. simpl.
  fold (started s end_ (matrix oe)).
  rewrite (bind_ok _ _ _ _ _ (deref_Some _ end_ oe' He')). rewrite Hm'.
  unfold parity_differs. by case_bool_decide.
Qed.


(** The search on the heap, started on two boards, does what the search on
    their arrangements does; the objects it creates come after those of
    the heap, of which only [start] has changed. *)
Lemma a_sharp_search_sim `{TupleHash} (fuel : nat) (h : heap) (start end_ : loc)
    (s oe : EFPState) :
  h !! start = Some s → h !! end_ = Some oe →
  is_board (matrix s) → is_board (matrix oe) →
  let h1 := <[start := started s end_ (matrix oe)]> h in
  if parity_differs (matrix s) (matrix oe)
  then a_sharp_search fuel start end_ h
       = Some (Raise (RuntimeError DifferentParity), h1)
  else
    match ref_search fuel (matrix s) (matrix oe) with
    | None => a_sharp_search fuel start end_ h = None
    | Some None =>
        ∃ news, a_sharp_search fuel start end_ h
                = Some (Raise (IndexError PopFromEmptyList), h1 ++ news)
    | Some (Some n) =>
        ∃ l news, a_sharp_search fuel start end_ h = Some (Ok l, h1 ++ news)
                  ∧ repr (h1 ++ news) start end_ l n ∧ is_board (board n)
    end.
Proof.
  intros Hs He Hbs Hbe h1. unfold a_sharp_search.
  rewrite (prologue_board h start end_ s oe Hs He Hbs Hbe). fold h1.
  destruct (parity_differs (matrix s) (matrix oe)); [done|].
  pose proof (lookup_lt_Some _ _ _ Hs) as Hlt.
  assert (h1 !! start = Some (started s end_ (matrix oe))) as Hs1.
  { by apply list_lookup_insert_eq. }
  apply (while_loop_sim start end_ (matrix oe)).
  split; [|split; [done|split]].
  - destruct (decide (start = end_)) as [<-|Hne].
    + eexists. split; [exact Hs1|]. simpl. congruence.
    + exists oe. split; [|done]. unfold h1. by rewrite list_lookup_insert_ne.
  - constructor; [|constructor].
    eexists. split; [exact Hs1|]. repeat split; try done.
    by apply (chain_start _ _ _ Hs1).
  - constructor; [done|constructor].
Qed.

(** ** The search on values: what holds throughout *)

Lemma size_dom_insert (visited : gmap Z bool) (k : Z) (b : bool) :
  visited !! k = None →
  size (dom (<[k := b]> visited)) = S (size (dom visited)).
Proof.
  intros Hk. rewrite dom_insert_L, size_union, size_singleton; [done|].
  by apply disjoint_singleton_l, not_elem_of_dom.
Qed.

Section reference_properties.
Context `{TupleHash}.

Lemma is_board_all_boards (m : arrangement) : is_board m → m ∈ all_boards.
Proof.
  intros [Hs Hp]. unfold all_boards. apply list_elem_of_fmap.
  exists (concat m). split; [by rewrite matrix_of_to_sequence|].
  by apply permutations_Permutation.
Qed.

Lemma board_hash_in (m : arrangement) :
  is_board m → board_hash m ∈ board_hashes.
Proof.
  intros Hb. unfold board_hashes. apply elem_of_list_to_set, list_elem_of_fmap.
  exists m. split; [done|]. by apply is_board_all_boards.
Qed.

Lemma ref_successors_inv (start goal : arrangement) (n : node) :
  is_board (board n) → trail_ok start (board n :: trail n) →
  Forall (λ n', is_board (board n') ∧ trail_ok start (board n' :: trail n'))
         (ref_successors goal n).
Proof.
  intros Hb Ht. unfold ref_successors. rewrite Forall_fmap. apply Forall_forall.
  intros m' Hm'. simpl.
  destruct (successors_of_board (board n) m' Hb Hm') as [Hb' Hs].
  split; [done|]. by constructor.
Qed.

Lemma ref_successors_length (goal : arrangement) (n : node) :
  (length (ref_successors goal n) ≤ 4)%nat.
Proof.
  unfold ref_successors, successors_of. rewrite length_fmap. simpl.
  repeat (destruct (slide _ _)); simpl; lia.
Qed.

(** One turn keeps the invariant. *)
Lemma ref_body_inv (start goal : arrangement) (visited : gmap Z bool)
    (frontier : list node) :
  ref_inv start visited frontier →
  match ref_body goal visited frontier with
  | RefExhausted => frontier = []
  | RefStale v fr =>
      v = visited ∧ S (length fr) = length frontier ∧ ref_inv start v fr
  | RefFound n =>
      board_hash goal = board_hash (board n)
      ∧ is_board (board n) ∧ trail_ok start (board n :: trail n)
  | RefExpanded n v fr =>
      visited !! board_hash (board n) = None
      ∧ v = <[board_hash (board n) := true]> visited
      ∧ (S (length fr) ≤ length frontier + 4)%nat
      ∧ ref_inv start v fr
  end.
Proof.
  intros (Htrue & Hdom & Hfr). unfold ref_body.
  pose proof (ref_sort_Permutation frontier) as Hperm.
  rewrite <- Hperm in Hfr.
  destruct (ref_sort frontier) as [|n fr] eqn:Hsort.
  { by apply Permutation_nil_l in Hperm. }
  apply Forall_cons in Hfr as [[Hb Ht] Hfr].
  pose proof (Permutation_length Hperm) as Hlen. simpl in Hlen.
  destruct (visited !! board_hash (board n)) as [b|] eqn:Hv; simpl.
  - rewrite (Htrue _ _ Hv). split; [done|]. split; [done|].
    split; [done|]. by split.
  - case_bool_decide; [done|].
    split; [done|]. split; [done|]. split.
    { rewrite length_app. pose proof (ref_successors_length goal n). lia. }
    split; [|split].
    + by apply map_Forall_insert_2.
    + rewrite dom_insert. apply union_least; [|done].
      apply singleton_subseteq_l. by apply board_hash_in.
    + apply Forall_app. split; [done|]. by apply ref_successors_inv.
Qed.

(** A node that the search returns hashes like the goal, and its trail
    goes back to the start slide by slide. *)
Lemma ref_loop_found (fuel : nat) (start goal : arrangement)
    (visited : gmap Z bool) (frontier : list node) (n : node) :
  ref_inv start visited frontier →
  ref_loop fuel goal visited frontier = Some (Some n) →
  board_hash goal = board_hash (board n)
  ∧ is_board (board n) ∧ trail_ok start (board n :: trail n).
Proof.
  revert visited frontier.
  induction fuel as [|fuel IH]; intros visited frontier Hinv Hrun; [done|].
  simpl in Hrun. pose proof (ref_body_inv start goal _ _ Hinv) as Hturn.
  destruct (ref_body goal visited frontier) as [v fr|n' v fr|n'|].
  - destruct Hturn as (_ & _ & Hinv'). by eapply IH.
  - destruct Hturn as (_ & _ & _ & Hinv'). by eapply IH.
  - by simplify_eq.
  - done.
Qed.

(** More turns do not change a result. *)
Lemma ref_loop_mono (fuel fuel' : nat) (goal : arrangement)
    (visited : gmap Z bool) (frontier : list node) (r : option node) :
  ref_loop fuel goal visited frontier = Some r → (fuel ≤ fuel')%nat →
  ref_loop fuel' goal visited frontier = Some r.
Proof.
  revert fuel' visited frontier.
  induction fuel as [|fuel IH]; intros fuel' visited frontier Hrun Hle; [done|].
  destruct fuel' as [|fuel']; [lia|]. simpl in *.
  destruct (ref_body goal visited frontier); try done; apply IH; (done || lia).
Qed.

(** The search ends: a turn either shortens the frontier or marks a board
    hash that was not marked, and there are finitely many of these. *)
Lemma ref_loop_terminates (fuel : nat) (start goal : arrangement)
    (visited : gmap Z bool) (frontier : list node) :
  ref_inv start visited frontier →
  (4 * (size board_hashes - size (dom visited)) + length frontier < fuel)%nat →
  is_Some (ref_loop fuel goal visited frontier).
Proof.
  revert visited frontier.
  induction fuel as [|fuel IH]; intros visited frontier Hinv Hfuel; [lia|].
  cbn [ref_loop]. pose proof (ref_body_inv start goal _ _ Hinv) as Hturn.
  destruct (ref_body goal visited frontier) as [v fr|n v fr|n|];
    [| |by eexists..].
  - destruct Hturn as (-> & Hlen & Hinv'). apply IH; [exact Hinv'|].
    revert Hfuel Hlen. generalize (size board_hashes). lia.
  - destruct Hturn as (Hnew & -> & Hlen & Hinv'). apply IH; [exact Hinv'|].
    pose proof Hinv' as (_ & Hdom & _).
    apply subseteq_size in Hdom.
    pose proof (size_dom_insert visited _ true Hnew) as Hsize.
    revert Hfuel Hlen Hdom Hsize.
    generalize (size board_hashes)
      (size (dom (<[board_hash (board n) := true]> visited))).
    lia.
Qed.

Lemma ref_search_inv (start goal : arrangement) :
  is_board start →
  ref_inv start ∅ [mkNode start (distance_spec start goal) []].
Proof.
  intros Hb. split; [apply map_Forall_empty|]. split.
  - rewrite dom_empty. apply empty_subseteq.
  - constructor; [|constructor]. split; [exact Hb|]. constructor.
Qed.

Lemma ref_search_terminates (start goal : arrangement) :
  is_board start →
  ∃ fuel r, ref_search fuel start goal = Some r.
Proof.
  intros Hb.
  destruct (ref_loop_terminates
              (S (4 * (size board_hashes - size (dom (∅ : gmap Z bool))) + 1))
              start goal ∅ [mkNode start (distance_spec start goal) []])
    as [r Hr].
  - apply ref_search_inv, Hb.
  - cbn [length]. generalize (size board_hashes). intros. lia.
  - eexists _, r. exact Hr.
Qed.
End reference_properties.

(** ** Termination, and no board expanded twice *)

Section expansions.
Context `{TupleHash}.

Lemma keyed_heap (pl : list loc) (h : heap) : (keyed pl h).2 = h.
Proof.
  induction pl as [|l pl IH]; [done|]. simpl.
  unfold mbind, M_bind, deref. destruct (h !! l) as [o|]; [|done].
  destruct (keyed pl h) as [[ks|ex] h']; simpl in *; by subst.
Qed.

Lemma sort_process_list_heap (pl : list loc) (h : heap) :
  (sort_process_list pl h).2 = h.
Proof.
  unfold sort_process_list, mbind, M_bind.
  pose proof (keyed_heap pl h) as Hk.
  by destruct (keyed pl h) as [[ks|e] h'].
Qed.

(** A state is expanded only if its hash is not marked, and the hash is
    marked from then on. *)
Lemma loop_body_expanded (end_ : loc) (visited visited' : gmap Z bool)
    (pl pl' : list loc) (h h' : heap) (cur : loc) :
  loop_body end_ visited pl h = (Ok (Expanded cur visited' pl'), h') →
  ∃ o, h !! cur = Some o
       ∧ default false (visited !! EFPState_hash o) = false
       ∧ visited' = <[EFPState_hash o := true]> visited.
Proof.
  unfold loop_body. unfold mbind at 1, M_bind at 1.
  pose proof (sort_process_list_heap pl h) as Hh.
  destruct (sort_process_list pl h) as [[[|l pl'']|e] h'']; simpl in Hh;
    subst h''; [done| |done].
  unfold mbind at 1, M_bind at 1, deref at 1.
  destruct (h !! l) as [o|] eqn:Ho; [|done].
  destruct (default false (visited !! EFPState_hash o)) eqn:Hv; [done|].
  unfold mbind at 1, M_bind at 1, deref at 1.
  destruct (h !! end_) as [oe|]; [|done].
  destruct (EFPState_eq o oe); [done|].
  unfold mbind at 1, M_bind at 1.
  destruct (extend l h) as [[succ|e] h'']; [|done].
  intros [= <- <- <- <-]. by exists o.
Qed.

Lemma loop_body_stale (end_ : loc) (visited visited' : gmap Z bool)
    (pl pl' : list loc) (h h' : heap) :
  loop_body end_ visited pl h = (Ok (Stale visited' pl'), h') →
  visited' = visited.
Proof.
  unfold loop_body. unfold mbind at 1, M_bind at 1.
  destruct (sort_process_list pl h) as [[[|l pl'']|e] h'']; [done| |done].
  unfold mbind at 1, M_bind at 1, deref at 1.
  destruct (h'' !! l) as [o|]; [|done].
  destruct (default false (visited !! EFPState_hash o)).
  { by intros [= <- <- <-]. }
  unfold mbind at 1, M_bind at 1, deref at 1.
  destruct (h'' !! end_) as [oe|]; [|done].
  destruct (EFPState_eq o oe); [done|].
  unfold mbind at 1, M_bind at 1.
  by destruct (extend l h'') as [[succ|e] h3].
Qed.

Lemma expansions_fresh (fuel : nat) (end_ : loc) (visited : gmap Z bool)
    (pl : list loc) (h : heap) :
  map_Forall (λ _ b, b = true) visited →
  NoDup (board_hash <$> expansions fuel end_ visited pl h)
  ∧ ∀ m, m ∈ expansions fuel end_ visited pl h →
         visited !! board_hash m = None.
Proof.
  revert visited pl h.
  induction fuel as [|fuel IH]; intros visited pl h Htrue.
  { split; [constructor|]. by intros m ?%elem_of_nil. }
  cbn [expansions].
  destruct (loop_body end_ visited pl h) as [[[v' pl'|cur v' pl'|cur]|e] h']
    eqn:Hbody.
  - apply loop_body_stale in Hbody as ->. by apply IH.
  - apply loop_body_expanded in Hbody as (o & -> & Hv & ->).
    assert (visited !! EFPState_hash o = None) as Hnone.
    { destruct (visited !! EFPState_hash o) as [b|] eqn:Hb; [|done].
      rewrite (Htrue _ _ Hb) in Hv. done. }
    destruct (IH (<[EFPState_hash o := true]> visited) pl' h') as [Hnd Hfresh].
    { by apply map_Forall_insert_2. }
    split.
    + simpl. constructor; [|done].
      intros (m & Hm & Hin)%list_elem_of_fmap.
      apply Hfresh in Hin. rewrite <- Hm in Hin.
      unfold board_hash, EFPState_hash in *. by rewrite lookup_insert_eq in Hin.
    + intros m [->|Hin]%elem_of_cons; [done|].
      apply Hfresh in Hin. apply lookup_insert_None in Hin as [? _]. done.
  - split; [constructor|]. by intros m ?%elem_of_nil.
  - split; [constructor|]. by intros m ?%elem_of_nil.
Qed.

Lemma expansions_NoDup (fuel : nat) (end_ : loc) (pl : list loc) (h : heap) :
  NoDup (expansions fuel end_ ∅ pl h).
Proof.
  eapply NoDup_fmap_1. apply expansions_fresh, map_Forall_empty.
Qed.

Lemma a_sharp_expansions_NoDup (fuel : nat) (start end_ : loc) (h : heap) :
  NoDup (a_sharp_expansions fuel start end_ h).
Proof.
  unfold a_sharp_expansions.
  destruct (prologue start end_ h) as [[[]|e] h']; [|constructor].
  apply expansions_NoDup.
Qed.
End expansions.

(** ** The path behind a result *)

Lemma chain_predecessors (h : heap) (start l : loc) (boards : list arrangement)
    (fuel : nat) :
  (∀ o, h !! start = Some o → prev_state o = None) →
  chain h start l boards → (length boards ≤ fuel)%nat →
  ∃ path,
    predecessors fuel h (Some l) = Some path
    ∧ Forall2 (λ l' m, ∃ o, h !! l' = Some o ∧ matrix o = m
                            ∧ (prev_state o = None ↔ l' = start))
              path boards
    ∧ head path = Some l
    ∧ last path = Some start.
Proof.
  intros Hstart Hc. revert fuel.
  induction Hc as [o Ho|l o p boards Ho Hp Hc IH]; intros fuel Hfuel.
  - destruct fuel as [|fuel]; [simpl in Hfuel; lia|].
    exists [start]. simpl. rewrite Ho. simpl. rewrite (Hstart o Ho).
    destruct fuel; simpl; (split; [done|]); (split; [|done]);
      (constructor; [|constructor]); exists o; by rewrite (Hstart o Ho).
  - destruct fuel as [|fuel]; [simpl in Hfuel; lia|].
    destruct (IH fuel) as (path & Hpath & Hrel & Hhead & Hlast).
    { simpl in Hfuel. lia. }
    exists (l :: path). simpl. rewrite Ho. simpl. rewrite Hp, Hpath. simpl.
    split; [done|]. split; [|split; [done|]].
    + constructor; [|done]. exists o. split; [done|]. split; [done|].
      split; [by rewrite Hp|]. intros ->. rewrite (Hstart o Ho) in Hp. done.
    + destruct path as [|l' path]; [done|]. done.
Qed.

Lemma chain_path_boards (h : heap) (start l : loc) (boards : list arrangement)
    (fuel : nat) :
  (∀ o, h !! start = Some o → prev_state o = None) →
  chain h start l boards → (length boards ≤ fuel)%nat →
  path_boards fuel h l = Some boards.
Proof.
  intros Hstart Hc Hfuel.
  destruct (chain_predecessors h start l boards fuel Hstart Hc Hfuel)
    as (path & Hpath & Hrel & _).
  unfold path_boards. rewrite Hpath. simpl. apply mapM_Some.
  eapply Forall2_impl; [exact Hrel|].
  intros l' m (o & -> & <- & _). done.
Qed.


(** What a successful search returns, in terms of the search on values. *)
Lemma a_sharp_search_ok `{TupleHash} (fuel : nat) (h h' : heap) (start end_ : loc)
    (s oe : EFPState) (res : loc) :
  h !! start = Some s → h !! end_ = Some oe →
  is_board (matrix s) → is_board (matrix oe) →
  a_sharp_search fuel start end_ h = Some (Ok res, h') →
  ∃ n news,
    ref_search fuel (matrix s) (matrix oe) = Some (Some n)
    ∧ h' = <[start := started s end_ (matrix oe)]> h ++ news
    ∧ repr h' start end_ res n.
Proof.
  intros Hs He Hbs Hbe Hrun.
  pose proof (a_sharp_search_sim fuel h start end_ s oe Hs He Hbs Hbe) as Hsim.
  simpl in Hsim. destruct (parity_differs (matrix s) (matrix oe)).
  { rewrite Hsim in Hrun. done. }
  destruct (ref_search fuel (matrix s) (matrix oe)) as [[n|]|].
  - destruct Hsim as (l & news & Hl & Hr & _). rewrite Hl in Hrun.
    injection Hrun as <- <-. by exists n, news.
  - destruct Hsim as (news & Hl). rewrite Hl in Hrun. done.
  - rewrite Hsim in Hrun. done.
Qed.


(** C8 (amended: both runs begin at a start state without predecessor,
    and ties are broken as the code breaks them): two runs of the search
    on the same start and goal boards, in whatever heaps and for whatever
    bounds on the turns, end alike.  Both raise the same exception, or both
    return states behind which the same boards lie, each one slide after
    the next back to the start: the two paths have the same length.  The
    sort is stable and the successors join the list in a fixed order, so
    the code never breaks a tie in two ways. *)
Theorem search_twice_same_path `{TupleHash} (fuel1 fuel2 : nat)
    (h1 h1' h2 h2' : heap) (start1 end1 start2 end2 : loc)
    (s1 oe1 s2 oe2 : EFPState) (r1 r2 : result loc) :
  h1 !! start1 = Some s1 → h1 !! end1 = Some oe1 →
  h2 !! start2 = Some s2 → h2 !! end2 = Some oe2 →
  matrix s2 = matrix s1 → matrix oe2 = matrix oe1 →
  is_board (matrix s1) → is_board (matrix oe1) →
  prev_state s1 = None → prev_state s2 = None →
  a_sharp_search fuel1 start1 end1 h1 = Some (r1, h1') →
  a_sharp_search fuel2 start2 end2 h2 = Some (r2, h2') →
  match r1, r2 with
  | Ok res1, Ok res2 =>
      ∃ boards,
        trail_ok (matrix s1) boards
        ∧ (∀ fuel, (length boards ≤ fuel)%nat →
                   path_boards fuel h1' res1 = Some boards)
        ∧ (∀ fuel, (length boards ≤ fuel)%nat →
                   path_boards fuel h2' res2 = Some boards)
  | Raise e1, Raise e2 => e1 = e2
  | _, _ => False
  end.
Proof.
  intros Hs1 He1 Hs2 He2 Hms Hme Hbs Hbe Hp1 Hp2 Hrun1 Hrun2.
  pose proof (a_sharp_search_sim fuel1 h1 start1 end1 s1 oe1 Hs1 He1 Hbs Hbe)
    as Hsim1.
  pose proof (a_sharp_search_sim fuel2 h2 start2 end2 s2 oe2 Hs2 He2
                ltac:(by rewrite Hms) ltac:(by rewrite Hme)) as Hsim2.
  cbv zeta in Hsim1, Hsim2. rewrite Hms, Hme in Hsim2.
  destruct (parity_differs (matrix s1) (matrix oe1)).
  { rewrite Hsim1 in Hrun1. rewrite Hsim2 in Hrun2. by simplify_eq. }
  destruct (ref_search fuel1 (matrix s1) (matrix oe1)) as [o1|] eqn:Href1;
    [|by rewrite Hsim1 in Hrun1].
  destruct (ref_search fuel2 (matrix s1) (matrix oe1)) as [o2|] eqn:Href2;
    [|by rewrite Hsim2 in Hrun2].
  assert (o2 = o1) as ->.
  { unfold ref_search in *.
    pose proof (ref_loop_mono _ (fuel1 `max` fuel2) _ _ _ _ Href1
                  ltac:(lia)) as Ha.
    pose proof (ref_loop_mono _ (fuel1 `max` fuel2) _ _ _ _ Href2
                  ltac:(lia)) as Hb.
    congruence. }
  destruct o1 as [n|].
  - destruct Hsim1 as (l1 & news1 & Hl1 & Hrepr1 & _).
    destruct Hsim2 as (l2 & news2 & Hl2 & Hrepr2 & _).
    rewrite Hl1 in Hrun1. rewrite Hl2 in Hrun2.
    injection Hrun1 as <- <-. injection Hrun2 as <- <-.
    destruct (ref_loop_found fuel1 (matrix s1) (matrix oe1) _ _ n
                (ref_search_inv _ _ Hbs) Href1) as (_ & _ & Htrail).
    exists (board n :: trail n). split; [done|].
    destruct Hrepr1 as (_ & _ & _ & _ & _ & Hc1).
    destruct Hrepr2 as (_ & _ & _ & _ & _ & Hc2).
    split; intros fuel Hfuel.
    + eapply chain_path_boards; [|exact Hc1|done].
      intros o Ho. rewrite lookup_app_l_Some
        with (x := started s1 end1 (matrix oe1)) in Ho.
      * by injection Ho as <-.
      * apply list_lookup_insert_eq. by eapply lookup_lt_Some.
    + eapply chain_path_boards; [|exact Hc2|done].
      intros o Ho. rewrite lookup_app_l_Some
        with (x := started s2 end2 (matrix oe1)) in Ho.
      * by injection Ho as <-.
      * apply list_lookup_insert_eq. by eapply lookup_lt_Some.
  - destruct Hsim1 as (news1 & Hl1). destruct Hsim2 as (news2 & Hl2).
    rewrite Hl1 in Hrun1. rewrite Hl2 in Hrun2. by simplify_eq.
Qed.

(** C4: started on two boards, the search ends after finitely many turns:
    it raises for the parity, or it returns a state, or it raises because
    the list is empty; and whatever the number of turns, no arrangement is
    expanded twice. *)
Theorem search_terminates `{TupleHash} (h : heap) (start end_ : loc)
    (s oe : EFPState) :
  h !! start = Some s → h !! end_ = Some oe →
  is_board (matrix s) → is_board (matrix oe) →
  (∃ fuel r h',
      a_sharp_search fuel start end_ h = Some (r, h')
      ∧ (r = Raise (RuntimeError DifferentParity)
         ∨ r = Raise (IndexError PopFromEmptyList)
         ∨ ∃ res, r = Ok res))
  ∧ ∀ fuel, NoDup (a_sharp_expansions fuel start end_ h).
Proof.
  intros Hs He Hbs Hbe. split; [|intros; apply a_sharp_expansions_NoDup].
  destruct (ref_search_terminates (matrix s) (matrix oe) Hbs) as (fuel & r & Hr).
  pose proof (a_sharp_search_sim fuel h start end_ s oe Hs He Hbs Hbe) as Hsim.
  simpl in Hsim. exists fuel.
  destruct (parity_differs (matrix s) (matrix oe)); [by eauto 10|].
  rewrite Hr in Hsim. destruct r as [n|].
  - destruct Hsim as (l & news & -> & _). eauto 10.
  - destruct Hsim as (news & ->). eauto 10.
Qed.

(** C2 (what the code does instead): when the list is empty at the start of
    a turn, [process_list.pop(0)] raises [IndexError]; the loop has no
    other way to report that the list ran out. *)
Theorem empty_list_raises_IndexError `{TupleHash} (fuel : nat) (end_ : loc)
    (visited : gmap Z bool) (h : heap) :
  loop_body end_ visited [] h = (Raise (IndexError PopFromEmptyList), h)
  ∧ while_loop (S fuel) end_ visited [] h
    = Some (Raise (IndexError PopFromEmptyList), h).
Proof. done. Qed.

(** C10 (amended): the first statements of [a_sharp_search] store in
    [start] the distance to [end] and the reference to [end], and leave its
    arrangement and its predecessor as they were; whatever the search then
    does, the objects of the heap stay as these statements left them, so
    [end] is as before when it is another object than [start]. *)
Theorem search_frame `{TupleHash} (fuel : nat) (h h' : heap) (start end_ : loc)
    (s oe : EFPState) (r : result loc) :
  h !! start = Some s → h !! end_ = Some oe →
  is_board (matrix s) → is_board (matrix oe) →
  a_sharp_search fuel start end_ h = Some (r, h') →
  ∃ d news,
    distance (matrix s) (matrix oe) = Ok d
    ∧ (prologue start end_ h).2
      = <[start := mkEFPState (matrix s) d (Some end_) (prev_state s)]> h
    ∧ h' = <[start := mkEFPState (matrix s) d (Some end_) (prev_state s)]> h
           ++ news
    ∧ h' !! start = Some (mkEFPState (matrix s) d (Some end_) (prev_state s))
    ∧ (start ≠ end_ → h' !! end_ = Some oe).
Proof.
  intros Hs He Hbs Hbe Hrun.
  exists (distance_spec (matrix s) (matrix oe)).
  fold (started s end_ (matrix oe)).
  set (h1 := <[start := started s end_ (matrix oe)]> h).
  assert (∃ news, h' = h1 ++ news) as [news ->].
  { pose proof (a_sharp_search_sim fuel h start end_ s oe Hs He Hbs Hbe) as Hsim.
    simpl in Hsim. fold h1 in Hsim.
    destruct (parity_differs (matrix s) (matrix oe)).
    { rewrite Hsim in Hrun. injection Hrun as <- <-. exists [].
      by rewrite app_nil_r. }
    destruct (ref_search fuel (matrix s) (matrix oe)) as [[n|]|].
    - destruct Hsim as (l & news & Hl & _). rewrite Hl in Hrun.
      injection Hrun as <- <-. by exists news.
    - destruct Hsim as (news & Hl). rewrite Hl in Hrun.
      injection Hrun as <- <-. by exists news.
    - rewrite Hsim in Hrun. done. }
  exists news. split; [by apply distance_board|].
  split; [by rewrite (prologue_board h start end_ s oe)|]. split; [done|].
  split.
  - apply lookup_app_l_Some, list_lookup_insert_eq. by eapply lookup_lt_Some.
  - intros Hne. apply lookup_app_l_Some. unfold h1.
    by rewrite list_lookup_insert_ne.
Qed.

(** ** The parity test *)

(** X28: when the two counts of [count_inversions] differ by an odd number,
    the search raises before its loop and expands nothing; the start holds
    its new [distance_to_end] and goal, and nothing else has changed. *)
Lemma parity_refusal `{TupleHash} (fuel : nat) (h : heap) (start end_ : loc)
    (s oe : EFPState) :
  h !! start = Some s → h !! end_ = Some oe →
  is_board (matrix s) → is_board (matrix oe) →
  (count_inversions (to_sequence (matrix s))
   - count_inversions (to_sequence (matrix oe))) `mod` 2 ≠ 0 →
  a_sharp_search fuel start end_ h
  = Some (Raise (RuntimeError DifferentParity),
          <[start := started s end_ (matrix oe)]> h)
  ∧ a_sharp_expansions fuel start end_ h = [].
Proof.
  intros Hs He Hbs Hbe Hodd.
  unfold a_sharp_search, a_sharp_expansions.
  rewrite (prologue_board h start end_ s oe Hs He Hbs Hbe).
  unfold parity_differs. by rewrite bool_decide_eq_true_2.
Qed.

(** C1 (the code against the claim): [count_inversions] is applied to the
    whole sequence and counts the pairs whose second value is the blank.  On
    the goal of [main] it returns 7, where the boards have 2 inversions of
    nonzero values.  The blank moves by one place when it slides sideways,
    so the count changes parity: a start one slide from the goal is turned
    down with "no solution". *)
Theorem count_inversions_counts_blank :
  count_inversions main_end = 7
  ∧ inversions_spec main_end = 2
  ∧ Z.of_nat (length (blank_pairs main_end)) = 5
  ∧ slide (matrix_of_sequence one_slide_away) MoveRight
    = Ok (matrix_of_sequence main_end)
  ∧ ∀ fuel,
      fst <$> @a_sharp_search cpython_tuple_hash fuel 1 0
                (two_states main_end one_slide_away)
      = Some (Raise (RuntimeError DifferentParity)).
Proof.
  split; [reflexivity|]. split; [reflexivity|]. split; [reflexivity|].
  split; [reflexivity|]. intros fuel. reflexivity.
Qed.

(** C5 (the code against the claim): the inversions of [tiles_exchanged]
    and of the goal differ by one, yet the test of the code, which counts the
    blank, finds an even difference; the search enters its loop and expands
    the start. *)
Theorem odd_inversions_not_refused :
  (inversions_spec tiles_exchanged - inversions_spec main_end) `mod` 2 = 1
  ∧ (count_inversions tiles_exchanged - count_inversions main_end) `mod` 2 = 0
  ∧ (prologue 1 0 (two_states main_end tiles_exchanged)).1 = Ok ()
  ∧ @a_sharp_search cpython_tuple_hash 1 1 0
      (two_states main_end tiles_exchanged) = None
  ∧ @a_sharp_expansions cpython_tuple_hash 1 1 0
      (two_states main_end tiles_exchanged)
    = [matrix_of_sequence tiles_exchanged].
Proof. repeat split; vm_compute; reflexivity. Qed.

(** C10 (the claim as stated fails): when the same object is passed as
    start and as goal, the goal object is written to. *)
Lemma end_mutated_when_aliased :
  ∃ r h',
    @a_sharp_search cpython_tuple_hash 1 0 0 [new_state main_end] = Some (r, h')
    ∧ [new_state main_end] !! 0%nat = Some (new_state main_end)
    ∧ h' !! 0%nat
      = Some (mkEFPState (matrix_of_sequence main_end) 0 (Some 0%nat) None)
    ∧ h' !! 0%nat ≠ [new_state main_end] !! 0%nat.
Proof.
  eexists _, _. split; [vm_compute; reflexivity|].
  split; [reflexivity|]. split; [reflexivity|]. discriminate.
Qed.

(** ** The theorems at concrete boards *)

Ltac concrete_board := split; [reflexivity | compute_done].

Lemma distance_zero_and_symmetric_witness :
  distance (matrix_of_sequence main_start) (matrix_of_sequence main_end) = Ok 14
  ∧ distance (matrix_of_sequence main_end) (matrix_of_sequence main_start) = Ok 14
  ∧ distance (matrix_of_sequence main_start) (matrix_of_sequence main_start) = Ok 0.
Proof.
  destruct (distance_zero_and_symmetric
              (matrix_of_sequence main_start) (matrix_of_sequence main_end))
    as (Hd & H0 & Hsym); [concrete_board..|].
  split; [reflexivity|]. split; [|exact H0].
  rewrite <- Hsym. reflexivity.
Defined.

Lemma extend_legal_successors_witness :
  ∃ locs news,
    extend 0 [new_state main_start] = (Ok locs, [new_state main_start] ++ news)
    ∧ length locs = 3%nat.
Proof.
  destruct (extend_legal_successors [new_state main_start] 0
              (new_state main_start))
    as (p & locs & news & Hext & Hp & Hlen & _);
    [reflexivity | concrete_board | exact I |].
  exists locs, news. split; [exact Hext|].
  rewrite Hlen. vm_compute in Hp. injection Hp as <-. reflexivity.
Defined.



Lemma search_twice_same_path_witness :
  ∃ res1 h1 res2 h2,
    @a_sharp_search cpython_tuple_hash 10 1 0
      (two_states main_end two_slides_away) = Some (Ok res1, h1)
    ∧ @a_sharp_search cpython_tuple_hash 10 1 0 h1 = Some (Ok res2, h2)
    ∧ ∃ boards,
        trail_ok (matrix_of_sequence two_slides_away) boards
        ∧ (∀ fuel, (length boards ≤ fuel)%nat →
                   path_boards fuel h1 res1 = Some boards)
        ∧ (∀ fuel, (length boards ≤ fuel)%nat →
                   path_boards fuel h2 res2 = Some boards).
Proof.
  eexists _, _, _, _.
  split; [vm_compute; reflexivity|]. split; [vm_compute; reflexivity|].
  match goal with
  | |- ∃ boards, _ ∧ (∀ f1, _ → path_boards f1 ?h1 ?res1 = _)
                   ∧ (∀ f2, _ → path_boards f2 ?h2 ?res2 = _) =>
      eapply (@search_twice_same_path cpython_tuple_hash 10 10
                (two_states main_end two_slides_away) h1 h1 h2 1 0 1 0
                (new_state two_slides_away) (new_state main_end) _ _
                (Ok res1) (Ok res2))
  end;
    [ reflexivity | reflexivity | reflexivity | reflexivity
    | reflexivity | reflexivity | concrete_board | concrete_board
    | reflexivity | reflexivity
    | vm_compute; reflexivity | vm_compute; reflexivity ].
Defined.

(** With the sort of the code, the search with a sort as parameter is the
    search on boards that the code refines. *)
Lemma ties_search_ref_sort `{TupleHash} (fuel : nat) (start goal : arrangement) :
  ties_search ref_sort fuel start goal = ref_search fuel start goal.
Proof.
  unfold ties_search, ref_search. generalize (∅ : gmap Z bool).
  generalize [mkNode start (distance_spec start goal) []].
  induction fuel as [|fuel IH]; intros frontier visited; [done|].
  simpl. change (ties_body ref_sort goal visited frontier)
    with (ref_body goal visited frontier).
  destruct (ref_body goal visited frontier); auto.
Qed.

(** C8 (the claim as stated fails): the length of the path depends on the
    order among states of equal distance.  From [ties_start] the search of
    the code returns a path of 11 boards, ten slides; with the ties in the
    other order the search returns a path of 9 boards, eight slides, to the
    same goal; with the sort of the code, the search that takes the sort as
    a parameter returns 11 boards as the code does. *)
Lemma tie_breaking_changes_length :
  (∃ res h',
     @a_sharp_search cpython_tuple_hash 20 1 0 (two_states main_end ties_start)
     = Some (Ok res, h')
     ∧ length <$> path_boards 20 h' res = Some 11%nat)
  ∧ (∃ n,
       @ties_search cpython_tuple_hash sort_ties_reversed 20
         (matrix_of_sequence ties_start) (matrix_of_sequence main_end)
       = Some (Some n)
       ∧ board n = matrix_of_sequence main_end
       ∧ length (board n :: trail n) = 9%nat)
  ∧ (∃ n,
       @ties_search cpython_tuple_hash ref_sort 20
         (matrix_of_sequence ties_start) (matrix_of_sequence main_end)
       = Some (Some n)
       ∧ board n = matrix_of_sequence main_end
       ∧ length (board n :: trail n) = 11%nat).
Proof.
  split; [|split].
  - eexists _, _. split; vm_compute; reflexivity.
  - eexists. split; [vm_compute; reflexivity|]. split; vm_compute; reflexivity.
  - eexists. split; [vm_compute; reflexivity|]. split; vm_compute; reflexivity.
Qed.

Lemma search_terminates_witness :
  (∃ fuel r h',
      @a_sharp_search cpython_tuple_hash fuel 1 0
        (two_states main_end main_start) = Some (r, h')
      ∧ (r = Raise (RuntimeError DifferentParity)
         ∨ r = Raise (IndexError PopFromEmptyList)
         ∨ ∃ res, r = Ok res))
  ∧ ∀ fuel,
      NoDup (@a_sharp_expansions cpython_tuple_hash fuel 1 0
               (two_states main_end main_start)).
Proof.
  apply (@search_terminates cpython_tuple_hash
           (two_states main_end main_start) 1 0
           (new_state main_start) (new_state main_end));
    [reflexivity | reflexivity | concrete_board | concrete_board].
Defined.

Lemma search_frame_witness :
  ∃ r h' news,
    @a_sharp_search cpython_tuple_hash 10 1 0
      (two_states main_end two_slides_away) = Some (r, h')
    ∧ h' = [new_state main_end;
            mkEFPState (matrix_of_sequence two_slides_away) 2 (Some 0%nat) None]
           ++ news
    ∧ h' !! 0%nat = Some (new_state main_end).
Proof.
  eexists _, _.
  destruct (@search_frame cpython_tuple_hash 10
              (two_states main_end two_slides_away) _ 1 0
              (new_state two_slides_away) (new_state main_end) _
              eq_refl eq_refl ltac:(concrete_board) ltac:(concrete_board)
              ltac:(vm_compute; reflexivity))
    as (d & news & Hd & _ & Hh' & _ & Hend).
  exists news. split; [vm_compute; reflexivity|].
  split; [|apply Hend; discriminate].
  rewrite Hh'. f_equal.
  assert (d = 2) as -> by (vm_compute in Hd; congruence). reflexivity.
Defined.

(** ** The tuple hash of CPython has no collision on boards

    The hash is computed on limbs for every ordering of 0 to 8, and the
    keys obtained are sorted and compared. *)

Lemma lor_disjoint (a b : Z) : Z.land a b = 0 → Z.lor a b = a + b.
Proof.
  intros Hd. rewrite <- (Z.lxor_lor _ _ Hd). symmetry. by apply Z.add_nocarry_lxor.
Qed.

Lemma land_shifted_small (m b : Z) :
  0 ≤ b < 2 ^ 31 → Z.land (m * 2 ^ 31) b = 0.
Proof.
  intros Hb. apply Z.bits_inj'. intros n Hn.
  rewrite Z.land_spec, Z.bits_0.
  destruct (decide (n < 31)) as [Hlt|Hge].
  - by rewrite Z.mul_pow2_bits_low.
  - rewrite (Z.bits_above_log2 b n); [apply andb_false_r| |].
    + lia.
    + destruct (decide (b = 0)) as [->|]; [change (Z.log2 0) with 0; lia|].
      apply Z.log2_lt_pow2; [lia|].
      eapply Z.lt_le_trans; [apply Hb|]. apply Z.pow_le_mono_r; lia.
Qed.

Lemma rotate_arith (x : Z) :
  0 ≤ x < 2 ^ 64 →
  CPython.rotate x = (x `mod` 2 ^ 33) * 2 ^ 31 + x `div` 2 ^ 33.
Proof.
  intros Hx. unfold CPython.rotate, CPython.uhash.
  rewrite Z.shiftl_mul_pow2, Z.shiftr_div_pow2 by lia.
  rewrite <- Z.land_ones, Z.land_lor_distr_l, !Z.land_ones by lia.
  change (2 ^ 64) with (2 ^ 33 * 2 ^ 31).
  rewrite Z.mul_mod_distr_r by lia.
  assert (0 ≤ x `div` 2 ^ 33 < 2 ^ 31) as Hq.
  { split; [apply Z.div_pos; lia|]. apply Z.div_lt_upper_bound; lia. }
  rewrite (Z.mod_small (x `div` 2 ^ 33)) by lia.
  apply lor_disjoint, land_shifted_small, Hq.
Qed.

Module LimbFacts.
Import Uint63 Limbs.

Lemma wB_eq : wB = 9223372036854775808.
Proof. reflexivity. Qed.

Lemma norm_spec (r0 r1 r2 r3 : int) :
  to_Z r0 < 2 ^ 40 → to_Z r1 < 2 ^ 40 → to_Z r2 < 2 ^ 40 → to_Z r3 < 2 ^ 40 →
  wf (norm r0 r1 r2 r3)
  ∧ val (norm r0 r1 r2 r3)
    = (to_Z r0 + to_Z r1 * 2 ^ 16 + to_Z r2 * 2 ^ 32 + to_Z r3 * 2 ^ 48) `mod` 2 ^ 64.
Proof.
  intros H0 H1 H2 H3.
  pose proof (to_Z_bounded r0). pose proof (to_Z_bounded r1).
  pose proof (to_Z_bounded r2). pose proof (to_Z_bounded r3).
  unfold wf, val, norm. cbn [w0 w1 w2 w3].
  rewrite !mod_spec, !add_spec, !div_spec, !add_spec, !div_spec, !add_spec,
    !div_spec.
  change (to_Z 65536%uint63) with 65536. rewrite wB_eq in *.
  generalize dependent (to_Z r0). generalize dependent (to_Z r1).
  generalize dependent (to_Z r2). generalize dependent (to_Z r3).
  intros d ? ? c ? ? b ? ? a ? ?.
  change (2 ^ 16) with 65536. change (2 ^ 32) with 4294967296.
  change (2 ^ 48) with 281474976710656. change (2 ^ 40) with 1099511627776 in *.
  change (2 ^ 64) with 18446744073709551616.
  rewrite (Z.mod_small (b + a `div` 65536)) by (Z.div_mod_to_equations; lia).
  rewrite (Z.mod_small (c + _ `div` 65536)) by (Z.div_mod_to_equations; lia).
  rewrite (Z.mod_small (d + _ `div` 65536)) by (Z.div_mod_to_equations; lia).
  Z.div_mod_to_equations; lia.
Qed.

Lemma product_small (a b : int) :
  to_Z a < 2 ^ 16 → to_Z b < 2 ^ 20 →
  to_Z (a * b)%uint63 = to_Z a * to_Z b ∧ 0 ≤ to_Z a * to_Z b < 2 ^ 36.
Proof.
  intros Ha Hb. pose proof (to_Z_bounded a). pose proof (to_Z_bounded b).
  assert (0 ≤ to_Z a * to_Z b < 2 ^ 36) as Hab by nia.
  split; [|done]. rewrite mul_spec, Z.mod_small; [done|]. rewrite wB_eq. lia.
Qed.

Lemma sum_small (a b : int) :
  to_Z a + to_Z b < 2 ^ 62 → to_Z (a + b)%uint63 = to_Z a + to_Z b.
Proof.
  intros Hab. pose proof (to_Z_bounded a). pose proof (to_Z_bounded b).
  rewrite add_spec, Z.mod_small; [done|]. rewrite wB_eq. lia.
Qed.

Lemma mul_val (x p : word) :
  wf x → wf p →
  wf (mul x p) ∧ val (mul x p) = (val x * val p) `mod` 2 ^ 64.
Proof.
  intros (Hx0 & Hx1 & Hx2 & Hx3) (Hp0 & Hp1 & Hp2 & Hp3). unfold mul.
  destruct (product_small (w0 x) (w0 p)) as [E00 B00]; [lia..|].
  destruct (product_small (w0 x) (w1 p)) as [E01 B01]; [lia..|].
  destruct (product_small (w1 x) (w0 p)) as [E10 B10]; [lia..|].
  destruct (product_small (w0 x) (w2 p)) as [E02 B02]; [lia..|].
  destruct (product_small (w1 x) (w1 p)) as [E11 B11]; [lia..|].
  destruct (product_small (w2 x) (w0 p)) as [E20 B20]; [lia..|].
  destruct (product_small (w0 x) (w3 p)) as [E03 B03]; [lia..|].
  destruct (product_small (w1 x) (w2 p)) as [E12 B12]; [lia..|].
  destruct (product_small (w2 x) (w1 p)) as [E21 B21]; [lia..|].
  destruct (product_small (w3 x) (w0 p)) as [E30 B30]; [lia..|].
  assert (to_Z (w0 x * w1 p + w1 x * w0 p)%uint63
          = to_Z (w0 x) * to_Z (w1 p) + to_Z (w1 x) * to_Z (w0 p)) as E1.
  { rewrite sum_small; rewrite E01, E10; lia. }
  assert (to_Z (w0 x * w2 p + w1 x * w1 p + w2 x * w0 p)%uint63
          = to_Z (w0 x) * to_Z (w2 p) + to_Z (w1 x) * to_Z (w1 p)
            + to_Z (w2 x) * to_Z (w0 p)) as E2.
  { rewrite !sum_small; rewrite ?sum_small; rewrite ?E02, ?E11, ?E20; lia. }
  assert (to_Z (w0 x * w3 p + w1 x * w2 p + w2 x * w1 p + w3 x * w0 p)%uint63
          = to_Z (w0 x) * to_Z (w3 p) + to_Z (w1 x) * to_Z (w2 p)
            + to_Z (w2 x) * to_Z (w1 p) + to_Z (w3 x) * to_Z (w0 p)) as E3.
  { rewrite !sum_small; rewrite ?sum_small; rewrite ?sum_small;
      rewrite ?E03, ?E12, ?E21, ?E30; lia. }
  destruct (norm_spec (w0 x * w0 p)%uint63
              (w0 x * w1 p + w1 x * w0 p)%uint63
              (w0 x * w2 p + w1 x * w1 p + w2 x * w0 p)%uint63
              (w0 x * w3 p + w1 x * w2 p + w2 x * w1 p + w3 x * w0 p)%uint63)
    as [Hwf Hval]; [rewrite ?E00, ?E1, ?E2, ?E3; lia..|].
  split; [done|]. rewrite Hval, E00, E1, E2, E3. unfold val.
  set (T := to_Z (w1 x) * to_Z (w3 p) + to_Z (w2 x) * to_Z (w2 p)
            + to_Z (w3 x) * to_Z (w1 p)
            + (to_Z (w2 x) * to_Z (w3 p) + to_Z (w3 x) * to_Z (w2 p)) * 2 ^ 16
            + to_Z (w3 x) * to_Z (w3 p) * 2 ^ 32).
  rewrite <- (Z.mod_add _ T (2 ^ 64)) by lia. f_equal. unfold T. ring.
Qed.

Lemma add_scaled_val (a : word) (k : int) (p : word) :
  wf a → wf p → to_Z k < 2 ^ 16 →
  wf (add_scaled a k p)
  ∧ val (add_scaled a k p) = (val a + to_Z k * val p) `mod` 2 ^ 64.
Proof.
  intros (Ha0 & Ha1 & Ha2 & Ha3) (Hp0 & Hp1 & Hp2 & Hp3) Hk. unfold add_scaled.
  pose proof (to_Z_bounded (w0 a)). pose proof (to_Z_bounded (w1 a)).
  pose proof (to_Z_bounded (w2 a)). pose proof (to_Z_bounded (w3 a)).
  destruct (product_small k (w0 p)) as [E0 B0]; [lia..|].
  destruct (product_small k (w1 p)) as [E1 B1]; [lia..|].
  destruct (product_small k (w2 p)) as [E2 B2]; [lia..|].
  destruct (product_small k (w3 p)) as [E3 B3]; [lia..|].
  assert (to_Z (w0 a + k * w0 p)%uint63 = to_Z (w0 a) + to_Z k * to_Z (w0 p))
    as F0 by (rewrite sum_small; rewrite E0; lia).
  assert (to_Z (w1 a + k * w1 p)%uint63 = to_Z (w1 a) + to_Z k * to_Z (w1 p))
    as F1 by (rewrite sum_small; rewrite E1; lia).
  assert (to_Z (w2 a + k * w2 p)%uint63 = to_Z (w2 a) + to_Z k * to_Z (w2 p))
    as F2 by (rewrite sum_small; rewrite E2; lia).
  assert (to_Z (w3 a + k * w3 p)%uint63 = to_Z (w3 a) + to_Z k * to_Z (w3 p))
    as F3 by (rewrite sum_small; rewrite E3; lia).
  destruct (norm_spec (w0 a + k * w0 p)%uint63 (w1 a + k * w1 p)%uint63
              (w2 a + k * w2 p)%uint63 (w3 a + k * w3 p)%uint63)
    as [Hwf Hval]; [rewrite ?F0, ?F1, ?F2, ?F3; lia..|].
  split; [done|]. rewrite Hval, F0, F1, F2, F3. unfold val. f_equal. ring.
Qed.

Lemma half_limb (a b : int) :
  to_Z a < 2 ^ 16 → to_Z b < 2 ^ 16 →
  to_Z (a / 2 + (b mod 2) * 32768)%uint63
  = to_Z a `div` 2 + (to_Z b `mod` 2) * 32768.
Proof.
  intros Ha Hb. pose proof (to_Z_bounded a). pose proof (to_Z_bounded b).
  rewrite add_spec, mul_spec, div_spec, mod_spec.
  change (to_Z 2%uint63) with 2. change (to_Z 32768%uint63) with 32768.
  rewrite wB_eq. change (2 ^ 16) with 65536 in *.
  rewrite (Z.mod_small (_ * 32768)) by (Z.div_mod_to_equations; lia).
  rewrite Z.mod_small by (Z.div_mod_to_equations; lia). done.
Qed.

Lemma rotl31_val (x : word) :
  wf x →
  wf (rotl31 x)
  ∧ val (rotl31 x) = (val x `mod` 2 ^ 33) * 2 ^ 31 + val x `div` 2 ^ 33.
Proof.
  intros (H0 & H1 & H2 & H3). unfold wf, val, rotl31. cbn [w0 w1 w2 w3].
  rewrite (half_limb (w2 x) (w3 x)), (half_limb (w3 x) (w0 x)),
    (half_limb (w0 x) (w1 x)), (half_limb (w1 x) (w2 x)) by assumption.
  pose proof (to_Z_bounded (w0 x)). pose proof (to_Z_bounded (w1 x)).
  pose proof (to_Z_bounded (w2 x)). pose proof (to_Z_bounded (w3 x)).
  generalize dependent (to_Z (w0 x)). generalize dependent (to_Z (w1 x)).
  generalize dependent (to_Z (w2 x)). generalize dependent (to_Z (w3 x)).
  intros d ? ? c ? ? b ? ? a ? ?.
  change (2 ^ 16) with 65536 in *. change (2 ^ 32) with 4294967296.
  change (2 ^ 48) with 281474976710656. change (2 ^ 33) with 8589934592.
  change (2 ^ 31) with 2147483648.
  Z.div_mod_to_equations; lia.
Qed.

Lemma wf_constants : wf prime_1 ∧ wf prime_2 ∧ wf prime_5 ∧ wf final_9.
Proof. repeat split; reflexivity. Qed.

Lemma int_hash_small (x : Z) :
  Z.abs x < 2 ^ 61 - 1 → x ≠ -1 → CPython.int_hash x = x.
Proof.
  intros Hx Hne. unfold CPython.int_hash, CPython.PyHASH_MODULUS. cbv zeta.
  rewrite Z.mod_small by lia. rewrite Z.mul_comm, Z.abs_sgn.
  by rewrite bool_decide_eq_false_2.
Qed.

Lemma lane_step_val (acc : word) (x : Z) :
  wf acc → 0 ≤ x ≤ 8 →
  wf (lane_step acc x)
  ∧ val (lane_step acc x) = CPython.lane_step (val acc) x.
Proof.
  intros Hacc Hx. unfold lane_step, CPython.lane_step.
  destruct wf_constants as (Hp1 & Hp2 & _ & _).
  assert (to_Z (of_Z x) = x) as Hlane.
  { rewrite of_Z_spec, wB_eq. apply Z.mod_small. lia. }
  destruct (add_scaled_val acc (of_Z x) prime_2 Hacc Hp2) as [Hwf1 Hv1].
  { rewrite Hlane. lia. }
  destruct (rotl31_val _ Hwf1) as [Hwf2 Hv2].
  destruct (mul_val _ prime_1 Hwf2 Hp1) as [Hwf3 Hv3].
  split; [done|]. rewrite Hv3, Hv2, Hv1, Hlane.
  rewrite (int_hash_small x) by lia.
  unfold CPython.uhash at 3. rewrite (Z.mod_small x) by lia.
  change (val prime_2) with CPython.XXPRIME_2.
  change (val prime_1) with CPython.XXPRIME_1.
  unfold CPython.uhash.
  pose proof (Z.mod_pos_bound (val acc + x * CPython.XXPRIME_2) (2 ^ 64)
                ltac:(lia)) as Hb.
  revert Hb. generalize ((val acc + x * CPython.XXPRIME_2) `mod` 2 ^ 64).
  intros a Hb. rewrite (rotate_arith a Hb). reflexivity.
Qed.

Lemma tuplehash_9 (t : list Z) :
  length t = 9%nat → CPython.tuplehash t = finish_9 (foldl CPython.lane_step CPython.XXPRIME_5 t).
Proof. intros Hlen. unfold CPython.tuplehash, finish_9. by rewrite Hlen. Qed.

Lemma eqb_false_to_Z (a b : int) : (a =? b)%uint63 = false → to_Z a ≠ to_Z b.
Proof.
  intros Hab Heq. apply to_Z_inj in Heq. subst. by rewrite eqb_refl in Hab.
Qed.

Lemma key_val (acc : word) :
  wf acc → to_Z (key acc) = finish_9 (val acc) `mod` 2 ^ 63.
Proof.
  intros Hacc. unfold key, finish_9.
  destruct wf_constants as (_ & _ & _ & Hf).
  destruct (add_scaled_val acc 1 final_9 Hacc Hf) as [(H0 & H1 & H2 & H3) Hv].
  { reflexivity. }
  change (to_Z 1) with 1 in Hv. rewrite Z.mul_1_l in Hv.
  change (val final_9) with (Z.lxor 9 (Z.lxor CPython.XXPRIME_5 3527539)) in Hv.
  unfold CPython.uhash. rewrite <- Hv.
  set (u := add_scaled acc 1 final_9) in *.
  pose proof (to_Z_bounded (w0 u)). pose proof (to_Z_bounded (w1 u)).
  pose proof (to_Z_bounded (w2 u)). pose proof (to_Z_bounded (w3 u)).
  assert (val u = 2 ^ 64 - 1
          ↔ to_Z (w0 u) = 65535 ∧ to_Z (w1 u) = 65535
            ∧ to_Z (w2 u) = 65535 ∧ to_Z (w3 u) = 65535) as Hmax.
  { unfold val. change (2 ^ 16) with 65536 in *.
    change (2 ^ 32) with 4294967296. change (2 ^ 48) with 281474976710656.
    change (2 ^ 64) with 18446744073709551616. lia. }
  destruct ((w0 u =? 65535) && (w1 u =? 65535) && (w2 u =? 65535)
            && (w3 u =? 65535))%uint63 eqn:Hall.
  - apply andb_prop in Hall as [Hall E3]. apply andb_prop in Hall as [Hall E2].
    apply andb_prop in Hall as [E0 E1].
    apply eqb_spec in E0, E1, E2, E3.
    rewrite bool_decide_eq_true_2; [reflexivity|].
    apply Hmax. rewrite E0, E1, E2, E3. done.
  - assert (val u ≠ 2 ^ 64 - 1) as Hne.
    { intros (E0 & E1 & E2 & E3)%Hmax.
      change 65535 with (to_Z 65535) in E0, E1, E2, E3.
      apply to_Z_inj in E0, E1, E2, E3. rewrite E0, E1, E2, E3 in Hall. done. }
    rewrite bool_decide_eq_false_2 by done.
    assert (to_Z (w0 u + w1 u * 65536 + w2 u * 4294967296
                  + (w3 u mod 32768) * 281474976710656)%uint63
            = val u `mod` 2 ^ 63) as ->.
    { rewrite !add_spec, !mul_spec, mod_spec.
      change (to_Z 65536) with 65536. change (to_Z 4294967296) with 4294967296.
      change (to_Z 32768) with 32768.
      change (to_Z 281474976710656) with 281474976710656.
      rewrite wB_eq. unfold val.
      change (2 ^ 16) with 65536 in *. change (2 ^ 32) with 4294967296.
      change (2 ^ 48) with 281474976710656.
      change (2 ^ 63) with 9223372036854775808.
      generalize dependent (to_Z (w0 u)). generalize dependent (to_Z (w1 u)).
      generalize dependent (to_Z (w2 u)). generalize dependent (to_Z (w3 u)).
      intros. Z.div_mod_to_equations. lia. }
    case_bool_decide; [done|].
    change (2 ^ 64) with (2 * 2 ^ 63).
    rewrite <- (Z.mod_add (val u - 2 * 2 ^ 63) 2 (2 ^ 63)) by lia.
    f_equal. lia.
Qed.

Lemma foldl_lane_step_val (t : list Z) (acc : word) :
  wf acc → Forall (λ x, 0 ≤ x ≤ 8) t →
  wf (foldl lane_step acc t)
  ∧ val (foldl lane_step acc t) = foldl CPython.lane_step (val acc) t.
Proof.
  intros Hacc Ht. revert acc Hacc.
  induction Ht as [|x t Hx Ht IH]; intros acc Hacc; [done|]. simpl.
  destruct (lane_step_val acc x Hacc Hx) as [Hwf Hv].
  rewrite <- Hv. by apply IH.
Qed.

Lemma key_hash (t : list Z) :
  length t = 9%nat → Forall (λ x, 0 ≤ x ≤ 8) t →
  to_Z (key (foldl lane_step prime_5 t)) = CPython.tuplehash t `mod` 2 ^ 63.
Proof.
  intros Hlen Ht.
  destruct wf_constants as (_ & _ & H5 & _).
  destruct (foldl_lane_step_val t prime_5 H5 Ht) as [Hwf Hv].
  rewrite (key_val _ Hwf), Hv, (tuplehash_9 t Hlen). reflexivity.
Qed.

Lemma selections_split {A : Type} (x : A) (l1 l2 : list A) :
  (x, l1 ++ l2) ∈ selections (l1 ++ x :: l2).
Proof.
  induction l1 as [|y l1 IH]; simpl; [by left|].
  right. apply list_elem_of_fmap. by exists (x, l1 ++ l2).
Qed.

Lemma orderings_complete {A : Type} (t l : list A) :
  t ≡ₚ l → t ∈ orderings (length l) l.
Proof.
  revert l. induction t as [|x t IH]; intros l Hp.
  { symmetry in Hp. apply Permutation_nil_r in Hp. subst l. by left. }
  assert (x ∈ l) as (l1 & l2 & ->)%list_elem_of_split.
  { rewrite <- Hp. by left. }
  rewrite <- Permutation_middle in Hp. apply Permutation_cons_inv in Hp.
  rewrite length_app. simpl. rewrite Nat.add_succ_r, <- length_app. simpl.
  apply list_elem_of_bind. exists (x, l1 ++ l2).
  split; [|apply selections_split].
  simpl. apply list_elem_of_fmap. exists t. split; [done|]. by apply IH.
Qed.

Lemma keys_orderings (n : nat) (acc : word) (rem : list Z) (seen : list int) :
  keys n acc rem seen
  = reverse ((λ t, key (foldl lane_step acc t)) <$> orderings n rem) ++ seen.
Proof.
  revert acc rem seen. induction n as [|n IH]; intros acc rem seen; [done|].
  simpl. generalize (selections rem). intros ps. revert seen.
  induction ps as [|p ps IHps]; intros seen; [done|].
  simpl foldl. rewrite IHps, IH, bind_cons, fmap_app, reverse_app.
  rewrite <- (assoc_L (++)). f_equal. f_equal.
  rewrite <- list_fmap_compose. done.
Qed.

Lemma rev_append_Permutation (acc l : list int) : rev_append acc l ≡ₚ acc ++ l.
Proof. by rewrite rev_append_rev, <- Permutation_rev. Qed.

Lemma merge_acc_Permutation (l1 l2 acc : list int) :
  merge_acc l1 l2 acc ≡ₚ acc ++ l1 ++ l2.
Proof.
  revert l2 acc. induction l1 as [|a l1 IH1]; intros l2 acc.
  { destruct l2; simpl; apply rev_append_Permutation. }
  induction l2 as [|b l2 IH2] in acc |- *.
  { simpl. rewrite rev_append_Permutation. rewrite (app_nil_r l1). reflexivity. }
  simpl. destruct (a <=? b)%uint63.
  - rewrite IH1. simpl. by rewrite (Permutation_middle acc).
  - rewrite IH2. simpl.
    rewrite (Permutation_middle acc), <- (Permutation_middle l1 l2 b).
    apply Permutation_app_head, Permutation_swap.
Qed.

Lemma merge_pairs_Permutation (ls acc : list (list int)) :
  concat (merge_pairs ls acc) ≡ₚ concat ls ++ concat acc.
Proof.
  assert (∀ n ls, (length ls ≤ n)%nat →
            ∀ acc, concat (merge_pairs ls acc) ≡ₚ concat ls ++ concat acc)
    as Hn; [|by apply (Hn (length ls))].
  clear ls acc. induction n as [|n IH]; intros ls Hlen acc.
  { by destruct ls; [|simpl in Hlen; lia]. }
  destruct ls as [|a [|b ls]]; simpl.
  - done.
  - by rewrite app_nil_r.
  - rewrite IH by (simpl in Hlen; lia). simpl.
    rewrite merge_acc_Permutation. simpl.
    rewrite !(assoc_L (++)). apply Permutation_app_tail.
    rewrite <- (assoc_L (++)). apply Permutation_app_comm.
Qed.

Lemma merge_all_Permutation (rounds : nat) (ls : list (list int)) :
  merge_all rounds ls ≡ₚ concat ls.
Proof.
  revert ls. induction rounds as [|rounds IH]; intros ls; [done|].
  destruct ls as [|a [|b ls]]; simpl.
  - done.
  - by rewrite app_nil_r.
  - rewrite IH, merge_pairs_Permutation. simpl.
    rewrite merge_acc_Permutation, !app_nil_r. simpl.
    rewrite (Permutation_app_comm (concat ls)). by rewrite <- (assoc_L (++)).
Qed.

Lemma msort_Permutation (l : list int) : msort l ≡ₚ l.
Proof.
  unfold msort. rewrite merge_all_Permutation.
  assert (∀ acc, concat (foldl (λ acc x, [x] :: acc) acc l) ≡ₚ l ++ concat acc)
    as Hs.
  { induction l as [|x l IH]; intros acc; [done|]. simpl. rewrite IH. simpl.
    by rewrite <- Permutation_middle. }
  rewrite Hs. simpl. by rewrite app_nil_r.
Qed.

Lemma increasing_NoDup (l : list int) : increasing l = true → NoDup l.
Proof.
  assert (∀ l x, increasing (x :: l) = true →
                 Forall (λ y, to_Z x < to_Z y) l ∧ increasing l = true) as Hinc.
  { clear l. induction l as [|y l IH]; intros x Hx; [done|].
    simpl in Hx. destruct (x <? y)%uint63 eqn:Hxy; [|done].
    apply ltb_spec in Hxy. destruct (IH y Hx) as [Hall Hl].
    split; [|done]. constructor; [done|].
    eapply Forall_impl; [exact Hall|]. simpl. intros. lia. }
  induction l as [|x l IH]; intros Hl; [constructor|].
  destruct (Hinc l x Hl) as [Hall Hl']. constructor; [|by apply IH].
  intros Hin. rewrite Forall_forall in Hall. specialize (Hall x Hin). lia.
Qed.

(** No two orderings of 0 to 8 have the same key, and with it the same
    hash: the sorted keys increase strictly. *)
Lemma distinct_keys : increasing (msort (keys 9 prime_5 (seqZ 0 9) [])) = true.
Proof. vm_compute. reflexivity. Qed.

Lemma increasing_keys_NoDup (n : nat) (acc : word) (rem : list Z) :
  increasing (msort (keys n acc rem [])) = true →
  NoDup ((λ t, key (foldl lane_step acc t)) <$> orderings n rem).
Proof.
  intros Hnd%increasing_NoDup.
  rewrite msort_Permutation, keys_orderings, app_nil_r in Hnd.
  by rewrite reverse_Permutation in Hnd.
Qed.

End LimbFacts.

Lemma NoDup_fmap_elem_eq {A B : Type} (f : A → B) (l : list A) (x y : A) :
  NoDup (f <$> l) → x ∈ l → y ∈ l → f x = f y → x = y.
Proof.
  intros Hnd [i Hi]%list_elem_of_lookup [j Hj]%list_elem_of_lookup Hxy.
  assert (i = j) as ->; [|congruence].
  eapply NoDup_lookup; [exact Hnd|..];
    rewrite list_lookup_fmap; [by rewrite Hi|by rewrite Hj, Hxy].
Qed.

(** On the sequences that hold 0 to 8 once each, the tuple hash of CPython
    has no collision. *)
Lemma cpython_hash_injective (s t : list Z) :
  s ≡ₚ seqZ 0 9 → t ≡ₚ seqZ 0 9 →
  CPython.tuplehash s = CPython.tuplehash t → s = t.
Proof.
  intros Hs Ht Hhash.
  assert (∀ u, u ≡ₚ seqZ 0 9 →
               u ∈ Limbs.orderings 9 (seqZ 0 9)
               ∧ Uint63.to_Z (Limbs.key (foldl Limbs.lane_step Limbs.prime_5 u))
                 = CPython.tuplehash u `mod` 2 ^ 63)
    as Hkey.
  { intros u Hu. split.
    - exact (LimbFacts.orderings_complete u (seqZ 0 9) Hu).
    - apply LimbFacts.key_hash; [by rewrite Hu|].
      rewrite Hu. apply Forall_forall. intros x Hx%elem_of_seqZ. lia. }
  destruct (Hkey s Hs) as [Hs' Hks]. destruct (Hkey t Ht) as [Ht' Hkt].
  apply (NoDup_fmap_elem_eq _ _ s t
           (LimbFacts.increasing_keys_NoDup 9 Limbs.prime_5 (seqZ 0 9)
              LimbFacts.distinct_keys) Hs' Ht').
  apply Uint63.to_Z_inj. by rewrite Hks, Hkt, Hhash.
Qed.

(** ** Equality of states under the hash of CPython *)

(** X1: for two states whose arrangements are boards, [==] under the tuple
    hash of CPython holds exactly when the two arrangements are the same,
    cell for cell. *)
Theorem eq_iff_same_arrangement (a b : EFPState) :
  is_board (matrix a) → is_board (matrix b) →
  @EFPState_eq cpython_tuple_hash a b = true ↔ matrix a = matrix b.
Proof.
  intros [Hsa Hpa] [Hsb Hpb]. unfold EFPState_eq, EFPState_hash, to_sequence.
  rewrite bool_decide_eq_true. split; [|by intros ->].
  intros Hh%(cpython_hash_injective _ _ Hpb Hpa).
  rewrite <- (matrix_of_to_sequence _ Hsa), <- (matrix_of_to_sequence _ Hsb).
  unfold to_sequence. by rewrite Hh.
Qed.

Lemma lane_step_minus_one (acc : Z) :
  CPython.lane_step acc (-1) = CPython.lane_step acc (-2).
Proof. reflexivity. Qed.

Lemma tuplehash_minus_one (t : list Z) :
  CPython.tuplehash (minus_one_as_minus_two <$> t) = CPython.tuplehash t.
Proof.
  unfold CPython.tuplehash. rewrite length_fmap.
  assert (∀ acc, foldl CPython.lane_step acc (minus_one_as_minus_two <$> t)
                 = foldl CPython.lane_step acc t) as ->; [|done].
  induction t as [|x t IH]; intros acc; [done|]. csimpl.
  rewrite IH. f_equal. unfold minus_one_as_minus_two.
  case_bool_decide as Hx; [|done]. subst x. symmetry. apply lane_step_minus_one.
Qed.

(** X2: [==] compares hashes and not cells.  Under the hash of CPython,
    where the integer -1 hashes as -2 does, a state is equal to the state in
    which every cell -1 is replaced by -2, whatever the other cells hold,
    and the two arrangements differ as soon as -1 occurs. *)
Theorem eq_confuses_minus_one (a b : EFPState) :
  to_sequence (matrix b) = minus_one_as_minus_two <$> to_sequence (matrix a) →
  @EFPState_eq cpython_tuple_hash a b = true
  ∧ (-1 ∈ to_sequence (matrix a) → matrix a ≠ matrix b).
Proof.
  intros Hb. split.
  - unfold EFPState_eq, EFPState_hash. apply bool_decide_eq_true_2.
    rewrite Hb. apply tuplehash_minus_one.
  - intros Hin Heq. rewrite <- Heq in Hb. rewrite Hb in Hin.
    apply list_elem_of_fmap in Hin as (x & Hx & _).
    unfold minus_one_as_minus_two in Hx. case_bool_decide; lia.
Qed.

Lemma get_index_cases (m : arrangement) (value : Z) :
  length <$> m = [3; 3; 3]%nat →
  match get_index m value with
  | Ok c =>
      ∃ k, (k < 9)%nat ∧ c = cell k
           ∧ matrix_getitem m c = Ok value
           ∧ concat m !! k = Some value
           ∧ ∀ k', (k' < k)%nat → concat m !! k' ≠ Some value
  | Raise e => e = RuntimeError (CouldNotFindIndex value) ∧ value ∉ concat m
  end.
Proof.
  intros (a&b&c&d&e&f&g&h&i&->)%shape_grid. rewrite get_index_grid.
  repeat (case_bool_decide; cbv beta iota;
    [ subst;
      match goal with
      | |- ∃ k, _ ∧ (?i, ?j) = _ ∧ _ =>
          let k := eval vm_compute in (Z.to_nat (3 * i + j)) in exists k
      end;
      split; [lia|]; split; [reflexivity|]; split; [reflexivity|];
      split; [reflexivity|];
      intros k' Hk';
      do 9 (destruct k' as [|k']; [first [lia | simpl; congruence]|]); lia
    | ]).
  split; [done|]. simpl.
  rewrite !not_elem_of_cons. repeat (split; [congruence|]). apply not_elem_of_nil.
Qed.

(** X3: on a matrix of three rows of three cells, [get_index] returns the
    first cell, in row-major order, that holds the value, and raises
    [RuntimeError] exactly when no cell holds it. *)
Theorem get_index_first (m : arrangement) (value : Z) :
  length <$> m = [3; 3; 3]%nat →
  match get_index m value with
  | Ok c =>
      ∃ k, (k < 9)%nat ∧ c = cell k
           ∧ matrix_getitem m c = Ok value
           ∧ concat m !! k = Some value
           ∧ ∀ k', (k' < k)%nat → concat m !! k' ≠ Some value
  | Raise e => e = RuntimeError (CouldNotFindIndex value) ∧ value ∉ concat m
  end.
Proof. apply get_index_cases. Qed.

(** ** Reading and writing cells *)

Lemma py_index_lt (n : nat) (k : Z) (i : nat) :
  py_index n k = Some i → (i < n)%nat.
Proof. unfold py_index. repeat case_bool_decide; intros; simplify_eq; lia. Qed.

Lemma list_getitem_lookup {A : Type} (l : list A) (k : Z) :
  list_getitem l k
  = match py_index (length l) k with
    | Some i => match l !! i with
                | Some a => Ok a
                | None => Raise (IndexError ListIndexOutOfRange)
                end
    | None => Raise (IndexError ListIndexOutOfRange)
    end.
Proof. unfold list_getitem. by destruct (py_index (length l) k). Qed.

(** What [__getitem__] returns, by the cell that the key denotes. *)
Lemma matrix_getitem_resolve (m : arrangement) (key : Z * Z) :
  matrix_getitem m key
  = match resolve (shape m) key with
    | Some rc => match at2 m rc with
                 | Some v => Ok v
                 | None => Raise (IndexError ListIndexOutOfRange)
                 end
    | None => Raise (IndexError ListIndexOutOfRange)
    end.
Proof.
  unfold matrix_getitem, resolve, shape, at2. rewrite list_getitem_lookup.
  rewrite length_fmap.
  destruct (py_index (length m) key.1) as [r|] eqn:Hr; [|done]. simpl.
  rewrite list_lookup_fmap.
  destruct (m !! r) as [row|] eqn:Hrow; [|done]. simpl.
  rewrite list_getitem_lookup.
  destruct (py_index (length row) key.2) as [c|] eqn:Hc; [|done]. simpl.
  by rewrite Hrow.
Qed.

Lemma resolve_at2 (m : arrangement) (key : Z * Z) (rc : nat * nat) :
  resolve (shape m) key = Some rc → is_Some (at2 m rc).
Proof.
  unfold resolve, shape, at2. rewrite length_fmap.
  destruct (py_index (length m) key.1) as [r|] eqn:Hr; [|done]. simpl.
  rewrite list_lookup_fmap.
  destruct (m !! r) as [row|] eqn:Hrow; [|done]. simpl.
  destruct (py_index (length row) key.2) as [c|] eqn:Hc; [|done]. simpl.
  intros [= <-]. simpl. rewrite Hrow. simpl.
  apply lookup_lt_is_Some_2. by eapply py_index_lt.
Qed.

(** What [__setitem__] does to the matrix. *)
Lemma matrix_setitem_resolve (m : arrangement) (key : Z * Z) (value : Z) :
  match resolve (shape m) key with
  | Some rc =>
      ∃ m', matrix_setitem m key value = Ok m'
            ∧ shape m' = shape m
            ∧ ∀ rc', at2 m' rc' = if decide (rc' = rc) then Some value
                                   else at2 m rc'
  | None => matrix_setitem m key value = Raise (IndexError ListIndexOutOfRange)
  end.
Proof.
  unfold matrix_setitem, resolve, shape. rewrite list_getitem_lookup.
  rewrite length_fmap.
  destruct (py_index (length m) key.1) as [r|] eqn:Hr; [|done]. simpl.
  rewrite list_lookup_fmap.
  destruct (m !! r) as [row|] eqn:Hrow; [|done]. simpl.
  unfold list_setitem.
  destruct (py_index (length row) key.2) as [c|] eqn:Hc; [|done]. simpl.
  rewrite Hr. eexists. split; [done|].
  pose proof (py_index_lt _ _ _ Hr) as Hlr.
  pose proof (py_index_lt _ _ _ Hc) as Hlc.
  split.
  - rewrite list_fmap_insert, length_insert. apply list_insert_id.
    by rewrite list_lookup_fmap, Hrow.
  - intros [r' c']. unfold at2. simpl.
    destruct (decide (r' = r)) as [->|Hne].
    + rewrite list_lookup_insert_eq by done. simpl.
      destruct (decide (c' = c)) as [->|Hnc].
      * rewrite list_lookup_insert_eq by done. by rewrite decide_True.
      * rewrite list_lookup_insert_ne by done.
        rewrite decide_False by congruence. by rewrite Hrow.
    + rewrite list_lookup_insert_ne by done.
      by rewrite decide_False by congruence.
Qed.

Lemma at2_ext (m m' : arrangement) :
  shape m' = shape m → (∀ rc, at2 m' rc = at2 m rc) → m' = m.
Proof.
  unfold shape. intros Hsh Hat. apply list_eq. intros r.
  pose proof (f_equal (.!! r) Hsh) as Hr. rewrite !list_lookup_fmap in Hr.
  destruct (m' !! r) as [row'|] eqn:Hrow', (m !! r) as [row|] eqn:Hrow;
    simplify_eq/=; [|done].
  f_equal. apply list_eq. intros c. specialize (Hat (r, c)).
  unfold at2 in Hat. simpl in Hat. by rewrite Hrow', Hrow in Hat.
Qed.

(** [swap] fails only when a key is outside the matrix. *)
Lemma swap_cells_resolve (m : arrangement) (coor1 coor2 : Z * Z) :
  match resolve (shape m) coor1, resolve (shape m) coor2 with
  | Some rc1, Some rc2 =>
      ∃ m' tmp v,
        swap_cells m coor1 coor2 = Ok m'
        ∧ at2 m rc1 = Some tmp ∧ at2 m rc2 = Some v
        ∧ shape m' = shape m
        ∧ ∀ rc, at2 m' rc = if decide (rc = rc2) then Some tmp
                             else if decide (rc = rc1) then Some v
                             else at2 m rc
  | _, _ => swap_cells m coor1 coor2 = Raise (IndexError ListIndexOutOfRange)
  end.
Proof.
  unfold swap_cells. rewrite !matrix_getitem_resolve.
  destruct (resolve (shape m) coor1) as [rc1|] eqn:H1; [|done].
  destruct (resolve_at2 _ _ _ H1) as [tmp Htmp]. rewrite Htmp. simpl.
  destruct (resolve (shape m) coor2) as [rc2|] eqn:H2; [|done].
  destruct (resolve_at2 _ _ _ H2) as [v Hv]. rewrite Hv. simpl.
  pose proof (matrix_setitem_resolve m coor1 v) as Hs1. rewrite H1 in Hs1.
  destruct Hs1 as (m1 & -> & Hsh1 & Hat1). simpl.
  pose proof (matrix_setitem_resolve m1 coor2 tmp) as Hs2.
  rewrite Hsh1, H2 in Hs2. destruct Hs2 as (m2 & -> & Hsh2 & Hat2).
  exists m2, tmp, v. split; [done|]. split; [done|]. split; [done|].
  split; [congruence|]. intros rc. rewrite Hat2.
  destruct (decide (rc = rc2)); [done|]. apply Hat1.
Qed.

Lemma swap_cells_twice (m m' : arrangement) (coor1 coor2 : Z * Z) :
  swap_cells m coor1 coor2 = Ok m' → swap_cells m' coor1 coor2 = Ok m.
Proof.
  intros Hsw. pose proof (swap_cells_resolve m coor1 coor2) as H.
  destruct (resolve (shape m) coor1) as [rc1|] eqn:H1; [|congruence].
  destruct (resolve (shape m) coor2) as [rc2|] eqn:H2; [|congruence].
  destruct H as (m1 & tmp & v & Hm1 & Htmp & Hv & Hsh & Hat).
  assert (m1 = m') as -> by congruence.
  pose proof (swap_cells_resolve m' coor1 coor2) as H'.
  rewrite Hsh, H1, H2 in H'.
  destruct H' as (m2 & tmp' & v' & -> & Htmp' & Hv' & Hsh' & Hat').
  f_equal. apply at2_ext; [congruence|]. intros rc.
  rewrite Hat'. rewrite Hat in Htmp', Hv'.
  rewrite decide_True in Hv' by done.
  destruct (decide (rc = rc2)) as [->|Hn2].
  - destruct (decide (rc1 = rc2)) as [->|]; [congruence|].
    rewrite decide_True in Htmp' by done. congruence.
  - destruct (decide (rc = rc1)) as [->|Hn1]; [congruence|].
    rewrite Hat. by rewrite !decide_False by done.
Qed.

(** ** The methods on an object anywhere in the heap *)

Lemma getitem_at (h : heap) (self : loc) (o : EFPState) (key : Z * Z) :
  h !! self = Some o → getitem self key h = (matrix_getitem (matrix o) key, h).
Proof.
  intros Hs. unfold getitem.
  by rewrite (bind_ok _ _ _ _ _ (deref_Some h self o Hs)).
Qed.

Lemma setitem_at (h : heap) (self : loc) (o : EFPState) (key : Z * Z) (value : Z) :
  h !! self = Some o →
  setitem self key value h
  = match matrix_setitem (matrix o) key value with
    | Ok m => (Ok (), <[self := with_matrix m o]> h)
    | Raise e => (Raise e, h)
    end.
Proof.
  intros Hs. unfold setitem.
  rewrite (bind_ok _ _ _ _ _ (deref_Some h self o Hs)).
  unfold lift, mbind, M_bind.
  destruct (matrix_setitem (matrix o) key value); [|done].
  by apply assign_Some.
Qed.

Lemma update_distance_at (h : heap) (self : loc) (o : EFPState) :
  h !! self = Some o →
  update_distance_to_end self h
  = match end_state o with
    | None => (Ok (), <[self := with_distance_to_end (-1) o]> h)
    | Some e =>
        match h !! e with
        | None => (Raise DanglingReference, h)
        | Some oe =>
            match distance (matrix o) (matrix oe) with
            | Ok d => (Ok (), <[self := with_distance_to_end d o]> h)
            | Raise ex => (Raise ex, h)
            end
        end
    end.
Proof.
  intros Hs. unfold update_distance_to_end.
  rewrite (bind_ok _ _ _ _ _ (deref_Some h self o Hs)).
  destruct (end_state o) as [e|]; [|by apply assign_Some].
  unfold mbind, M_bind, deref, lift.
  destruct (h !! e) as [oe|]; [|done].
  destruct (distance (matrix o) (matrix oe)); [|done].
  by apply assign_Some.
Qed.

Lemma swap_at (h : heap) (self : loc) (o : EFPState) (coor1 coor2 : Z * Z) :
  h !! self = Some o →
  swap self coor1 coor2 h
  = match swap_cells (matrix o) coor1 coor2 with
    | Ok m' => update_distance_to_end self (<[self := with_matrix m' o]> h)
    | Raise e => (Raise e, h)
    end.
Proof.
  intros Hs. pose proof (lookup_lt_Some _ _ _ Hs) as Hlt.
  pose proof (swap_cells_resolve (matrix o) coor1 coor2) as Hres.
  unfold swap, swap_cells in *. unfold mbind at 1 2, M_bind.
  rewrite !(getitem_at h self o) by done.
  rewrite !matrix_getitem_resolve in *.
  destruct (resolve (shape (matrix o)) coor1) as [rc1|]; [|done].
  destruct (at2 (matrix o) rc1) as [tmp|]; [|done].
  destruct (resolve (shape (matrix o)) coor2) as [rc2|]; [|done].
  destruct (at2 (matrix o) rc2) as [v|]; [|done].
  cbv beta iota delta [mbind result_bind] in Hres |- *.
  unfold M_bind. rewrite (setitem_at h self o) by done.
  destruct Hres as (m' & ? & ? & Hsw & _).
  destruct (matrix_setitem (matrix o) coor1 v) as [m1|]; [|done].
  rewrite (setitem_at _ self (with_matrix m1 o))
    by (by apply list_lookup_insert_eq).
  simpl. rewrite Hsw. by rewrite list_insert_insert_eq.
Qed.

Lemma move_at (h : heap) (self : loc) (o : EFPState) (d : direction) :
  h !! self = Some o →
  move self (flags d).1.1.1 (flags d).1.1.2 (flags d).1.2 (flags d).2 h
  = match slide (matrix o) d with
    | Ok m' =>
        match update_distance_to_end self (<[self := with_matrix m' o]> h) with
        | (Ok _, h') => (Ok self, h')
        | (Raise e, h') => (Raise e, h')
        end
    | Raise e => (Raise e, h)
    end.
Proof.
  intros Hs. unfold move, slide.
  rewrite (bind_ok _ _ _ _ _ (deref_Some h self o Hs)).
  unfold lift, mbind at 1, M_bind at 1.
  destruct (get_index (matrix o) 0) as [zero_index|]; [|done].
  cbv beta iota delta [mbind result_bind]. unfold M_bind.
  destruct d; simpl; case_bool_decide; try done;
    rewrite (swap_at h self o) by done;
    (destruct (swap_cells (matrix o) zero_index _); [|done]);
    by destruct (update_distance_to_end _ _) as [[[]|] ?].
Qed.

(** The keyword arguments in general: the first one that is set decides. *)
Lemma move_first_flag (self : loc) (l r u d : bool) :
  move self l r u d
  = if l then move self true false false false
    else if r then move self false true false false
    else if u then move self false false true false
    else if d then move self false false false true
    else move self false false false false.
Proof. by destruct l, r, u, d. Qed.

Lemma deref_inv {A : Type} (self : loc) (f : EFPState → M A) (h h' : heap)
    (a : A) :
  (deref self ≫= f) h = (Ok a, h') → ∃ o, h !! self = Some o ∧ f o h = (Ok a, h').
Proof.
  unfold mbind, M_bind, deref. destruct (h !! self) as [o|]; [|done]. eauto.
Qed.

Lemma resolve_3x3 (key : Z * Z) :
  resolve [3; 3; 3]%nat key = None ↔ ¬ (-3 ≤ key.1 < 3 ∧ -3 ≤ key.2 < 3).
Proof.
  destruct key as [i j]. unfold resolve, py_index. simpl.
  repeat case_bool_decide; simpl;
    try (split; [done | lia]); try (split; [lia | done]).
  all: destruct (Z.to_nat _) as [|[|[|?]]] eqn:Hn; simpl;
    repeat case_bool_decide; simpl; split; try done; lia.
Qed.

(** X4: after [self[key] = value] the cell that [key] denotes holds
    [value]; the shape of the matrix, its other cells, the other attributes
    of the object ([distance_to_end] is not recomputed) and the other
    objects are as before. *)
Theorem setitem_then_getitem (h h' : heap) (self : loc) (key : Z * Z) (value : Z) :
  setitem self key value h = (Ok (), h') →
  getitem self key h' = (Ok value, h')
  ∧ ∃ o m',
      h !! self = Some o
      ∧ h' = <[self := with_matrix m' o]> h
      ∧ shape m' = shape (matrix o)
      ∧ ∀ key', resolve (shape (matrix o)) key' ≠ resolve (shape (matrix o)) key →
                matrix_getitem m' key' = matrix_getitem (matrix o) key'.
Proof.
  intros Hset. pose proof Hset as (o & Hs & _)%deref_inv.
  rewrite (setitem_at h self o) in Hset by done.
  pose proof (matrix_setitem_resolve (matrix o) key value) as Hres.
  destruct (resolve (shape (matrix o)) key) as [rc|] eqn:Hrc;
    [|by rewrite Hres in Hset].
  destruct Hres as (m' & Hm' & Hsh & Hat). rewrite Hm' in Hset.
  injection Hset as <-. split.
  - rewrite (getitem_at _ self (with_matrix m' o))
      by (apply list_lookup_insert_eq; by eapply lookup_lt_Some).
    simpl. rewrite matrix_getitem_resolve, Hsh, Hrc, Hat.
    by rewrite decide_True.
  - exists o, m'. split; [done|]. split; [done|]. split; [done|].
    intros key' Hne. rewrite !matrix_getitem_resolve, Hsh.
    destruct (resolve (shape (matrix o)) key') as [rc'|]; [|done].
    rewrite Hat. by rewrite decide_False by congruence.
Qed.

(** X5: on a matrix of three rows of three cells, a key whose row or column
    is outside -3..2 makes [__getitem__] and [__setitem__] raise
    [IndexError], and the assignment changes nothing. *)
Theorem setitem_outside (h : heap) (self : loc) (o : EFPState) (key : Z * Z)
    (value : Z) :
  h !! self = Some o → length <$> matrix o = [3; 3; 3]%nat →
  ¬ (-3 ≤ key.1 < 3 ∧ -3 ≤ key.2 < 3) →
  getitem self key h = (Raise (IndexError ListIndexOutOfRange), h)
  ∧ setitem self key value h = (Raise (IndexError ListIndexOutOfRange), h).
Proof.
  intros Hs Hsh Hkey%resolve_3x3.
  rewrite (getitem_at h self o), (setitem_at h self o) by done.
  pose proof (matrix_setitem_resolve (matrix o) key value) as Hres.
  rewrite matrix_getitem_resolve. unfold shape in *.
  rewrite Hsh, Hkey in *. by rewrite Hres.
Qed.

Lemma update_distance_Ok (h h' : heap) (self : loc) :
  update_distance_to_end self h = (Ok (), h') →
  ∃ o d, h !! self = Some o ∧ h' = <[self := with_distance_to_end d o]> h.
Proof.
  intros Hup. pose proof Hup as (o & Hs & _)%deref_inv.
  rewrite (update_distance_at h self o Hs) in Hup. exists o.
  destruct (end_state o) as [e|]; [|injection Hup as <-; eauto].
  destruct (h !! e) as [oe|]; [|done].
  destruct (distance (matrix o) (matrix oe)) as [d|]; [|done].
  injection Hup as <-. eauto.
Qed.

Lemma swap_Ok (h h' : heap) (self : loc) (coor1 coor2 : Z * Z) :
  swap self coor1 coor2 h = (Ok (), h') →
  ∃ o m' d,
    h !! self = Some o
    ∧ swap_cells (matrix o) coor1 coor2 = Ok m'
    ∧ h' = <[self := mkEFPState m' d (end_state o) (prev_state o)]> h.
Proof.
  intros Hsw.
  assert (∃ o, h !! self = Some o) as [o Hs].
  { unfold swap, getitem in Hsw. unfold mbind at 1, M_bind at 1 in Hsw.
    destruct ((deref self ≫= λ o, lift (matrix_getitem (matrix o) coor1)) h)
      as [[tmp|] h0] eqn:Hget; [|done].
    apply deref_inv in Hget as (o & Hs & _). eauto. }
  rewrite (swap_at h self o coor1 coor2 Hs) in Hsw.
  destruct (swap_cells (matrix o) coor1 coor2) as [m'|] eqn:Hm'; [|done].
  apply update_distance_Ok in Hsw as (o' & d & Ho' & ->).
  rewrite list_lookup_insert_eq in Ho' by (by eapply lookup_lt_Some).
  injection Ho' as <-. exists o, m', d. split; [done|]. split; [done|].
  by rewrite list_insert_insert_eq.
Qed.

(** X6: two calls of [swap] on the same two cells put the matrix back as it
    was; the references of the object and the other objects are as
    before. *)
Theorem swap_twice (h h1 h2 : heap) (self : loc) (coor1 coor2 : Z * Z) :
  swap self coor1 coor2 h = (Ok (), h1) →
  swap self coor1 coor2 h1 = (Ok (), h2) →
  ∃ o o2,
    h !! self = Some o ∧ h2 !! self = Some o2
    ∧ matrix o2 = matrix o
    ∧ end_state o2 = end_state o ∧ prev_state o2 = prev_state o
    ∧ ∀ l, l ≠ self → h2 !! l = h !! l.
Proof.
  intros (o & m' & d & Hs & Hm' & ->)%swap_Ok
         (o1 & m2 & d2 & Hs1 & Hm2 & ->)%swap_Ok.
  pose proof (lookup_lt_Some _ _ _ Hs) as Hlt.
  rewrite list_lookup_insert_eq in Hs1 by done. injection Hs1 as <-.
  simpl in *. rewrite (swap_cells_twice _ _ _ _ Hm') in Hm2.
  injection Hm2 as <-. eexists o, _. split; [done|].
  split; [apply list_lookup_insert_eq; by rewrite length_insert|].
  split; [done|]. split; [done|]. split; [done|].
  intros l Hl. by rewrite !list_lookup_insert_ne.
Qed.

(** X7: on a matrix of three rows of three cells, [swap] with a key outside
    the matrix raises [IndexError] before it has written anything. *)
Theorem swap_outside (h : heap) (self : loc) (o : EFPState) (coor1 coor2 : Z * Z) :
  h !! self = Some o → length <$> matrix o = [3; 3; 3]%nat →
  ¬ (-3 ≤ coor1.1 < 3 ∧ -3 ≤ coor1.2 < 3)
  ∨ ¬ (-3 ≤ coor2.1 < 3 ∧ -3 ≤ coor2.2 < 3) →
  swap self coor1 coor2 h = (Raise (IndexError ListIndexOutOfRange), h).
Proof.
  intros Hs Hsh Hkey. rewrite (swap_at h self o) by done.
  pose proof (swap_cells_resolve (matrix o) coor1 coor2) as Hres.
  unfold shape in Hres. rewrite Hsh in Hres.
  destruct Hkey as [Hkey%resolve_3x3|Hkey%resolve_3x3]; rewrite Hkey in Hres.
  - by rewrite Hres.
  - destruct (resolve [3; 3; 3]%nat coor1); by rewrite Hres.
Qed.

(** ** Slides there and back *)

Lemma is_board_NoDup (m : arrangement) : is_board m → NoDup (concat m).
Proof. intros [_ Hp]. rewrite Hp. apply NoDup_seqZ. Qed.

Lemma blank_at_lookup (p : nat) (m : arrangement) :
  blank_at p m → concat m !! p = Some 0.
Proof. by destruct 1. Qed.

(** On a board every cell but the one of the blank holds a tile. *)
Lemma board_tiles (p : nat) (m : arrangement) (k : nat) (v : Z) :
  is_board m → blank_at p m → concat m !! k = Some v → k ≠ p → v ≠ 0.
Proof.
  intros Hb Hp Hk Hne ->. apply Hne.
  eapply NoDup_lookup; [by apply is_board_NoDup|done|by apply blank_at_lookup].
Qed.

Ltac board_tiles Hb Hp :=
  let tile k :=
    try (let H := fresh "Htile" in
         pose proof (board_tiles _ _ k _ Hb Hp eq_refl ltac:(lia)) as H) in
  tile 0%nat; tile 1%nat; tile 2%nat; tile 3%nat; tile 4%nat; tile 5%nat;
  tile 6%nat; tile 7%nat; tile 8%nat.

Lemma get_index_rows a b c d e f g h i v :
  get_index [[a; b; c]; [d; e; f]; [g; h; i]] v =
  if bool_decide (a = v) then Ok (0, 0) else
  if bool_decide (b = v) then Ok (0, 1) else
  if bool_decide (c = v) then Ok (0, 2) else
  if bool_decide (d = v) then Ok (1, 0) else
  if bool_decide (e = v) then Ok (1, 1) else
  if bool_decide (f = v) then Ok (1, 2) else
  if bool_decide (g = v) then Ok (2, 0) else
  if bool_decide (h = v) then Ok (2, 1) else
  if bool_decide (i = v) then Ok (2, 2) else
  Raise (RuntimeError (CouldNotFindIndex v)).
Proof. reflexivity. Qed.

Lemma slide_back (m m' : arrangement) (d : direction) :
  is_board m → slide m d = Ok m' → slide m' (opposite d) = Ok m.
Proof.
  intros Hb Hsl. destruct (board_blank_at m Hb) as [p Hp].
  pose proof Hp as Hp'.
  unfold slide in Hsl. rewrite (blank_at_get_index p m Hp) in Hsl.
  destruct Hp, d; try discriminate Hsl;
    cbv in Hsl; injection Hsl as <-; board_tiles Hb Hp';
    unfold slide; rewrite get_index_rows; decide_cells; reflexivity.
Qed.

Lemma estimate_of_insert (h : heap) (self : loc) (o o' : EFPState)
    (m : arrangement) :
  end_state o ≠ Some self → end_state o' = end_state o →
  estimate_of (<[self := o']> h) o' m = estimate_of h o m.
Proof.
  intros Hne Heq. unfold estimate_of. rewrite Heq.
  destruct (end_state o) as [e|]; [|done].
  rewrite list_lookup_insert_ne by congruence. done.
Qed.

Lemma update_distance_board_at (h : heap) (self : loc) (o : EFPState) :
  h !! self = Some o → is_board (matrix o) → end_ok h o →
  update_distance_to_end self h
  = (Ok (), <[self := with_distance_to_end (estimate_of h o (matrix o)) o]> h).
Proof.
  intros Hs Hb Hend. rewrite (update_distance_at h self o Hs).
  unfold end_ok, estimate_of in *. destruct (end_state o) as [e|]; [|done].
  destruct Hend as (oe & -> & Hbe). by rewrite (distance_board _ _ Hb Hbe).
Qed.

(** [move] on a board anywhere in the heap, when the goal of the state is
    another object. *)
Lemma move_board_at (h : heap) (self : loc) (o : EFPState) (d : direction) :
  h !! self = Some o → is_board (matrix o) → end_ok h o →
  end_state o ≠ Some self →
  move self (flags d).1.1.1 (flags d).1.1.2 (flags d).1.2 (flags d).2 h
  = match slide (matrix o) d with
    | Ok m' =>
        (Ok self,
         <[self := mkEFPState m' (estimate_of h o m') (end_state o)
                     (prev_state o)]> h)
    | Raise e => (Raise e, h)
    end.
Proof.
  intros Hs Hb Hend Hne. rewrite (move_at h self o d Hs).
  destruct (slide (matrix o) d) as [m'|] eqn:Hsl; [|done].
  destruct (slide_board_ok _ _ _ Hb Hsl) as [Hb' _].
  pose proof (lookup_lt_Some _ _ _ Hs) as Hlt.
  rewrite (update_distance_board_at _ self (with_matrix m' o));
    [|by apply list_lookup_insert_eq|done|].
  - rewrite list_insert_insert_eq. simpl.
    by rewrite (estimate_of_insert h self o).
  - unfold end_ok in *. simpl. destruct (end_state o) as [e|]; [|done].
    rewrite list_lookup_insert_ne by congruence. done.
Qed.

(** X8: on a board whose goal is another board of the heap (or that has no
    goal), a slide that [move] carries out is undone by [move] in the
    opposite direction: [move] returns the object it was called on, and the
    second call leaves the heap as it was before the first, except that
    [distance_to_end] now holds the distance of the board to its goal (-1
    if there is none). *)
Theorem move_there_and_back (h h1 : heap) (self l : loc) (o : EFPState)
    (d : direction) :
  h !! self = Some o → is_board (matrix o) → end_ok h o →
  end_state o ≠ Some self →
  move self (flags d).1.1.1 (flags d).1.1.2 (flags d).1.2 (flags d).2 h
  = (Ok l, h1) →
  l = self
  ∧ ∃ dist,
      move self (flags (opposite d)).1.1.1 (flags (opposite d)).1.1.2
           (flags (opposite d)).1.2 (flags (opposite d)).2 h1
      = (Ok self, <[self := with_distance_to_end dist o]> h)
      ∧ match end_state o with
        | Some e =>
            ∃ oe, h !! e = Some oe ∧ distance (matrix o) (matrix oe) = Ok dist
        | None => dist = -1
        end.
Proof.
  intros Hs Hb Hend Hne Hmove.
  rewrite (move_board_at h self o d Hs Hb Hend Hne) in Hmove.
  destruct (slide (matrix o) d) as [m'|] eqn:Hsl; [|done].
  injection Hmove as <- <-. split; [done|].
  destruct (slide_board_ok _ _ _ Hb Hsl) as [Hb' _].
  pose proof (lookup_lt_Some _ _ _ Hs) as Hlt.
  set (o1 := mkEFPState m' (estimate_of h o m') (end_state o) (prev_state o)).
  exists (estimate_of h o (matrix o)). split.
  - rewrite (move_board_at _ self o1 (opposite d));
      [|by apply list_lookup_insert_eq|done| |done].
    + simpl. rewrite (slide_back _ _ _ Hb Hsl), list_insert_insert_eq.
      rewrite (estimate_of_insert h self o o1) by done. by destruct o.
    + unfold end_ok in *. simpl. destruct (end_state o) as [e|]; [|done].
      rewrite list_lookup_insert_ne by congruence. done.
  - unfold end_ok, estimate_of in *. destruct (end_state o) as [e|]; [|done].
    destruct Hend as (oe & -> & Hbe). exists oe. split; [done|].
    by apply distance_board.
Qed.

(** ** The exceptions of [distance] *)

Lemma matrix_getitem_exn (m : arrangement) (key : Z * Z) (e : exn) :
  matrix_getitem m key = Raise e → e = IndexError ListIndexOutOfRange.
Proof.
  rewrite matrix_getitem_resolve.
  destruct (resolve (shape m) key) as [rc|]; [|congruence].
  destruct (at2 m rc); congruence.
Qed.

Lemma get_index_from_exn (m : arrangement) (v : Z) (cells : list (Z * Z)) (e : exn) :
  get_index_from m v cells = Raise e →
  e = IndexError ListIndexOutOfRange ∨ e = RuntimeError (CouldNotFindIndex v).
Proof.
  induction cells as [|c cells IH]; simpl; [intros [= <-]; by right|].
  destruct (matrix_getitem m c) as [x|e'] eqn:Hx; simpl.
  - case_bool_decide; [done|exact IH].
  - intros [= <-]. left. by eapply matrix_getitem_exn.
Qed.

Lemma distance_exn (self other : arrangement) (e : exn) :
  distance self other = Raise e →
  e = IndexError ListIndexOutOfRange
  ∨ ∃ v, e = RuntimeError (CouldNotFindIndex v).
Proof.
  unfold distance. generalize 0 at 1. generalize cells3.
  intros cells. induction cells as [|c cells IH]; intros acc; simpl; [done|].
  destruct (distance_body self other acc c) as [acc'|e'] eqn:Hbody; simpl;
    [apply IH|].
  intros [= <-]. unfold distance_body in Hbody.
  destruct (matrix_getitem self c) as [x|e1] eqn:Hx; simpl in Hbody.
  - case_bool_decide; [done|].
    destruct (get_index other x) as [coor|e2] eqn:Hi; simpl in Hbody; [done|].
    injection Hbody as <-.
    destruct (get_index_from_exn _ _ _ _ Hi) as [->| ->]; eauto.
  - injection Hbody as <-. left. by eapply matrix_getitem_exn.
Qed.

(** X9: when [move] raises [InvalidMoveDirection], whatever the keyword
    arguments, the object and the heap are as they were before the call; the
    text of the exception names a direction. *)
Theorem move_invalid_no_effect (h h' : heap) (self : loc) (l r u d : bool)
    (msg : message) :
  move self l r u d h = (Raise (InvalidMoveDirection msg), h') →
  h' = h ∧ ∃ dir, msg = CantMove dir.
Proof.
  assert (∀ dir,
    move self (flags dir).1.1.1 (flags dir).1.1.2 (flags dir).1.2 (flags dir).2 h
    = (Raise (InvalidMoveDirection msg), h') →
    h' = h ∧ ∃ dir, msg = CantMove dir) as Hdir.
  { intros dir Hmove. destruct (h !! self) as [o|] eqn:Hs.
    2:{ unfold move, mbind, M_bind, deref in Hmove. rewrite Hs in Hmove.
        done. }
    rewrite (move_at h self o dir Hs) in Hmove.
    unfold slide in Hmove.
    destruct (get_index (matrix o) 0) as [zero_index|e] eqn:Hi;
      simpl in Hmove.
    2:{ injection Hmove as -> <-.
        by destruct (get_index_from_exn _ _ _ _ Hi). }
    destruct (blocked zero_index dir); [injection Hmove as <- <-; eauto|].
    destruct (swap_cells (matrix o) zero_index (target zero_index dir))
      as [m'|e] eqn:Hsw.
    2:{ injection Hmove as -> <-.
        pose proof (swap_cells_resolve (matrix o) zero_index
                      (target zero_index dir)) as Hres.
        destruct (resolve _ zero_index); [destruct (resolve _ (target _ _))|];
          try (destruct Hres as (? & ? & ? & ? & _)); congruence. }
    pose proof (lookup_lt_Some _ _ _ Hs) as Hlt.
    rewrite (update_distance_at _ self (with_matrix m' o)) in Hmove
      by (by apply list_lookup_insert_eq).
    simpl in Hmove. destruct (end_state o) as [e|]; [|done].
    destruct (<[self:=with_matrix m' o]> h !! e) as [oe|]; [|done].
    destruct (distance m' (matrix oe)) as [dist|e'] eqn:Hd; [done|].
    injection Hmove as -> <-.
    destruct (distance_exn _ _ _ Hd) as [?|[? ?]]; done. }
  rewrite move_first_flag.
  destruct l; [apply (Hdir MoveLeft)|].
  destruct r; [apply (Hdir MoveRight)|].
  destruct u; [apply (Hdir MoveUp)|].
  destruct d; [apply (Hdir MoveDown)|].
  unfold move, mbind, M_bind, deref, lift, raise.
  destruct (h !! self) as [o|]; [|done].
  destruct (get_index (matrix o) 0) as [zero_index|e] eqn:Hi; [done|].
  intros [= -> <-]. by destruct (get_index_from_exn _ _ _ _ Hi).
Qed.

(** X10: without a direction, [move] on a matrix of three rows of three
    cells raises [RuntimeError]: for the missing blank when no cell holds 0,
    for the missing direction otherwise; the heap is as before. *)
Theorem move_without_direction (h : heap) (self : loc) (o : EFPState) :
  h !! self = Some o → length <$> matrix o = [3; 3; 3]%nat →
  move self false false false false h
  = (Raise (RuntimeError (if bool_decide (0 ∈ concat (matrix o))
                          then NoDirectionGiven else CouldNotFindIndex 0)), h).
Proof.
  intros Hs Hsh. unfold move.
  rewrite (bind_ok _ _ _ _ _ (deref_Some h self o Hs)).
  unfold lift, mbind, M_bind, raise.
  pose proof (get_index_cases (matrix o) 0 Hsh) as Hi.
  destruct (get_index (matrix o) 0) as [c|e].
  - destruct Hi as (k & _ & _ & _ & Hk & _).
    rewrite bool_decide_eq_true_2; [done|]. by eapply list_elem_of_lookup_2.
  - destruct Hi as [-> Hnot]. by rewrite bool_decide_eq_false_2.
Qed.

(** ** Construction and copy *)

Lemma to_sequence_of_sequence (sequence : list Z) :
  to_sequence (matrix_of_sequence sequence) = take 9 sequence.
Proof.
  unfold to_sequence, matrix_of_sequence.
  do 9 (destruct sequence as [|? sequence]; [reflexivity|]). reflexivity.
Qed.

(** X11: [EFPState(sequence)], with or without the update of the distance,
    never raises when no goal is given: it creates one object, whose cells
    are the first nine elements of [sequence] (fewer if the sequence is
    shorter), whose [distance_to_end] is -1 and which has no goal and no
    predecessor; the objects of the heap are untouched. *)
Theorem init_without_goal (h : heap) (sequence : list Z) (update_distance : bool) :
  EFPState_init sequence None update_distance h
  = (Ok (length h), h ++ [new_state sequence])
  ∧ to_sequence (matrix (new_state sequence)) = take 9 sequence.
Proof.
  split; [|apply to_sequence_of_sequence].
  unfold EFPState_init, mbind, M_bind, alloc, mret, M_ret.
  destruct update_distance; [|done].
  rewrite (update_distance_at _ (length h) (new_state sequence))
    by (by apply list_lookup_middle).
  simpl. by rewrite insert_app_r_alt, Nat.sub_diag by lia.
Qed.

(** X12: [EFPState(sequence, end_state)] on a sequence that is a board,
    with a goal that is a board, stores the distance of the new board to the
    goal. *)
Theorem init_with_goal (h : heap) (sequence : list Z) (e : loc) (oe : EFPState) :
  h !! e = Some oe → is_board (matrix oe) →
  is_board (matrix_of_sequence sequence) →
  ∃ dist,
    distance (matrix_of_sequence sequence) (matrix oe) = Ok dist
    ∧ EFPState_init sequence (Some e) true h
      = (Ok (length h),
         h ++ [mkEFPState (matrix_of_sequence sequence) dist (Some e) None]).
Proof.
  intros He Hbe Hb. eexists. split; [by apply distance_board|].
  unfold EFPState_init, mbind, M_bind, alloc, mret, M_ret.
  rewrite (update_distance_at _ (length h)
             (mkEFPState (matrix_of_sequence sequence) (-1) (Some e) None))
    by (by apply list_lookup_middle).
  simpl. rewrite (lookup_app_l_Some _ _ _ _ He).
  rewrite (distance_board _ _ Hb Hbe).
  by rewrite insert_app_r_alt, Nat.sub_diag by lia.
Qed.

(** X13: [__copy__] creates one object and leaves the others as they are.
    The copy holds the first nine cells of the original in rows of three,
    which is the matrix of the original when that has three rows of three
    cells; it has the [distance_to_end] and the goal of the original, and no
    predecessor. *)
Theorem copy_fresh (h : heap) (self : loc) (o : EFPState) :
  h !! self = Some o →
  ∃ c,
    copy self h = (Ok (length h), h ++ [c])
    ∧ to_sequence (matrix c) = take 9 (to_sequence (matrix o))
    ∧ (length <$> matrix o = [3; 3; 3]%nat → matrix c = matrix o)
    ∧ distance_to_end c = distance_to_end o
    ∧ end_state c = end_state o
    ∧ prev_state c = None.
Proof.
  intros Hs.
  exists (mkEFPState (matrix_of_sequence (to_sequence (matrix o)))
            (distance_to_end o) (end_state o) None).
  split.
  - unfold copy.
    rewrite (bind_ok _ _ _ _ _ (deref_Some h self o Hs)).
    unfold EFPState_init, mbind, M_bind, alloc, mret, M_ret.
    rewrite (assign_Some _ (length h)
               (mkEFPState (matrix_of_sequence (to_sequence (matrix o))) (-1)
                  (end_state o) None))
      by (by apply list_lookup_middle).
    by rewrite insert_app_r_alt, Nat.sub_diag by lia.
  - split; [apply to_sequence_of_sequence|].
    split; [apply matrix_of_to_sequence|done].
Qed.

(** X14: [extend] on a board creates four objects, one for each direction,
    and changes no object that was there.  Each state it returns has the goal
    of the state extended, and its [distance_to_end] is its distance to that
    goal (-1 when there is no goal). *)
Theorem extend_children (h : heap) (self : loc) (o : EFPState) :
  h !! self = Some o → is_board (matrix o) → end_ok h o →
  ∃ (locs : list loc) (news : heap),
    extend self h = (Ok locs, h ++ news)
    ∧ length news = 4%nat
    ∧ ∀ l, l ∈ locs →
        ∃ c, (h ++ news) !! l = Some c
             ∧ end_state c = end_state o
             ∧ match end_state o with
               | Some e =>
                   ∃ oe, h !! e = Some oe
                         ∧ distance (matrix c) (matrix oe) = Ok (distance_to_end c)
               | None => distance_to_end c = -1
               end.
Proof.
  intros Hs Hb Hend. destruct (board_blank_at _ Hb) as [p Hp].
  exists (new_locs h p), (new_objects h self o p).
  split; [by apply extend_board|]. split; [done|].
  intros l Hl. apply list_elem_of_lookup in Hl as [i Hi].
  pose proof (new_objects_successors h self o p Hb Hp) as Hsucc.
  destruct (Forall2_lookup_l _ _ _ _ _ Hsucc Hi) as (m' & Hm' & Hlook).
  eexists. split; [exact Hlook|]. split; [done|]. simpl.
  destruct (successors_of_board (matrix o) m' Hb) as [Hb' _];
    [by eapply list_elem_of_lookup_2|].
  unfold end_ok, estimate_of in *. destruct (end_state o) as [e|]; [|done].
  destruct Hend as (oe & -> & Hbe). exists oe. split; [done|].
  by apply distance_board.
Qed.

(** ** More on the heuristic *)

Lemma manhattan_nonneg (k k' : nat) : 0 ≤ manhattan k k'.
Proof. unfold manhattan. lia. Qed.

Lemma manhattan_zero (k k' : nat) : manhattan k k' = 0 → k = k'.
Proof.
  unfold manhattan, cell. cbn [fst snd]. intros H.
  assert (k `div` 3 = k' `div` 3 ∧ k `mod` 3 = k' `mod` 3)%nat as [Hd Hm] by lia.
  rewrite (Nat.div_mod_eq k 3), (Nat.div_mod_eq k' 3). by rewrite Hd, Hm.
Qed.

Lemma manhattan_triangle (k1 k2 k3 : nat) :
  manhattan k1 k3 ≤ manhattan k1 k2 + manhattan k2 k3.
Proof. unfold manhattan. lia. Qed.

Lemma manhattan_adjacent (p q k : nat) :
  adjacent p q →
  manhattan p k = manhattan q k + 1 ∨ manhattan p k = manhattan q k - 1.
Proof.
  unfold adjacent, manhattan, cell. cbn [fst snd]. intros [[Hp Hq] Hadj].
  do 9 (destruct p as [|p];
    [do 9 (destruct q as [|q]; [vm_compute in Hadj; cbn; lia|]); lia|]).
  lia.
Qed.

Lemma sumZ_nonneg_zero (l : list Z) :
  Forall (λ x, 0 ≤ x) l → sumZ l = 0 → Forall (λ x, x = 0) l.
Proof.
  unfold sumZ. induction 1 as [|x l Hx Hl IH]; simpl; [done|].
  intros Hsum. assert (0 ≤ foldr Z.add 0 l).
  { clear -Hl. induction Hl; simpl; lia. }
  constructor; [lia|]. apply IH. lia.
Qed.

Lemma sumZ_le (f g : Z → Z) (l : list Z) :
  (∀ v, f v ≤ g v) → sumZ (f <$> l) ≤ sumZ (g <$> l).
Proof.
  intros Hfg. unfold sumZ. induction l as [|v l IH]; csimpl; [done|].
  specialize (Hfg v). lia.
Qed.

Lemma sumZ_add (f g : Z → Z) (l : list Z) :
  sumZ ((λ v, f v + g v) <$> l) = sumZ (f <$> l) + sumZ (g <$> l).
Proof. unfold sumZ. induction l as [|v l IH]; csimpl; lia. Qed.

(** The sums of two functions that differ at one value of the list. *)
Lemma sumZ_one_differs (f g : Z → Z) (t : Z) (l : list Z) :
  NoDup l → t ∈ l → (∀ v, v ∈ l → v ≠ t → f v = g v) →
  sumZ (f <$> l) - sumZ (g <$> l) = f t - g t.
Proof.
  unfold sumZ. induction 1 as [|v l Hv Hnd IH]; intros Hin Hfg.
  { by apply elem_of_nil in Hin. }
  csimpl. destruct (decide (v = t)) as [->|Hne].
  - assert (foldr Z.add 0 (f <$> l) = foldr Z.add 0 (g <$> l)) as ->; [|lia].
    f_equal. apply list_fmap_ext. intros _ x Hx%list_elem_of_lookup_2.
    apply Hfg; [by right|]. by intros ->.
  - rewrite (Hfg v) by (done || by left).
    apply elem_of_cons in Hin as [?|Hin]; [done|].
    specialize (IH Hin). rewrite <- IH; [lia|].
    intros x Hx. apply Hfg. by right.
Qed.

Lemma position_elem (v : Z) (s : list Z) : v ∈ s → s !! position v s = Some v.
Proof.
  intros Hin. unfold position.
  destruct (list_find (λ x, x = v) s) as [[k x]|] eqn:Hf.
  - by apply list_find_Some in Hf as (? & -> & _).
  - apply list_find_None in Hf. rewrite Forall_forall in Hf. by destruct (Hf v).
Qed.

Lemma board_length (m : arrangement) : is_board m → length (concat m) = 9%nat.
Proof. intros [_ Hp]. by rewrite Hp. Qed.

Lemma board_elem (m : arrangement) (v : Z) :
  is_board m → v ∈ concat m ↔ 0 ≤ v ≤ 8.
Proof. intros [_ Hp]. rewrite Hp, elem_of_seqZ. lia. Qed.

Lemma board_ext (a b : arrangement) :
  is_board a → is_board b → concat a = concat b → a = b.
Proof.
  intros [Ha _] [Hb _] Heq.
  rewrite <- (matrix_of_to_sequence a Ha), <- (matrix_of_to_sequence b Hb).
  unfold to_sequence. by rewrite Heq.
Qed.

Lemma distance_spec_zero (a b : arrangement) :
  is_board a → is_board b → distance_spec a b = 0 → a = b.
Proof.
  intros Ha Hb Hd. apply board_ext; [done..|].
  pose proof (is_board_NoDup a Ha) as Hnda.
  pose proof (is_board_NoDup b Hb) as Hndb.
  assert (∀ v, 1 ≤ v ≤ 8 → position v (concat a) = position v (concat b)) as Hpos.
  { intros v Hv. apply manhattan_zero.
    apply sumZ_nonneg_zero in Hd.
    - rewrite Forall_fmap, Forall_forall in Hd. apply (Hd v).
      apply elem_of_seqZ. lia.
    - apply Forall_fmap, Forall_forall. intros ? _. apply manhattan_nonneg. }
  assert (∀ a b, is_board a → is_board b →
            (∀ v, 1 ≤ v ≤ 8 → position v (concat a) = position v (concat b)) →
            ∀ k x, concat a !! k = Some x → x ≠ 0 → concat b !! k = Some x)
    as Htile.
  { clear. intros a b Ha Hb Hpos k x Hk Hx.
    assert (1 ≤ x ≤ 8) as Hx'.
    { apply list_elem_of_lookup_2, (board_elem a x Ha) in Hk. lia. }
    rewrite <- (position_lookup (concat a) k x); [|by apply is_board_NoDup|done].
    rewrite (Hpos x Hx'). apply position_elem, (board_elem b x Hb). lia. }
  apply list_eq. intros k.
  destruct (concat a !! k) as [x|] eqn:Hk.
  - destruct (decide (x = 0)) as [->|Hx]; [|symmetry; exact (Htile a b Ha Hb Hpos k x Hk Hx)].
    destruct (concat b !! k) as [y|] eqn:Hk'.
    + destruct (decide (y = 0)) as [->|Hy]; [done|].
      assert (concat a !! k = Some y) as Hk''; [|congruence].
      apply (Htile b a Hb Ha); [|done..].
      intros v Hv. symmetry. by apply Hpos.
    + apply lookup_ge_None in Hk'. apply lookup_lt_Some in Hk.
      rewrite (board_length a Ha) in Hk. rewrite (board_length b Hb) in Hk'. lia.
  - apply lookup_ge_None in Hk. symmetry. apply lookup_ge_None.
    rewrite (board_length a Ha) in Hk. by rewrite (board_length b Hb).
Qed.

(** X15: between two boards, [distance] returns 0 exactly when the two
    boards are the same. *)
Theorem distance_zero_iff_equal (a b : arrangement) :
  is_board a → is_board b → distance a b = Ok 0 ↔ a = b.
Proof.
  intros Ha Hb. rewrite (distance_board a b Ha Hb). split.
  - intros [= Hd]. by apply distance_spec_zero.
  - intros ->. by rewrite distance_spec_refl.
Qed.

(** X16: the distance between boards obeys the triangle inequality. *)
Theorem distance_triangle (a b c : arrangement) :
  is_board a → is_board b → is_board c →
  ∃ dab dbc dac,
    distance a b = Ok dab ∧ distance b c = Ok dbc ∧ distance a c = Ok dac
    ∧ 0 ≤ dac ≤ dab + dbc.
Proof.
  intros Ha Hb Hc. eexists _, _, _.
  split; [by apply distance_board|]. split; [by apply distance_board|].
  split; [by apply distance_board|]. unfold distance_spec. split.
  - transitivity (sumZ ((λ _, 0) <$> seqZ 1 8)); [done|].
    apply sumZ_le. intros. apply manhattan_nonneg.
  - rewrite <- sumZ_add. apply sumZ_le. intros. apply manhattan_triangle.
Qed.

Lemma distance_spec_slide (m m' g : arrangement) :
  is_board m → is_board m' → one_slide m m' →
  distance_spec m' g = distance_spec m g + 1
  ∨ distance_spec m' g = distance_spec m g - 1.
Proof.
  intros Hb Hb' (_ & p & q & tile & Hadj & Hp & Hq & Htile & Hm').
  pose proof (is_board_NoDup m Hb) as Hnd.
  pose proof (is_board_NoDup m' Hb') as Hnd'.
  pose proof (lookup_lt_Some _ _ _ Hp) as Hlp.
  pose proof (lookup_lt_Some _ _ _ Hq) as Hlq.
  pose proof (adjacent_ne p q Hadj) as Hpq.
  assert (1 ≤ tile ≤ 8) as Ht.
  { apply list_elem_of_lookup_2, (board_elem m tile Hb) in Hq. lia. }
  assert (position tile (concat m) = q) as Hposq by (by apply position_lookup).
  assert (position tile (concat m') = p) as Hposp.
  { apply position_lookup; [done|]. rewrite Hm'.
    apply list_lookup_insert_eq. by rewrite length_insert. }
  assert (∀ v, 1 ≤ v ≤ 8 → v ≠ tile →
               position v (concat m') = position v (concat m)) as Hother.
  { intros v Hv Hne. apply position_lookup; [done|].
    assert (v ∈ concat m) as Hin by (apply (board_elem m v Hb); lia).
    pose proof (position_elem v (concat m) Hin) as Hk.
    rewrite Hm'. rewrite !list_lookup_insert_ne; [done|..];
      intros Heq; rewrite <- Heq in Hk; rewrite ?Hp, ?Hq in Hk;
      injection Hk as <-; first [lia | done]. }
  unfold distance_spec.
  pose proof (sumZ_one_differs
    (λ v, manhattan (position v (concat m')) (position v (concat g)))
    (λ v, manhattan (position v (concat m)) (position v (concat g)))
    tile (seqZ 1 8) (NoDup_seqZ _ _)) as Hsum.
  cbv beta in Hsum. rewrite Hposp, Hposq in Hsum.
  specialize (Hsum ltac:(apply elem_of_seqZ; lia)).
  specialize (Hsum ltac:(intros v Hv%elem_of_seqZ Hne;
                         rewrite Hother by (done || lia); done)).
  destruct (manhattan_adjacent p q (position tile (concat g)) Hadj) as [Hm|Hm];
    [left|right]; lia.
Qed.

(** X17: a slide changes the distance of a board to any board by exactly
    one. *)
Theorem distance_after_slide (m m' g : arrangement) (d : direction) :
  is_board m → is_board g → slide m d = Ok m' →
  ∃ dist dist',
    distance m g = Ok dist ∧ distance m' g = Ok dist'
    ∧ (dist' = dist + 1 ∨ dist' = dist - 1).
Proof.
  intros Hb Hg Hsl. destruct (slide_board_ok m m' d Hb Hsl) as [Hb' Hone].
  eexists _, _. split; [by apply distance_board|].
  split; [by apply distance_board|]. by apply distance_spec_slide.
Qed.

Lemma for_loop_app {A S : Type} (xs ys : list A) (body : S → A → result S) (s : S) :
  for_loop (xs ++ ys) body s = s' ← for_loop xs body s; for_loop ys body s'.
Proof.
  revert s. induction xs as [|x xs IH]; intros s; [done|]. simpl.
  destruct (body s x); simpl; [apply IH|done].
Qed.

Lemma distance_body_missing (self other : arrangement) (acc : Z) (c : Z * Z)
    (v : Z) (e : exn) :
  matrix_getitem self c = Ok v → v ≠ 0 → get_index other v = Raise e →
  distance_body self other acc c = Raise e.
Proof.
  intros Hc Hv Hi. unfold distance_body. rewrite Hc.
  cbv beta iota delta [mbind result_bind].
  rewrite bool_decide_eq_false_2 by done. by rewrite Hi.
Qed.

(** X18: between matrices of three rows of three cells, [distance] raises
    [RuntimeError] when a nonzero value of the first matrix is missing in the
    second: the exception names the first such value in row-major order. *)
Theorem distance_missing_tile (self other : arrangement) (k : nat) (v : Z) :
  length <$> self = [3; 3; 3]%nat → length <$> other = [3; 3; 3]%nat →
  concat self !! k = Some v → v ≠ 0 → v ∉ concat other →
  (∀ k' v', (k' < k)%nat → concat self !! k' = Some v' →
            v' = 0 ∨ v' ∈ concat other) →
  distance self other = Raise (RuntimeError (CouldNotFindIndex v)).
Proof.
  intros Hs Ho Hk Hv Hnot Hbefore.
  assert (k < 9)%nat as Hlt.
  { apply lookup_lt_Some in Hk.
    destruct (shape_grid self Hs) as (?&?&?&?&?&?&?&?&?&->). exact Hk. }
  unfold distance. rewrite cells3_cell.
  replace (seq 0 9) with (seq 0 k ++ k :: seq (S k) (9 - S k)).
  2:{ replace 9%nat with (k + S (9 - S k))%nat at 2 by lia.
      by rewrite seq_app. }
  rewrite fmap_app, for_loop_app, for_loop_cost; [|done|done|].
  2:{ intros k' Hk'%elem_of_seq.
      destruct (lookup_lt_is_Some_2 (concat self) k') as [v' Hv'].
      { apply lookup_lt_Some in Hk. lia. }
      exists v'. split; [done|]. intros Hne.
      destruct (Hbefore k' v' ltac:(lia) Hv'); done. }
  assert (get_index other v = Raise (RuntimeError (CouldNotFindIndex v))) as Hi.
  { pose proof (get_index_cases other v Ho) as Hi.
    destruct (get_index other v) as [c|e].
    - destruct Hi as (k' & _ & _ & _ & Hk' & _).
      destruct Hnot. by eapply list_elem_of_lookup_2.
    - by destruct Hi as [-> _]. }
  cbv beta iota delta [mbind result_bind]. rewrite fmap_cons. simpl for_loop.
  by rewrite (distance_body_missing self other _ (cell k) v _
                (matrix_getitem_cell self k v Hs Hk) Hv Hi).
Qed.

(** ** What [count_inversions] counts *)

Lemma gt_count_cons (x y : Z) (l : list Z) :
  gt_count x (y :: l) = (if bool_decide (x > y) then 1 else 0) + gt_count x l.
Proof. reflexivity. Qed.

Lemma count_inner_gt (arr : list Z) (x : Z) (n a : nat) (acc : Z) :
  (a + n ≤ length arr)%nat →
  foldl (λ inversions j,
           if bool_decide (x > arr !!! j) then inversions + 1 else inversions)
        acc (seq a n)
  = acc + gt_count x (take n (drop a arr)).
Proof.
  revert a acc. induction n as [|n IH]; intros a acc Hle.
  { simpl. rewrite take_0. unfold gt_count, sumZ. simpl. lia. }
  destruct (lookup_lt_is_Some_2 arr a) as [y Hy]; [lia|].
  rewrite (drop_S _ _ _ Hy). cbn [seq foldl take].
  rewrite IH by lia. rewrite gt_count_cons.
  rewrite (list_lookup_total_correct _ _ _ Hy). case_bool_decide; lia.
Qed.

Lemma count_inversions_of (arr : list Z) : count_inversions arr = inversions_of arr.
Proof.
  unfold count_inversions.
  assert (∀ m k acc, (k + m = length arr)%nat →
    foldl (λ inversions i,
             foldl (λ inversions j,
                      if bool_decide (arr !!! i > arr !!! j)
                      then inversions + 1 else inversions)
                   inversions (seq (i + 1) (length arr - (i + 1))))
          acc (seq k m)
    = acc + inversions_of (drop k arr)) as Hgen.
  { induction m as [|m IH]; intros k acc Hk.
    { simpl. rewrite drop_ge by lia. simpl. lia. }
    destruct (lookup_lt_is_Some_2 arr k) as [x Hx]; [lia|].
    cbn [seq foldl]. rewrite IH by lia.
    rewrite count_inner_gt by lia.
    rewrite (drop_S _ _ _ Hx), (list_lookup_total_correct _ _ _ Hx).
    rewrite Nat.add_1_r, take_ge by (rewrite length_drop; lia).
    simpl. lia. }
  rewrite (Hgen (length arr) 0%nat 0) by lia. by rewrite drop_0.
Qed.

Lemma gt_count_range (x : Z) (l : list Z) :
  0 ≤ gt_count x l ≤ Z.of_nat (length l).
Proof.
  induction l as [|y l IH]; [done|]. rewrite gt_count_cons. simpl length.
  case_bool_decide; lia.
Qed.

Lemma gt_count_zero (x : Z) (l : list Z) :
  gt_count x l = 0 ↔ Forall (Z.le x) l.
Proof.
  induction l as [|y l IH]; [by split|]. rewrite gt_count_cons, Forall_cons.
  pose proof (gt_count_range x l). rewrite <- IH. case_bool_decide; lia.
Qed.

Lemma inversions_of_range (l : list Z) :
  0 ≤ inversions_of l
  ∧ 2 * inversions_of l ≤ Z.of_nat (length l) * (Z.of_nat (length l) - 1).
Proof.
  induction l as [|x l IH]; [done|]. cbn [inversions_of length].
  pose proof (gt_count_range x l). nia.
Qed.

(** X19: [count_inversions] returns a number between 0 and n(n-1)/2 for a
    list of length n, and it returns 0 exactly when the list is in
    nondecreasing order. *)
Theorem count_inversions_sorted (arr : list Z) :
  0 ≤ count_inversions arr
  ∧ 2 * count_inversions arr
    ≤ Z.of_nat (length arr) * (Z.of_nat (length arr) - 1)
  ∧ (count_inversions arr = 0 ↔ StronglySorted Z.le arr).
Proof.
  rewrite count_inversions_of.
  split; [apply inversions_of_range|]. split; [apply inversions_of_range|].
  induction arr as [|x arr IH]; [split; [constructor|done]|].
  cbn [inversions_of]. pose proof (gt_count_range x arr).
  pose proof (inversions_of_range arr). split.
  - intros Hz. constructor; [apply IH; lia|apply gt_count_zero; lia].
  - intros Hs. apply StronglySorted_inv in Hs as [Hs Hx].
    apply IH in Hs. apply gt_count_zero in Hx. lia.
Qed.

(** ** Every slide changes the parity of the count *)

Lemma board_tile_pos (p : nat) (m : arrangement) (k : nat) (v : Z) :
  is_board m → blank_at p m → concat m !! k = Some v → k ≠ p → 0 < v.
Proof.
  intros Hb Hp Hk Hne.
  pose proof (board_tiles p m k v Hb Hp Hk Hne).
  apply list_elem_of_lookup_2, (board_elem m v Hb) in Hk. lia.
Qed.

(** Of two different cells of a board, exactly one exceeds the other. *)
Lemma board_gt_flip (m : arrangement) (i j : nat) (x y : Z) :
  is_board m → concat m !! i = Some x → concat m !! j = Some y → i ≠ j →
  (if bool_decide (x > y) then 1 else 0)
  + (if bool_decide (y > x) then 1 else 0) = 1.
Proof.
  intros Hb Hi Hj Hne. assert (x ≠ y).
  { intros ->. apply Hne. eapply NoDup_lookup; [by apply is_board_NoDup|done..]. }
  repeat case_bool_decide; lia.
Qed.

Ltac tiles_positive Hb Hp :=
  let tile k :=
    try (let H := fresh "Hpos" in
         pose proof (board_tile_pos _ _ k _ Hb Hp eq_refl ltac:(lia)) as H) in
  tile 0%nat; tile 1%nat; tile 2%nat; tile 3%nat; tile 4%nat; tile 5%nat;
  tile 6%nat; tile 7%nat; tile 8%nat.

Ltac tile_against_others Hb q :=
  let other k :=
    try (let H := fresh "Hflip" in
         pose proof (board_gt_flip _ q k _ _ Hb eq_refl eq_refl ltac:(lia)) as H) in
  other 0%nat; other 1%nat; other 2%nat; other 3%nat; other 4%nat;
  other 5%nat; other 6%nat; other 7%nat; other 8%nat.

Ltac compare_with_blank :=
  repeat match goal with
  | |- context [bool_decide (?x > 0)] =>
      rewrite (bool_decide_eq_true_2 (x > 0)) by lia
  | |- context [bool_decide (0 > ?x)] =>
      rewrite (bool_decide_eq_false_2 (0 > x)) by lia
  end.

Ltac name_comparisons :=
  repeat match goal with
  | |- context [if bool_decide ?P then 1 else 0] =>
      let v := fresh "gt" in
      set (v := if bool_decide P then 1 else 0) in *; clearbody v
  end.

Lemma slide_parity (m m' : arrangement) (d : direction) :
  is_board m → slide m d = Ok m' →
  (count_inversions (to_sequence m') - count_inversions (to_sequence m))
    `mod` 2 = 1.
Proof.
  intros Hb Hsl. destruct (board_blank_at m Hb) as [p Hp].
  pose proof Hp as Hp'.
  assert (∃ q, q = destination p d) as [q Hq] by eauto.
  unfold slide in Hsl. rewrite (blank_at_get_index p m Hp) in Hsl.
  rewrite !count_inversions_of. unfold to_sequence.
  destruct Hp, d; try discriminate Hsl;
    cbv in Hsl; injection Hsl as <-; cbv in Hq;
    tiles_positive Hb Hp';
    match type of Hq with _ = ?qv => tile_against_others Hb qv end;
    cbn [concat app grid inversions_of gt_count sumZ foldr fmap list_fmap]
      in *;
    compare_with_blank; name_comparisons; Z.div_mod_to_equations; lia.
Qed.

(** X20: on a board, every slide that [move] carries out changes the parity
    of what [count_inversions] returns for the cells in reading order. *)
Theorem slide_flips_parity (m m' : arrangement) (d : direction) :
  is_board m → slide m d = Ok m' →
  (count_inversions (to_sequence m') - count_inversions (to_sequence m))
    `mod` 2 = 1.
Proof. apply slide_parity. Qed.

Lemma slides_snoc (m : arrangement) (ds : list direction) (d : direction) :
  slides m (ds ++ [d]) = m' ← slides m ds; slide m' d.
Proof. unfold slides. by rewrite foldl_app. Qed.

Lemma slides_parity (m m' : arrangement) (ds : list direction) :
  is_board m → slides m ds = Ok m' →
  is_board m'
  ∧ (count_inversions (to_sequence m') - count_inversions (to_sequence m))
      `mod` 2 = Z.of_nat (length ds) `mod` 2.
Proof.
  intros Hb. revert m'. induction ds as [|d ds IH] using rev_ind; intros m' Hsl.
  { injection Hsl as <-. split; [done|]. by rewrite Z.sub_diag. }
  rewrite slides_snoc in Hsl.
  destruct (slides m ds) as [m1|] eqn:Hm1; [|done]. simpl in Hsl.
  destruct (IH m1 eq_refl) as [Hb1 Hpar].
  destruct (slide_board_ok m1 m' d Hb1 Hsl) as [Hb' _]. split; [done|].
  pose proof (slide_parity m1 m' d Hb1 Hsl) as Hstep.
  rewrite length_app, Nat2Z.inj_add. simpl length.
  revert Hpar Hstep.
  generalize (count_inversions (to_sequence m')),
    (count_inversions (to_sequence m1)), (count_inversions (to_sequence m)),
    (Z.of_nat (length ds)).
  intros. Z.div_mod_to_equations. lia.
Qed.

(** X21: for a goal that some sequence of slides reaches from the start
    board, the parity test of [a_sharp_search] passes when that sequence
    has an even length and fails when it has an odd one.  In the odd case,
    one slide for instance, the search raises [RuntimeError] with the text
    "Different inversion pairs parity, no solution." and expands nothing.
    Nothing is said of a goal that no sequence of slides reaches. *)
Theorem search_refuses_odd_paths `{TupleHash} (fuel : nat) (h : heap)
    (start end_ : loc) (s oe : EFPState) (ds : list direction) :
  h !! start = Some s → h !! end_ = Some oe →
  is_board (matrix s) → slides (matrix s) ds = Ok (matrix oe) →
  (prologue start end_ h).1
  = (if Nat.odd (length ds) then Raise (RuntimeError DifferentParity)
     else Ok ())
  ∧ (Nat.odd (length ds) = true →
     ∃ h', a_sharp_search fuel start end_ h
           = Some (Raise (RuntimeError DifferentParity), h')
           ∧ a_sharp_expansions fuel start end_ h = []).
Proof.
  intros Hs He Hbs Hsl.
  destruct (slides_parity _ _ _ Hbs Hsl) as [Hbe Hpar].
  pose proof (prologue_board h start end_ s oe Hs He Hbs Hbe) as Hpro.
  assert (parity_differs (matrix s) (matrix oe) = Nat.odd (length ds)) as Hodd.
  { unfold parity_differs.
    destruct (Nat.odd (length ds)) eqn:Hl.
    - apply bool_decide_eq_true_2. apply Nat.odd_spec in Hl as [k Hk].
      rewrite Hk in Hpar. revert Hpar.
      generalize (count_inversions (to_sequence (matrix oe))),
        (count_inversions (to_sequence (matrix s))).
      intros. Z.div_mod_to_equations. lia.
    - apply bool_decide_eq_false_2. intros Hne. apply Hne.
      assert (Nat.even (length ds) = true) as [k Hk]%Nat.even_spec.
      { by rewrite <- Nat.negb_odd, Hl. }
      rewrite Hk in Hpar. revert Hpar.
      generalize (count_inversions (to_sequence (matrix oe))),
        (count_inversions (to_sequence (matrix s))).
      intros. Z.div_mod_to_equations. lia. }
  rewrite Hodd in Hpro. split; [by rewrite Hpro|].
  intros Hl. rewrite Hl in Hpro. eexists.
  unfold a_sharp_search, a_sharp_expansions. by rewrite Hpro.
Qed.

(** ** The search on a start that is the goal *)

(** X22: when the start and the goal hold the same board, the search returns
    the start object itself at its first turn: it has set the
    [distance_to_end] of the start to 0 and its goal, and has created no
    state. *)
Theorem search_from_goal `{TupleHash} (fuel : nat) (h : heap) (start end_ : loc)
    (s oe : EFPState) :
  h !! start = Some s → h !! end_ = Some oe →
  is_board (matrix s) → matrix s = matrix oe →
  a_sharp_search (S fuel) start end_ h
  = Some (Ok start,
          <[start := mkEFPState (matrix s) 0 (Some end_) (prev_state s)]> h).
Proof.
  intros Hs He Hb Hm.
  assert (is_board (matrix oe)) as Hbe by (by rewrite <- Hm).
  unfold a_sharp_search.
  rewrite (prologue_board h start end_ s oe Hs He Hb Hbe).
  unfold parity_differs, started. rewrite <- Hm, Z.sub_diag.
  rewrite bool_decide_eq_false_2 by (by intros []).
  rewrite distance_spec_refl.
  set (s1 := mkEFPState (matrix s) 0 (Some end_) (prev_state s)).
  set (h1 := <[start := s1]> h).
  assert (h1 !! start = Some s1) as Hs1.
  { apply list_lookup_insert_eq. by eapply lookup_lt_Some. }
  assert (∃ oe1, h1 !! end_ = Some oe1 ∧ matrix oe1 = matrix s) as (oe1 & He1 & Hm1).
  { destruct (decide (start = end_)) as [<-|Hne]; [by exists s1|].
    exists oe. split; [|done]. unfold h1. by rewrite list_lookup_insert_ne. }
  assert (sort_process_list [start] h1 = (Ok [start], h1)) as Hsort.
  { unfold sort_process_list. cbn [keyed]. unfold mbind, M_bind.
    by rewrite (deref_Some h1 start s1 Hs1). }
  cbn [while_loop]. unfold loop_body.
  rewrite (bind_ok _ _ _ _ _ Hsort).
  rewrite (bind_ok _ _ _ _ _ (deref_Some h1 start s1 Hs1)).
  rewrite lookup_empty. cbn [default].
  rewrite (bind_ok _ _ _ _ _ (deref_Some h1 end_ oe1 He1)).
  unfold EFPState_eq, EFPState_hash. rewrite Hm1. cbn [matrix s1].
  by rewrite bool_decide_eq_true_2.
Qed.

(** ** Which state a turn of the loop takes *)

(** The first element after the sort has the least key, and it is the
    first of the list with that key. *)
Lemma sort_by_key_head {A : Type} (l : list (Z * A)) :
  match sort_by_key l with
  | [] => l = []
  | y :: _ =>
      ∃ i, l !! i = Some y
           ∧ ∀ j z, l !! j = Some z → y.1 ≤ z.1 ∧ ((j < i)%nat → y.1 < z.1)
  end.
Proof.
  induction l as [|x l IH]; [done|]. cbn [sort_by_key foldr].
  fold (sort_by_key l). destruct (sort_by_key l) as [|y s].
  { subst l. simpl. exists 0%nat. split; [done|].
    intros [|j] z Hz; [|done]. injection Hz as <-. lia. }
  destruct IH as (i & Hi & Hleast). cbn [insert_by_key].
  case_bool_decide as Hxy.
  - exists 0%nat. split; [done|]. intros [|j] z Hz.
    + injection Hz as <-. lia.
    + destruct (Hleast j z Hz). lia.
  - exists (S i). split; [done|]. intros [|j] z Hz.
    + injection Hz as <-. lia.
    + destruct (Hleast j z Hz). split; [done|]. intros. lia.
Qed.

Lemma keyed_Ok (pl : list loc) (h : heap) :
  Forall (λ l, is_Some (h !! l)) pl →
  keyed pl h
  = (Ok ((λ l, (default 0 (distance_to_end <$> h !! l), l)) <$> pl), h).
Proof.
  induction 1 as [|l pl [o Ho] _ IH]; [done|]. cbn [keyed].
  rewrite (bind_ok _ _ _ _ _ (deref_Some h l o Ho)).
  rewrite (bind_ok _ _ _ _ _ IH). by rewrite fmap_cons, Ho.
Qed.

(** X23: [process_list.sort(key=...)] followed by [pop(0)] takes a state
    whose [distance_to_end] is least in the list, and among those with the
    least value the one that comes first in the list; the sort keeps the
    states of the list and does not touch the heap. *)
Theorem sort_then_pop (pl : list loc) (h : heap) :
  Forall (λ l, is_Some (h !! l)) pl →
  ∃ sorted,
    sort_process_list pl h = (Ok sorted, h)
    ∧ sorted ≡ₚ pl
    ∧ match sorted with
      | [] => pl = []
      | current_state :: _ =>
          ∃ i oc,
            pl !! i = Some current_state ∧ h !! current_state = Some oc
            ∧ ∀ j l o, pl !! j = Some l → h !! l = Some o →
                distance_to_end oc ≤ distance_to_end o
                ∧ ((j < i)%nat → distance_to_end oc < distance_to_end o)
      end.
Proof.
  intros Hpl. unfold sort_process_list.
  rewrite (bind_ok _ _ _ _ _ (keyed_Ok pl h Hpl)).
  set (ks := (λ l, (default 0 (distance_to_end <$> h !! l), l)) <$> pl).
  eexists. split; [done|]. split.
  { rewrite sort_by_key_Permutation. unfold ks.
    rewrite <- list_fmap_compose. by rewrite list_fmap_id. }
  pose proof (sort_by_key_head ks) as Hhead.
  destruct (sort_by_key ks) as [|[k c] s].
  { by apply fmap_nil_inv in Hhead. }
  destruct Hhead as (i & Hi & Hleast). cbn [fmap list_fmap snd].
  unfold ks in Hi. rewrite list_lookup_fmap in Hi.
  destruct (pl !! i) as [c'|] eqn:Hc; [|done]. injection Hi as Hk ->.
  rewrite Forall_forall in Hpl.
  destruct (Hpl c) as [oc Hoc]; [by eapply list_elem_of_lookup_2|].
  rewrite Hoc in Hk. simpl in Hk. subst k.
  exists i, oc. split; [done|]. split; [done|].
  intros j l o Hj Ho.
  apply (Hleast j (distance_to_end o, l)).
  unfold ks. rewrite list_lookup_fmap, Hj. simpl. by rewrite Ho.
Qed.

(** ** The state that the search returns *)

(** X24: under the tuple hash of CPython, the state that a search on two
    boards returns holds the board of the goal, cell for cell. *)
Theorem search_returns_goal_board (fuel : nat) (h h' : heap) (start end_ : loc)
    (s oe : EFPState) (res : loc) :
  h !! start = Some s → h !! end_ = Some oe →
  is_board (matrix s) → is_board (matrix oe) →
  @a_sharp_search cpython_tuple_hash fuel start end_ h = Some (Ok res, h') →
  ∃ ores, h' !! res = Some ores ∧ matrix ores = matrix oe.
Proof.
  intros Hs He Hbs Hbe Hrun.
  destruct (@a_sharp_search_ok cpython_tuple_hash fuel h h' start end_ s oe res
              Hs He Hbs Hbe Hrun) as (n & news & Href & _ & Hrepr).
  destruct (@ref_loop_found cpython_tuple_hash fuel (matrix s) (matrix oe) _ _ n
              (ref_search_inv _ _ Hbs) Href) as (Hhash & Hbn & _).
  destruct Hrepr as (ores & Hres & Hm & _). exists ores. split; [done|].
  rewrite Hm. apply board_ext; [done..|]. symmetry.
  apply cpython_hash_injective; [apply Hbe|apply Hbn|exact Hhash].
Qed.

(** ** The picture of a state *)

Lemma string_app_cons (c : Ascii.ascii) (s1 s2 : string) :
  String c s1 +:+ s2 = String c (s1 +:+ s2).
Proof. reflexivity. Qed.

Lemma string_app_nil_l (s : string) : "" +:+ s = s.
Proof. reflexivity. Qed.

Lemma string_app_assoc (s1 s2 s3 : string) :
  (s1 +:+ s2) +:+ s3 = s1 +:+ (s2 +:+ s3).
Proof.
  induction s1 as [|c s1 IH]; [done|]. by rewrite !string_app_cons, IH.
Qed.

Lemma string_app_nil_r (s : string) : s +:+ "" = s.
Proof. induction s as [|c s IH]; [done|]. by rewrite string_app_cons, IH. Qed.

Lemma but_last_app (s : string) (c : Ascii.ascii) : but_last (s +:+ String c "") = s.
Proof.
  induction s as [|c' s IH]; [done|]. rewrite string_app_cons.
  cbn [but_last]. rewrite IH. by destruct s.
Qed.

Lemma string_app_nil_inv (s1 s2 : string) : s1 +:+ s2 = "" → s2 = "".
Proof. by destruct s1. Qed.

Lemma but_last_app_r (s1 s2 : string) :
  s2 ≠ "" → but_last (s1 +:+ s2) = s1 +:+ but_last s2.
Proof.
  intros Hne. induction s1 as [|c s1 IH]; [done|].
  rewrite !string_app_cons. cbn [but_last]. rewrite IH.
  destruct (s1 +:+ s2) eqn:Hs; [|done].
  by apply string_app_nil_inv in Hs.
Qed.

Lemma concat_cons_app (x : string) (xs : list string) :
  String.concat "" (x :: xs) = x +:+ String.concat "" xs.
Proof. destruct xs; simpl; [by rewrite string_app_nil_r|done]. Qed.

Lemma visualize_row (row : list Z) (repr_str : string) :
  foldl (λ repr_str n,
           let repr_str :=
             if bool_decide (n = 0) then repr_str +:+ " "
             else repr_str +:+ str n in
           repr_str +:+ " ")
        repr_str row
  = repr_str +:+ show_row row.
Proof.
  unfold show_row. revert repr_str.
  induction row as [|n row IH]; intros repr_str.
  { cbn. by rewrite string_app_nil_r. }
  rewrite fmap_cons, concat_cons_app. cbn [foldl]. rewrite IH.
  unfold show_cell. rewrite <- !string_app_assoc. by case_bool_decide.
Qed.

Lemma visualize_rows (m : arrangement) (repr_str : string) :
  foldl (λ repr_str row,
           foldl (λ repr_str n,
                    let repr_str :=
                      if bool_decide (n = 0) then repr_str +:+ " "
                      else repr_str +:+ str n in
                    repr_str +:+ " ")
                 repr_str row
           +:+ newline)
        repr_str m
  = repr_str
    +:+ String.concat "" ((λ row, show_row row +:+ newline) <$> m).
Proof.
  revert repr_str. induction m as [|row m IH]; intros repr_str.
  { cbn. by rewrite string_app_nil_r. }
  rewrite fmap_cons, concat_cons_app. cbn [foldl].
  rewrite IH, visualize_row. by rewrite !string_app_assoc.
Qed.

Lemma visualize_join (m : arrangement) :
  visualize m = String.concat newline (show_row <$> m).
Proof.
  unfold visualize. rewrite visualize_rows, string_app_nil_l.
  induction m as [|row m IH]; [done|].
  rewrite !fmap_cons, concat_cons_app.
  destruct m as [|row' m].
  { cbn [fmap list_fmap String.concat]. rewrite string_app_nil_r.
    apply but_last_app. }
  rewrite but_last_app_r.
  - rewrite IH, fmap_cons, string_app_assoc. reflexivity.
  - rewrite fmap_cons, concat_cons_app, string_app_assoc.
    intros Hnil%string_app_nil_inv. discriminate Hnil.
Qed.

(** X25: [visualize] returns the rows of the matrix joined by line feeds,
    with no line feed at the end; in a row every cell is followed by one
    space, and a cell that holds 0 is shown as a space instead of a digit. *)
Theorem visualize_rows_joined (m : arrangement) :
  visualize m = String.concat newline (show_row <$> m).
Proof. apply visualize_join. Qed.

Lemma digit_cases (n : Z) :
  0 ≤ n ≤ 8 →
  n = 0 ∨ n = 1 ∨ n = 2 ∨ n = 3 ∨ n = 4 ∨ n = 5 ∨ n = 6 ∨ n = 7 ∨ n = 8.
Proof. lia. Qed.

Lemma show_cell_digit (n : Z) : 0 ≤ n ≤ 8 → ∃ c, show_cell n = String c "".
Proof. intros Hn%digit_cases. destruct_or!; subst n; by eexists. Qed.

Lemma show_cell_inj (a b : Z) :
  0 ≤ a ≤ 8 → 0 ≤ b ≤ 8 → show_cell a = show_cell b → a = b.
Proof.
  intros Ha%digit_cases Hb%digit_cases Heq.
  destruct_or!; subst a b; first [reflexivity | by vm_compute in Heq].
Qed.

Lemma board_cells (a b c d e f g h i : Z) :
  is_board (grid a b c d e f g h i) →
  Forall (λ x, 0 ≤ x ≤ 8) [a; b; c; d; e; f; g; h; i].
Proof.
  intros Hb. apply Forall_forall. intros x Hx.
  by apply (board_elem _ x Hb).
Qed.

(** X26: the picture of a board has 20 characters, and two boards with the
    same picture are the same board. *)
Theorem visualize_board (m m' : arrangement) :
  is_board m → is_board m' →
  String.length (visualize m) = 20%nat
  ∧ (visualize m = visualize m' → m = m').
Proof.
  intros Hb Hb'.
  destruct (shape_grid m (proj1 Hb)) as (a&b&c&d&e&f&g&h&i&->).
  destruct (shape_grid m' (proj1 Hb')) as (a'&b'&c'&d'&e'&f'&g'&h'&i'&->).
  pose proof (board_cells _ _ _ _ _ _ _ _ _ Hb) as Hc.
  pose proof (board_cells _ _ _ _ _ _ _ _ _ Hb') as Hc'.
  rewrite !Forall_cons in Hc, Hc'. destruct_and!.
  rewrite !visualize_join. unfold grid, show_row.
  cbn [fmap list_fmap].
  repeat match goal with
  | |- context [show_cell ?x] =>
      let cx := fresh "ch" in
      let Hx := fresh "Hch" in
      destruct (show_cell_digit x ltac:(done)) as [cx Hx]; rewrite Hx
  end.
  split; [reflexivity|]. intros Heq. cbv in Heq.
  injection Heq as -> -> -> -> -> -> -> -> ->.
  repeat match goal with
  | H1 : show_cell ?x = String ?cx "", H2 : show_cell ?y = String ?cx "" |- _ =>
      assert (x = y) as -> by (apply show_cell_inj; [done..|congruence]);
      clear H1
  end.
  reflexivity.
Qed.

(** The loop of [main] prints, for the state it is given and then for each
    state met when [prev_state] is followed, the picture of the state and a
    line of five dashes. *)
Lemma report_path (fuel : nat) (h : heap) (res : loc) (boards : list arrangement) :
  path_boards fuel h res = Some boards →
  report fuel h (Some res) = Some (m ← boards; [visualize m; "-----"]).
Proof.
  unfold path_boards.
  assert (∀ fuel res path boards,
    predecessors fuel h res = Some path →
    mapM (λ l, matrix <$> h !! l) path = Some boards →
    report fuel h res = Some (m ← boards; [visualize m; "-----"])) as Hgen.
  { clear. induction fuel as [|fuel IH]; intros res path boards Hpath Hb.
    { destruct res; [done|]. injection Hpath as <-. by injection Hb as <-. }
    destruct res as [r|]; [|injection Hpath as <-; by injection Hb as <-].
    cbn [predecessors report] in *.
    destruct (h !! r) as [o|] eqn:Ho; [|done]. simpl in Hpath |- *.
    destruct (predecessors fuel h (prev_state o)) as [p|] eqn:Hp; [|done].
    injection Hpath as <-. cbn [mapM] in Hb. rewrite Ho in Hb. simpl in Hb.
    destruct (mapM (λ l, matrix <$> h !! l) p) as [bs|] eqn:Hbs; [|done].
    injection Hb as <-. by rewrite (IH _ _ _ Hp Hbs). }
  intros Hpb.
  destruct (predecessors fuel h (Some res)) as [path|] eqn:Hpath; [|done].
  by eapply Hgen.
Qed.

(** X27: after a successful search from a start state that has no
    predecessor, the loop of [main] prints two lines for each board of the
    path, from the state returned back to the start: the picture of the
    board and a line of five dashes.  The first board pictured has the hash
    of the goal, each board is one slide after the board pictured next, and
    the last one is the board of the start. *)
Theorem report_after_search `{TupleHash} (fuel : nat) (h h' : heap) (start end_ : loc)
    (s oe : EFPState) (res : loc) :
  h !! start = Some s → h !! end_ = Some oe →
  is_board (matrix s) → is_board (matrix oe) → prev_state s = None →
  a_sharp_search fuel start end_ h = Some (Ok res, h') →
  ∃ (m : arrangement) (boards : list arrangement),
    board_hash m = board_hash (matrix oe)
    ∧ trail_ok (matrix s) (m :: boards)
    ∧ last (m :: boards) = Some (matrix s)
    ∧ ∀ fuel', (length (m :: boards) ≤ fuel')%nat →
        report fuel' h' (Some res)
        = Some (b ← m :: boards; [visualize b; "-----"]).
Proof.
  intros Hs He Hbs Hbe Hprev Hrun.
  destruct (a_sharp_search_ok fuel h h' start end_ s oe res Hs He Hbs Hbe Hrun)
    as (n & news & Href & -> & Hrepr).
  destruct (ref_loop_found fuel (matrix s) (matrix oe) _ _ n
              (ref_search_inv _ _ Hbs) Href) as (Hhash & Hbn & Htrail).
  destruct Hrepr as (_ & _ & _ & _ & _ & Hchain).
  exists (board n), (trail n). split; [done|]. split; [done|]. split.
  - clear -Htrail. remember (board n :: trail n) as boards eqn:Hb. clear Hb.
    induction Htrail; [done|]. by rewrite last_cons_cons.
  - intros fuel' Hfuel'. apply report_path.
    eapply chain_path_boards; [|exact Hchain|done].
    intros o Ho. rewrite lookup_app_l_Some
      with (x := started s end_ (matrix oe)) in Ho.
    + by injection Ho as <-.
    + apply list_lookup_insert_eq. by eapply lookup_lt_Some.
Qed.

(** ** The further theorems at concrete boards *)

Lemma eq_iff_same_arrangement_witness :
  @EFPState_eq cpython_tuple_hash (new_state main_start) (new_state main_end) = true
  ↔ matrix (new_state main_start) = matrix (new_state main_end).
Proof. apply eq_iff_same_arrangement; concrete_board. Defined.

Lemma eq_confuses_minus_one_witness :
  @EFPState_eq cpython_tuple_hash (new_state with_minus_one)
     (new_state with_minus_two) = true
  ∧ matrix (new_state with_minus_one) ≠ matrix (new_state with_minus_two).
Proof.
  destruct (eq_confuses_minus_one (new_state with_minus_one)
              (new_state with_minus_two)) as [Heq Hne];
    [reflexivity |].
  split; [exact Heq|]. apply Hne. compute_done.
Defined.

Lemma get_index_first_witness :
  get_index (matrix_of_sequence main_end) 9
  = Raise (RuntimeError (CouldNotFindIndex 9))
  ∧ 9 ∉ concat (matrix_of_sequence main_end).
Proof.
  split; [reflexivity|].
  exact (proj2 (get_index_first (matrix_of_sequence main_end) 9 eq_refl)).
Defined.

Lemma setitem_then_getitem_witness :
  ∃ h', setitem 0 (1, -1) 9 [new_state main_end] = (Ok (), h')
        ∧ getitem 0 (1, -1) h' = (Ok 9, h')
        ∧ getitem 0 (1, 2) h' = (Ok 9, h').
Proof.
  eexists. split; [reflexivity|]. split; [|reflexivity].
  exact (proj1 (setitem_then_getitem [new_state main_end] _ 0 (1, -1) 9 eq_refl)).
Defined.

Lemma setitem_outside_witness :
  getitem 0 (3, 0) [new_state main_end]
  = (Raise (IndexError ListIndexOutOfRange), [new_state main_end])
  ∧ setitem 0 (3, 0) 7 [new_state main_end]
    = (Raise (IndexError ListIndexOutOfRange), [new_state main_end]).
Proof.
  apply (setitem_outside [new_state main_end] 0 (new_state main_end) (3, 0) 7
           eq_refl eq_refl).
  simpl. lia.
Defined.

Lemma swap_twice_witness :
  ∃ h1 h2 o2,
    swap 0 (0, 0) (2, 2) [new_state main_end] = (Ok (), h1)
    ∧ swap 0 (0, 0) (2, 2) h1 = (Ok (), h2)
    ∧ h2 !! 0%nat = Some o2
    ∧ matrix o2 = matrix (new_state main_end).
Proof.
  eexists _, _.
  destruct (swap_twice [new_state main_end] _ _ 0 (0, 0) (2, 2) eq_refl eq_refl)
    as (o & o2 & Ho & Ho2 & Hm & _).
  exists o2. split; [reflexivity|]. split; [reflexivity|].
  split; [exact Ho2|]. injection Ho as <-. exact Hm.
Defined.

Lemma swap_outside_witness :
  swap 0 (0, 0) (0, 3) [new_state main_end]
  = (Raise (IndexError ListIndexOutOfRange), [new_state main_end]).
Proof.
  apply (swap_outside [new_state main_end] 0 (new_state main_end) (0, 0) (0, 3)
           eq_refl eq_refl).
  right. simpl. lia.
Defined.

Lemma move_there_and_back_witness :
  ∃ h1 dist,
    move 1 true false false false main_states = (Ok 1%nat, h1)
    ∧ move 1 false true false false h1
      = (Ok 1%nat,
         <[1%nat := mkEFPState (matrix_of_sequence main_start) dist
                      (Some 0%nat) None]> main_states).
Proof.
  eexists.
  destruct (move_there_and_back main_states _ 1 1
              (mkEFPState (matrix_of_sequence main_start) 14 (Some 0%nat) None)
              MoveLeft eq_refl ltac:(concrete_board)
              ltac:(eexists; split; [reflexivity | concrete_board])
              ltac:(discriminate) eq_refl)
    as [_ (dist & Hback & _)].
  exists dist. split; [reflexivity | exact Hback].
Defined.

Lemma move_invalid_no_effect_witness :
  ∃ h', move 0 false true false false [new_state main_end]
        = (Raise (InvalidMoveDirection (CantMove MoveRight)), h')
        ∧ h' = [new_state main_end].
Proof.
  eexists. split; [reflexivity|].
  exact (proj1 (move_invalid_no_effect [new_state main_end] _ 0
                  false true false false _ eq_refl)).
Defined.

Lemma move_without_direction_witness :
  move 0 false false false false [new_state main_end]
  = (Raise (RuntimeError NoDirectionGiven), [new_state main_end]).
Proof.
  exact (move_without_direction [new_state main_end] 0 (new_state main_end)
           eq_refl eq_refl).
Defined.

Lemma init_with_goal_witness :
  ∃ dist,
    EFPState_init main_start (Some 0%nat) true [new_state main_end]
    = (Ok 1%nat,
       [new_state main_end]
       ++ [mkEFPState (matrix_of_sequence main_start) dist (Some 0%nat) None]).
Proof.
  destruct (init_with_goal [new_state main_end] main_start 0
              (new_state main_end) eq_refl ltac:(concrete_board)
              ltac:(concrete_board)) as (dist & _ & Hinit).
  exists dist. exact Hinit.
Defined.

Lemma copy_fresh_witness :
  ∃ c, copy 1 main_states = (Ok 2%nat, main_states ++ [c])
       ∧ matrix c = matrix_of_sequence main_start
       ∧ end_state c = Some 0%nat
       ∧ prev_state c = None.
Proof.
  destruct (copy_fresh main_states 1
              (mkEFPState (matrix_of_sequence main_start) 14 (Some 0%nat) None)
              eq_refl) as (c & Hc & _ & Hm & _ & He & Hp).
  exists c. split; [exact Hc|]. split; [exact (Hm eq_refl)|].
  split; [exact He | exact Hp].
Defined.

Lemma extend_children_witness :
  ∃ locs news,
    extend 1 main_states = (Ok locs, main_states ++ news)
    ∧ length news = 4%nat.
Proof.
  destruct (extend_children main_states 1
              (mkEFPState (matrix_of_sequence main_start) 14 (Some 0%nat) None)
              eq_refl ltac:(concrete_board)
              ltac:(eexists; split; [reflexivity | concrete_board]))
    as (locs & news & Hext & Hlen & _).
  exists locs, news. split; [exact Hext | exact Hlen].
Defined.

Lemma distance_zero_iff_equal_witness :
  distance (matrix_of_sequence main_start) (matrix_of_sequence main_end) = Ok 0
  ↔ matrix_of_sequence main_start = matrix_of_sequence main_end.
Proof. apply distance_zero_iff_equal; concrete_board. Defined.

Lemma distance_triangle_witness :
  ∃ dab dbc dac,
    distance (matrix_of_sequence main_start) (matrix_of_sequence one_slide_away)
    = Ok dab
    ∧ distance (matrix_of_sequence one_slide_away) (matrix_of_sequence main_end)
      = Ok dbc
    ∧ distance (matrix_of_sequence main_start) (matrix_of_sequence main_end)
      = Ok dac
    ∧ 0 ≤ dac ≤ dab + dbc.
Proof. apply distance_triangle; concrete_board. Defined.

Lemma distance_after_slide_witness :
  ∃ dist dist',
    distance (matrix_of_sequence one_slide_away) (matrix_of_sequence main_start)
    = Ok dist
    ∧ distance (matrix_of_sequence main_end) (matrix_of_sequence main_start)
      = Ok dist'
    ∧ (dist' = dist + 1 ∨ dist' = dist - 1).
Proof.
  apply (distance_after_slide (matrix_of_sequence one_slide_away)
           (matrix_of_sequence main_end) (matrix_of_sequence main_start)
           MoveRight); [concrete_board | concrete_board | reflexivity].
Defined.

Lemma distance_missing_tile_witness :
  distance (matrix_of_sequence main_end) (matrix_of_sequence tile_replaced)
  = Raise (RuntimeError (CouldNotFindIndex 6)).
Proof.
  apply (distance_missing_tile (matrix_of_sequence main_end)
           (matrix_of_sequence tile_replaced) 8 6);
    [reflexivity | reflexivity | reflexivity | discriminate | compute_done |].
  intros k' v' Hk' Hv'.
  do 8 (destruct k' as [|k'];
        [injection Hv' as <-; first [by left | right; compute_done]|]).
  lia.
Defined.

Lemma slide_flips_parity_witness :
  (count_inversions (to_sequence (matrix_of_sequence main_end))
   - count_inversions (to_sequence (matrix_of_sequence one_slide_away)))
    `mod` 2 = 1.
Proof.
  apply (slide_flips_parity (matrix_of_sequence one_slide_away)
           (matrix_of_sequence main_end) MoveRight);
    [concrete_board | reflexivity].
Defined.

Lemma search_refuses_odd_paths_witness :
  (prologue 1 0 (two_states main_end one_slide_away)).1
  = Raise (RuntimeError DifferentParity).
Proof.
  exact (proj1 (@search_refuses_odd_paths cpython_tuple_hash 0
                  (two_states main_end one_slide_away) 1 0
                  (new_state one_slide_away) (new_state main_end) [MoveRight]
                  eq_refl eq_refl ltac:(concrete_board) eq_refl)).
Defined.

Lemma search_from_goal_witness :
  @a_sharp_search cpython_tuple_hash 1 0 0 [new_state main_end]
  = Some (Ok 0%nat,
          [mkEFPState (matrix_of_sequence main_end) 0 (Some 0%nat) None]).
Proof.
  exact (@search_from_goal cpython_tuple_hash 0 [new_state main_end] 0 0
           (new_state main_end) (new_state main_end)
           eq_refl eq_refl ltac:(concrete_board) eq_refl).
Defined.

Lemma sort_then_pop_witness :
  ∃ sorted, sort_process_list [1; 0]%nat main_states = (Ok sorted, main_states)
            ∧ sorted ≡ₚ [1; 0]%nat.
Proof.
  destruct (sort_then_pop [1; 0]%nat main_states) as (sorted & Hs & Hp & _).
  - repeat constructor; by eexists.
  - exists sorted. split; [exact Hs | exact Hp].
Defined.

Lemma search_returns_goal_board_witness :
  ∃ res h' ores,
    @a_sharp_search cpython_tuple_hash 10 1 0
      (two_states main_end two_slides_away) = Some (Ok res, h')
    ∧ h' !! res = Some ores
    ∧ matrix ores = matrix (new_state main_end).
Proof.
  eexists _, _.
  destruct (search_returns_goal_board 10
              (two_states main_end two_slides_away) _ 1 0
              (new_state two_slides_away) (new_state main_end) _
              eq_refl eq_refl ltac:(concrete_board) ltac:(concrete_board)
              ltac:(vm_compute; reflexivity))
    as (ores & Hres & Hm).
  exists ores. split; [vm_compute; reflexivity|]. split; [exact Hres | exact Hm].
Defined.

Lemma visualize_board_witness :
  String.length (visualize (matrix_of_sequence main_end)) = 20%nat
  ∧ (visualize (matrix_of_sequence main_end)
     = visualize (matrix_of_sequence main_start) →
     matrix_of_sequence main_end = matrix_of_sequence main_start).
Proof. apply visualize_board; concrete_board. Defined.

Lemma report_after_search_witness :
  ∃ res h',
    @a_sharp_search cpython_tuple_hash 10 1 0
      (two_states main_end two_slides_away) = Some (Ok res, h')
    ∧ report 10 h' (Some res)
      = Some [ visualize (matrix_of_sequence main_end); "-----";
               visualize (matrix_of_sequence [1; 2; 3; 4; 5; 6; 7; 8; 0]);
               "-----";
               visualize (matrix_of_sequence two_slides_away); "-----" ]
    ∧ ∃ m boards,
        @board_hash cpython_tuple_hash m
        = @board_hash cpython_tuple_hash (matrix_of_sequence main_end)
        ∧ trail_ok (matrix_of_sequence two_slides_away) (m :: boards)
        ∧ last (m :: boards) = Some (matrix_of_sequence two_slides_away)
        ∧ ∀ fuel', (length (m :: boards) ≤ fuel')%nat →
            report fuel' h' (Some res)
            = Some (b ← m :: boards; [visualize b; "-----"]).
Proof.
  eexists _, _. split; [vm_compute; reflexivity|].
  split; [vm_compute; reflexivity|].
  eapply (@report_after_search cpython_tuple_hash 10
            (two_states main_end two_slides_away) _ 1 0
            (new_state two_slides_away) (new_state main_end));
    [ reflexivity | reflexivity | concrete_board | concrete_board
    | reflexivity | vm_compute; reflexivity ].
Defined.

Lemma parity_refusal_witness :
  @a_sharp_search cpython_tuple_hash 0 1 0 (two_states main_end one_slide_away)
  = Some (Raise (RuntimeError DifferentParity),
          <[1%nat := started (new_state one_slide_away) 0
                       (matrix_of_sequence main_end)]>
            (two_states main_end one_slide_away))
  ∧ @a_sharp_expansions cpython_tuple_hash 0 1 0
      (two_states main_end one_slide_away) = [].
Proof.
  apply (@parity_refusal cpython_tuple_hash 0
           (two_states main_end one_slide_away) 1 0
           (new_state one_slide_away) (new_state main_end));
    [reflexivity | reflexivity | concrete_board | concrete_board | by vm_compute].
Defined.

(** ** A goal within reach is found *)

Lemma slides_raise (e : exn) (ds : list direction) :
  foldl (λ r d, m ← r; slide m d) (Raise e) ds = Raise e.
Proof. by induction ds. Qed.

Lemma slides_cons (m : arrangement) (d : direction) (ds : list direction) :
  slides m (d :: ds) = m' ← slide m d; slides m' ds.
Proof.
  unfold slides. cbn [foldl]. cbv beta iota delta [mbind result_bind].
  destruct (slide m d); [done|]. apply slides_raise.
Qed.

Lemma slide_successor (m m' : arrangement) (d : direction) :
  slide m d = Ok m' → m' ∈ successors_of m.
Proof.
  intros Hsl. unfold successors_of. apply list_elem_of_omap.
  exists d. split; [destruct d; set_solver|]. by rewrite Hsl.
Qed.

Lemma parity_differs_slides (m m' : arrangement) (ds : list direction) :
  is_board m → slides m ds = Ok m' →
  parity_differs m m' = Nat.odd (length ds).
Proof.
  intros Hb Hsl. destruct (slides_parity _ _ _ Hb Hsl) as [_ Hpar].
  unfold parity_differs. revert Hpar.
  generalize (count_inversions (to_sequence m')),
    (count_inversions (to_sequence m)). intros c' c Hpar.
  destruct (Nat.odd (length ds)) eqn:Hl.
  - apply bool_decide_eq_true_2. apply Nat.odd_spec in Hl as [k Hk].
    rewrite Hk in Hpar. Z.div_mod_to_equations. lia.
  - apply bool_decide_eq_false_2. intros Hne. apply Hne.
    assert (Nat.even (length ds) = true) as [k Hk]%Nat.even_spec.
    { by rewrite <- Nat.negb_odd, Hl. }
    rewrite Hk in Hpar. Z.div_mod_to_equations. lia.
Qed.

Section completeness.
Context `{TupleHash}.
Hypothesis hash_inj :
  ∀ a b, is_board a → is_board b → board_hash a = board_hash b → a = b.

Lemma open_path_head (visited : gmap Z bool) (goal m : arrangement) :
  open_path visited goal m → visited !! board_hash m = None.
Proof. by destruct 1. Qed.

Lemma slides_open_path (m goal : arrangement) (ds : list direction) :
  slides m ds = Ok goal → open_path ∅ goal m.
Proof.
  revert m. induction ds as [|d ds IH]; intros m Hsl.
  { injection Hsl as ->. by constructor. }
  rewrite slides_cons in Hsl.
  destruct (slide m d) as [m'|] eqn:Hm'; [|done].
  eapply open_step; [done|exact Hm'|]. by apply IH.
Qed.

(** Marking one more hash either leaves the path open, or the path passes
    through a board with that hash and is open after it. *)
Lemma open_path_mark (visited : gmap Z bool) (goal m : arrangement) (k : Z) :
  is_board m → open_path visited goal m → board_hash goal ≠ k →
  open_path (<[k := true]> visited) goal m
  ∨ ∃ m0 d m', is_board m0 ∧ board_hash m0 = k ∧ slide m0 d = Ok m'
               ∧ open_path (<[k := true]> visited) goal m'.
Proof.
  intros Hb Hopen Hk. induction Hopen as [Hg|m d m' Hm Hsl Hopen IH].
  { left. constructor. by rewrite lookup_insert_ne. }
  destruct (slide_board_ok m m' d Hb Hsl) as [Hb' _].
  destruct (IH Hb') as [Hleft|Hright]; [|by right].
  destruct (decide (board_hash m = k)) as [Heq|Hne].
  - right. by exists m, d, m'.
  - left. eapply open_step; [|exact Hsl|exact Hleft].
    by rewrite lookup_insert_ne.
Qed.

Lemma ref_body_reach (start goal : arrangement) (visited : gmap Z bool)
    (frontier : list node) :
  ref_inv start visited frontier → reach_inv goal visited frontier →
  match ref_body goal visited frontier with
  | RefExhausted => False
  | RefStale v fr | RefExpanded _ v fr => reach_inv goal v fr
  | RefFound _ => True
  end.
Proof.
  intros (Htrue & _ & Hfr) (n & Hn & Hopen). unfold ref_body.
  pose proof (ref_sort_Permutation frontier) as Hperm.
  rewrite <- Hperm in Hn, Hfr.
  destruct (ref_sort frontier) as [|n0 fr]; [by apply elem_of_nil in Hn|].
  pose proof (open_path_head _ _ _ Hopen) as Hhead.
  apply Forall_cons in Hfr as [[Hb0 _] Hfr].
  destruct (visited !! board_hash (board n0)) as [b|] eqn:Hv; simpl.
  - rewrite (Htrue _ _ Hv). exists n. split; [|done].
    apply elem_of_cons in Hn as [->|Hn]; [congruence|done].
  - case_bool_decide as Hgoal; [done|].
    assert (is_board (board n)) as Hbn.
    { apply elem_of_cons in Hn as [->|Hn]; [done|].
      rewrite Forall_forall in Hfr. by apply Hfr. }
    destruct (open_path_mark visited goal (board n) (board_hash (board n0))
                Hbn Hopen Hgoal) as [Hleft|(m0 & d & m' & Hb & Hh & Hsl & Hm')].
    + exists n. split; [|done]. apply elem_of_app. left.
      apply elem_of_cons in Hn as [->|Hn]; [|done].
      apply open_path_head in Hleft. by rewrite lookup_insert_eq in Hleft.
    + apply (hash_inj _ _ Hb Hb0) in Hh. subst m0.
      exists (mkNode m' (distance_spec m' goal) (board n0 :: trail n0)).
      split; [|done]. apply elem_of_app. right.
      unfold ref_successors. apply list_elem_of_fmap.
      exists m'. split; [done|]. by eapply slide_successor.
Qed.

Lemma ref_loop_reach (fuel : nat) (start goal : arrangement)
    (visited : gmap Z bool) (frontier : list node) (r : option node) :
  ref_inv start visited frontier → reach_inv goal visited frontier →
  ref_loop fuel goal visited frontier = Some r → is_Some r.
Proof.
  revert visited frontier.
  induction fuel as [|fuel IH]; intros visited frontier Hinv Hreach Hrun; [done|].
  simpl in Hrun. pose proof (ref_body_inv start goal _ _ Hinv) as Hturn.
  pose proof (ref_body_reach start goal _ _ Hinv Hreach) as Hturn'.
  destruct (ref_body goal visited frontier) as [v fr|n' v fr|n'|].
  - destruct Hturn as (_ & _ & Hinv'). by eapply IH.
  - destruct Hturn as (_ & _ & _ & Hinv'). by eapply IH.
  - injection Hrun as <-. by eexists.
  - done.
Qed.

Lemma ref_search_finds (start goal : arrangement) (ds : list direction) :
  is_board start → slides start ds = Ok goal →
  ∃ fuel n, ref_search fuel start goal = Some (Some n).
Proof.
  intros Hb Hsl.
  destruct (ref_search_terminates start goal Hb) as (fuel & r & Hr).
  destruct (ref_loop_reach fuel start goal _ _ r (ref_search_inv start goal Hb))
    as [n ->]; [|exact Hr|by exists fuel, n].
  eexists. split; [by left|]. simpl. by eapply slides_open_path.
Qed.
End completeness.

Lemma cpython_hash_boards (a b : arrangement) :
  is_board a → is_board b →
  @board_hash cpython_tuple_hash a = @board_hash cpython_tuple_hash b → a = b.
Proof.
  intros Ha Hb Hh. apply board_ext; [done..|].
  apply cpython_hash_injective; [apply Ha|apply Hb|exact Hh].
Qed.

(** X29: under the tuple hash of CPython, when some sequence of slides of
    even length leads from the start board to the goal board, the search
    ends by returning a state: it raises neither for the parity nor for an
    empty list. *)
Theorem search_finds_goal (h : heap) (start end_ : loc) (s oe : EFPState)
    (ds : list direction) :
  h !! start = Some s → h !! end_ = Some oe →
  is_board (matrix s) → slides (matrix s) ds = Ok (matrix oe) →
  Nat.even (length ds) = true →
  ∃ fuel res h',
    @a_sharp_search cpython_tuple_hash fuel start end_ h = Some (Ok res, h').
Proof.
  intros Hs He Hbs Hsl Heven.
  destruct (slides_parity _ _ _ Hbs Hsl) as [Hbe _].
  destruct (@ref_search_finds cpython_tuple_hash cpython_hash_boards
              (matrix s) (matrix oe) ds Hbs Hsl) as (fuel & n & Href).
  pose proof (@a_sharp_search_sim cpython_tuple_hash fuel h start end_ s oe
                Hs He Hbs Hbe) as Hsim.
  simpl in Hsim.
  rewrite (parity_differs_slides _ _ _ Hbs Hsl) in Hsim.
  rewrite <- Nat.negb_even, Heven in Hsim. simpl in Hsim.
  rewrite Href in Hsim. destruct Hsim as (l & news & Hrun & _).
  by eexists fuel, l, _.
Qed.

(** ** No board twice on the path returned *)

Section trails.
Context `{TupleHash}.

Lemma trail_no_repeat (visited : gmap Z bool) (n : node) :
  visited !! board_hash (board n) = None →
  NoDup (board_hash <$> trail n) →
  (∀ m, m ∈ trail n → is_Some (visited !! board_hash m)) →
  NoDup (board_hash <$> board n :: trail n).
Proof.
  intros Hnew Hnd Hseen. rewrite fmap_cons. apply NoDup_cons. split; [|done].
  intros (m & Hm & Hin)%list_elem_of_fmap.
  destruct (Hseen m Hin) as [b Hb]. congruence.
Qed.

Lemma ref_body_trail (goal : arrangement) (visited : gmap Z bool)
    (frontier : list node) :
  map_Forall (λ _ b, b = true) visited →
  trail_inv visited frontier →
  match ref_body goal visited frontier with
  | RefExhausted => True
  | RefStale v fr | RefExpanded _ v fr => trail_inv v fr
  | RefFound n => NoDup (board_hash <$> board n :: trail n)
  end.
Proof.
  unfold trail_inv, ref_body. intros Htrue Hfr.
  rewrite <- (ref_sort_Permutation frontier) in Hfr.
  destruct (ref_sort frontier) as [|n0 fr]; [done|].
  apply Forall_cons in Hfr as [[Hnd Hseen] Hfr].
  destruct (visited !! board_hash (board n0)) as [b|] eqn:Hv; simpl.
  { by rewrite (Htrue _ _ Hv). }
  case_bool_decide; [by apply (trail_no_repeat visited)|].
  apply Forall_app. split.
  - eapply Forall_impl; [exact Hfr|]. intros n [Hndn Hseenn]. split; [done|].
    intros m Hm. apply lookup_insert_is_Some'. right. by apply Hseenn.
  - unfold ref_successors. rewrite Forall_fmap. apply Forall_forall.
    intros m' _. simpl. split; [by apply (trail_no_repeat visited)|].
    intros m [->|Hm]%elem_of_cons; apply lookup_insert_is_Some'.
    + by left.
    + right. by apply Hseen.
Qed.

Lemma ref_loop_trail (fuel : nat) (start goal : arrangement)
    (visited : gmap Z bool) (frontier : list node) (n : node) :
  ref_inv start visited frontier → trail_inv visited frontier →
  ref_loop fuel goal visited frontier = Some (Some n) →
  NoDup (board_hash <$> board n :: trail n).
Proof.
  revert visited frontier.
  induction fuel as [|fuel IH]; intros visited frontier Hinv Htr Hrun; [done|].
  simpl in Hrun. pose proof (ref_body_inv start goal _ _ Hinv) as Hturn.
  pose proof (ref_body_trail goal _ _ (proj1 Hinv) Htr) as Hturn'.
  destruct (ref_body goal visited frontier) as [v fr|n' v fr|n'|].
  - destruct Hturn as (_ & _ & Hinv'). by eapply IH.
  - destruct Hturn as (_ & _ & _ & Hinv'). by eapply IH.
  - by simplify_eq.
  - done.
Qed.

(** X30: after a successful search from a start state that has no
    predecessor, the states met when [prev_state] is followed from the
    state returned hold boards that are all different, and whose hashes are
    all different: the path never comes back to a board. *)
Theorem search_path_NoDup (fuel : nat) (h h' : heap) (start end_ : loc)
    (s oe : EFPState) (res : loc) :
  h !! start = Some s → h !! end_ = Some oe →
  is_board (matrix s) → is_board (matrix oe) → prev_state s = None →
  a_sharp_search fuel start end_ h = Some (Ok res, h') →
  ∃ boards,
    (∀ fuel', (length boards ≤ fuel')%nat →
              path_boards fuel' h' res = Some boards)
    ∧ NoDup boards
    ∧ NoDup (board_hash <$> boards).
Proof.
  intros Hs He Hbs Hbe Hprev Hrun.
  destruct (a_sharp_search_ok fuel h h' start end_ s oe res Hs He Hbs Hbe Hrun)
    as (n & news & Href & -> & Hrepr).
  assert (NoDup (board_hash <$> board n :: trail n)) as Hnd.
  { eapply (ref_loop_trail fuel (matrix s));
      [by apply ref_search_inv| |exact Href].
    constructor; [|constructor]. simpl. split; [constructor|].
    intros m Hm. by apply elem_of_nil in Hm. }
  exists (board n :: trail n). split; [|split; [by eapply NoDup_fmap_1|done]].
  intros fuel' Hfuel'. destruct Hrepr as (_ & _ & _ & _ & _ & Hc).
  eapply chain_path_boards; [|exact Hc|done].
  intros o Ho.
  rewrite lookup_app_l_Some with (x := started s end_ (matrix oe)) in Ho.
  - by injection Ho as <-.
  - apply list_lookup_insert_eq. by eapply lookup_lt_Some.
Qed.
End trails.

Lemma search_finds_goal_witness :
  ∃ fuel res h',
    @a_sharp_search cpython_tuple_hash fuel 1 0
      (two_states main_end two_slides_away) = Some (Ok res, h').
Proof.
  apply (search_finds_goal (two_states main_end two_slides_away) 1 0
           (new_state two_slides_away) (new_state main_end)
           [MoveRight; MoveUp]);
    [reflexivity | reflexivity | concrete_board | reflexivity | reflexivity].
Defined.

Lemma search_path_NoDup_witness :
  ∃ res h' boards,
    @a_sharp_search cpython_tuple_hash 10 1 0
      (two_states main_end two_slides_away) = Some (Ok res, h')
    ∧ (∀ fuel', (length boards ≤ fuel')%nat →
                path_boards fuel' h' res = Some boards)
    ∧ NoDup boards.
Proof.
  eexists _, _.
  destruct (@search_path_NoDup cpython_tuple_hash 10
              (two_states main_end two_slides_away) _ 1 0
              (new_state two_slides_away) (new_state main_end) _
              eq_refl eq_refl ltac:(concrete_board) ltac:(concrete_board)
              eq_refl ltac:(vm_compute; reflexivity))
    as (boards & Hpath & Hnd & _).
  exists boards. split; [vm_compute; reflexivity|].
  split; [exact Hpath | exact Hnd].
Defined.
